(** * pyro.distributions.torch: a shallow embedding and its properties

    The module [pyro/distributions/torch.py] specialises a handful of
    [torch.distributions] families: closed-form conjugate updates for Beta,
    Gamma and Dirichlet, a clamped-Poisson sampler for Binomial, an
    enumeration fast path for Categorical, a logits formula for Geometric,
    and attribute-preserving [expand] for Binomial and Uniform.  It lets
    [Independent] share the validation flag of its base distribution, and
    ends with a loop that wraps every other distribution of torch.

    Conventions of the embedding:
    - a tensor is a shape together with its contiguous row-major storage;
    - elements of floating dtype are real numbers (rounding, NaN and
      overflow are outside the model), elements of integer dtype are [Z];
    - a Python exception is a value of [exn] carried by the [result] monad;
    - randomness enters as an explicit oracle argument, whose generators
      raise on arguments that torch refuses;
    - objects that are shared and assigned to live in a store, the
      namespace of the module is an association list, in which the loop
      at the end of the module binds its own variables;
    - [lgamma] has no counterpart in the standard library of reals and is a
      parameter of every definition that calls it;
    - what the classes inherit from torch (broadcasting, [gather], the
      constructors and their argument validation, [_validate_sample]) is
      written after torch's behaviour; [to_event] and [sum_rightmost],
      defined elsewhere in pyro, are parameters. *)

From Stdlib Require Import String.
From Stdlib Require Import List Arith ZArith Bool Lia.
From Stdlib Require Import Reals Lra Psatz.
Import ListNotations.

Set Implicit Arguments.

(** ** Exceptions *)

Inductive exn : Type :=
| AssertionError
| ValueError
| RuntimeError
| AttributeError
| TypeError
| IndexError
| NotImplementedError.

Inductive result (A : Type) : Type :=
| Ok (a : A)
| Err (e : exn).

Arguments Ok {A} a.
Arguments Err {A} e.

Definition bind {A B} (m : result A) (k : A -> result B) : result B :=
  match m with
  | Ok a => k a
  | Err e => Err e
  end.

Notation "x <- m ;; k" := (bind m (fun x => k))
  (at level 61, m at next level, right associativity).
Notation "' pat <- m ;; k" := (bind m (fun x => match x with pat => k end))
  (at level 61, pat pattern, m at next level, right associativity).

(** [assert b] of Python. *)
Definition assert (b : bool) : result unit :=
  if b then Ok tt else Err AssertionError.

(** [if not b: raise ValueError]. *)
Definition require (b : bool) : result unit :=
  if b then Ok tt else Err ValueError.

(** ** Tensors *)

Module Tensor.

Definition Shape := list nat.
Definition Index := list nat.

Fixpoint numel (s : Shape) : nat :=
  match s with
  | [] => 1
  | d :: s' => d * numel s'
  end.

(** Row-major offset of a multi-index. *)
Fixpoint ravel (s : Shape) (idx : Index) : nat :=
  match s, idx with
  | _ :: s', i :: idx' => i * numel s' + ravel s' idx'
  | _, _ => 0
  end.

(** Multi-index of a row-major offset. *)
Fixpoint unravel (s : Shape) (k : nat) : Index :=
  match s with
  | [] => []
  | _ :: s' => (k / numel s') :: unravel s' (k mod numel s')
  end.

Definition valid_index (s : Shape) (idx : Index) : Prop := Forall2 lt idx s.

Record t (A : Type) : Type := mk { shape : Shape; data : list A }.

Arguments mk {A} shape data.
Arguments shape {A} _.
Arguments data {A} _.

Definition wf {A} (x : t A) : Prop := length (data x) = numel (shape x).

Definition dim {A} (x : t A) : nat := length (shape x).

(** Default element, returned by a read outside the storage. *)
Class Dflt (A : Type) := dflt : A.
#[export] Instance Dflt_R : Dflt R := 0%R.
#[export] Instance Dflt_Z : Dflt Z := 0%Z.
#[export] Instance Dflt_bool : Dflt bool := false.

Definition get {A} `{Dflt A} (x : t A) (idx : Index) : A :=
  nth (ravel (shape x) idx) (data x) dflt.

(** The tensor of shape [s] whose entry at [idx] is [f idx]. *)
Definition tabulate {A} (s : Shape) (f : Index -> A) : t A :=
  mk s (map (fun k => f (unravel s k)) (seq 0 (numel s))).

Definition scalar {A} (a : A) : t A := mk [] [a].

Definition of_list {A} (l : list A) : t A := mk [length l] l.

Definition map1 {A B} (f : A -> B) (x : t A) : t B :=
  mk (shape x) (map f (data x)).


(** *** Broadcasting *)

(** Shapes are aligned at the right; a missing leading dimension counts
    as 1. *)
Definition pad (n : nat) (s : Shape) : Shape :=
  repeat 1 (n - length s) ++ s.

Definition bc_dim (x y : nat) : option nat :=
  if x =? y then Some x
  else if x =? 1 then Some y
  else if y =? 1 then Some x
  else None.

Fixpoint bc_aligned (a b : Shape) : option Shape :=
  match a, b with
  | [], [] => Some []
  | x :: a', y :: b' =>
      match bc_dim x y, bc_aligned a' b' with
      | Some d, Some s => Some (d :: s)
      | _, _ => None
      end
  | _, _ => None
  end.

Definition broadcast_shapes (a b : Shape) : option Shape :=
  let n := Nat.max (length a) (length b) in
  bc_aligned (pad n a) (pad n b).

(** The index read in a tensor of shape [s] when the broadcast result is
    read at [idx]: leading dimensions are dropped, and a dimension of
    size 1 is read at 0. *)
Definition mask (s : Shape) (idx : Index) : Index :=
  map (fun di => if fst di =? 1 then 0 else snd di) (combine s idx).

Definition bidx (s : Shape) (idx : Index) : Index :=
  mask s (skipn (length idx - length s) idx).

(** A dimension of size [fst de] can be expanded to size [snd de]. *)
Definition fits (de : nat * nat) : bool :=
  (fst de =? snd de) || (fst de =? 1).

Definition expandable (s target : Shape) : bool :=
  (length s <=? length target) &&
  forallb fits (combine s (skipn (length target - length s) target)).

(** [x.expand(target)] *)
Definition expand {A} `{Dflt A} (x : t A) (target : Shape) : result (t A) :=
  if expandable (shape x) target
  then Ok (tabulate target (fun idx => get x (bidx (shape x) idx)))
  else Err RuntimeError.

(** An elementwise binary operator with broadcasting, such as [a + b]. *)
Definition binop {A B C} `{Dflt A} `{Dflt B}
    (f : A -> B -> C) (a : t A) (b : t B) : result (t C) :=
  match broadcast_shapes (shape a) (shape b) with
  | Some s =>
      Ok (tabulate s (fun idx =>
            f (get a (bidx (shape a) idx)) (get b (bidx (shape b) idx))))
  | None => Err RuntimeError
  end.

(** [torch.where(c, a, b)] *)
Definition where_ {A} `{Dflt A} (c : t bool) (a b : t A) : result (t A) :=
  match broadcast_shapes (shape c) (shape a) with
  | Some s1 =>
      match broadcast_shapes s1 (shape b) with
      | Some s =>
          Ok (tabulate s (fun idx =>
                if get c (bidx (shape c) idx)
                then get a (bidx (shape a) idx)
                else get b (bidx (shape b) idx)))
      | None => Err RuntimeError
      end
  | None => Err RuntimeError
  end.

(** [torch.broadcast_tensors(a, b)] *)
Definition broadcast_tensors {A B} `{Dflt A} `{Dflt B}
    (a : t A) (b : t B) : result (t A * t B) :=
  match broadcast_shapes (shape a) (shape b) with
  | Some s =>
      a' <- expand a s ;;
      b' <- expand b s ;;
      Ok (a', b')
  | None => Err RuntimeError
  end.

(** *** Reductions *)

(** [x.min()] over all elements; an empty tensor has no minimum. *)
Definition tmin (x : t R) : result R :=
  match data x with
  | [] => Err RuntimeError
  | a :: l => Ok (fold_left Rmin l a)
  end.

Definition Rsum (l : list R) : R := fold_right Rplus 0%R l.

(** [x.sum(-1)] *)
Definition sum_last (x : t R) : t R :=
  match shape x with
  | [] => x
  | _ :: _ =>
      tabulate (removelast (shape x)) (fun idx =>
        Rsum (map (fun j => get x (idx ++ [j])) (seq 0 (last (shape x) 0))))
  end.

(** *** Views *)

(** A dimension argument may be negative and then counts from the end. *)
Definition norm_dim (n : nat) (d : Z) : result nat :=
  let d' := if (d <? 0)%Z then (d + Z.of_nat n)%Z else d in
  if ((0 <=? d') && (d' <? Z.of_nat n))%Z then Ok (Z.to_nat d')
  else Err IndexError.

(** [x.size(d)] *)
Definition size {A} (x : t A) (d : Z) : result nat :=
  i <- norm_dim (dim x) d ;;
  Ok (nth i (shape x) 0).

(** [x.reshape(s)] of a contiguous tensor: the storage is kept. *)
Definition reshape {A} (x : t A) (s : Shape) : result (t A) :=
  if numel s =? numel (shape x) then Ok (mk s (data x))
  else Err RuntimeError.

(** The shape meant by a [view] argument, in which one entry may be -1. *)
Definition infer_shape (n : nat) (spec : list Z) : result Shape :=
  let known := filter (fun z => negb (z =? -1)%Z) spec in
  let p := fold_right Nat.mul 1 (map Z.to_nat known) in
  match length spec - length known with
  | 0 => if p =? n then Ok (map Z.to_nat spec) else Err RuntimeError
  | 1 =>
      if (p =? 0) || negb (n mod p =? 0) then Err RuntimeError
      else Ok (map (fun z => if (z =? -1)%Z then n / p else Z.to_nat z) spec)
  | _ => Err RuntimeError
  end.

(** [x.view(spec)] *)
Definition view {A} (x : t A) (spec : list Z) : result (t A) :=
  s <- infer_shape (numel (shape x)) spec ;;
  Ok (mk s (data x)).

(** In [x.expand(spec)] an entry -1 keeps the size of that dimension. *)
Definition expand_spec {A} `{Dflt A} (x : t A) (spec : list Z)
  : result (t A) :=
  let off := length spec - dim x in
  let target :=
    map (fun iz => if (snd iz =? -1)%Z then nth (fst iz - off) (shape x) 0
                   else Z.to_nat (snd iz))
        (combine (seq 0 (length spec)) spec) in
  expand x target.

Fixpoint set_nth {A} (i : nat) (a : A) (l : list A) : list A :=
  match l, i with
  | [], _ => []
  | _ :: l', 0 => a :: l'
  | x :: l', S i' => x :: set_nth i' a l'
  end.

Definition swap (i j : nat) (l : list nat) : list nat :=
  set_nth i (nth j l 0) (set_nth j (nth i l 0) l).

(** [x.transpose(d0, d1)] *)
Definition transpose {A} `{Dflt A} (x : t A) (d0 d1 : Z) : result (t A) :=
  i <- norm_dim (dim x) d0 ;;
  j <- norm_dim (dim x) d1 ;;
  Ok (tabulate (swap i j (shape x)) (fun idx => get x (swap i j idx))).

(** [x.squeeze(-1)]: a last dimension of size 1 is removed. *)
Definition squeeze_last {A} (x : t A) : t A :=
  match shape x with
  | [] => x
  | _ :: _ =>
      if last (shape x) 0 =? 1 then mk (removelast (shape x)) (data x)
      else x
  end.

(** [x.unsqueeze(-1)] *)
Definition unsqueeze_last {A} (x : t A) : t A :=
  mk (shape x ++ [1]) (data x).

(** [x[..., :1]] *)
Definition narrow_last_1 {A} `{Dflt A} (x : t A) : result (t A) :=
  match shape x with
  | [] => Err IndexError
  | _ :: _ =>
      Ok (tabulate (removelast (shape x) ++ [Nat.min 1 (last (shape x) 0)])
                   (fun idx => get x idx))
  end.

(** [input.gather(-1, index)] *)
Definition gather_last {A} `{Dflt A} (input : t A) (index : t Z)
  : result (t A) :=
  if negb (dim input =? dim index) then Err RuntimeError
  else if negb (forallb (fun de => fst de <=? snd de)
                 (combine (removelast (shape index))
                          (removelast (shape input))))
  then Err RuntimeError
  else if negb (forallb (fun v : Z =>
                          (0 <=? v)%Z &&
                          (v <? Z.of_nat (last (shape input) 0%nat))%Z)
                        (data index))
  then Err RuntimeError
  else Ok (tabulate (shape index) (fun idx =>
             get input (removelast idx ++ [Z.to_nat (get index idx)]))).

(** [torch.arange(n)] *)
Definition arange (n : nat) : t Z := mk [n] (map Z.of_nat (seq 0 n)).

End Tensor.

Import Tensor.

(** ** Scalars and Python numbers *)

Open Scope R_scope.

Definition ltb_R (x y : R) : bool := if Rlt_dec x y then true else false.
Definition leb_R (x y : R) : bool := if Rle_dec x y then true else false.


(** [torch.sigmoid] *)
Definition sigmoid (x : R) : R := / (1 + exp (- x)).

(** [torch.round]: to the nearest integer, a tie to the even one. *)
Definition round (x : R) : R :=
  let n := Int_part x in
  let f := x - IZR n in
  if Rlt_dec f (1 / 2) then IZR n
  else if Rlt_dec (1 / 2) f then IZR (n + 1)
  else if Z.even n then IZR n else IZR (n + 1).

Definition is_integer (x : R) : bool :=
  if Req_dec_T x (IZR (Int_part x)) then true else false.

(** A real number of Python.  A [float] is [Fin], [PosInf], [NegInf] or
    [NaN], and [int] and [bool] embed in [Fin]; [Frac] is a finite number
    of another type registered as [numbers.Number], a
    [fractions.Fraction] or a [decimal.Decimal], which Python compares
    with a [float] but not with a tensor. *)
Inductive pyfloat : Type :=
| Fin (r : R)
| PosInf
| NegInf
| NaN
| Frac (q : R).

(** A Python object given where a number is expected. *)
Inductive pyobj : Type :=
| PyReal (x : pyfloat)
| PyComplex (re im : R)
| PyOther (repr : string).

(** [isinstance(o, numbers.Number)] *)
Definition isinstance_Number (o : pyobj) : bool :=
  match o with
  | PyReal _ | PyComplex _ _ => true
  | PyOther _ => false
  end.

(** [x >= 0] *)
Definition pyfloat_ge0 (x : pyfloat) : bool :=
  match x with
  | Fin r | Frac r => leb_R 0 r
  | PosInf => true
  | NegInf | NaN => false
  end.

(** [x < math.inf] *)
Definition pyfloat_lt_inf (x : pyfloat) : bool :=
  match x with
  | Fin _ | NegInf | Frac _ => true
  | PosInf | NaN => false
  end.

(** [x < m] for [m] a tensor of one element, read as a condition: neither
    a [Fraction] nor a tensor knows how to compare with the other, and
    Python raises [TypeError]. *)
Definition pyfloat_lt (x : pyfloat) (m : R) : result bool :=
  match x with
  | Fin r => Ok (ltb_R r m)
  | NegInf => Ok true
  | PosInf | NaN => Ok false
  | Frac _ => Err TypeError
  end.

(** ** The state the module reads from torch *)

Record TorchEnv : Type := mkEnv {
  (** the class attribute [Distribution._validate_args], which a
      constructor called with [validate_args=None] takes over *)
  default_validate_args : bool;
  (** [torch._C._get_tracing_state()] is set *)
  tracing : bool
}.

Definition resolve_validate (env : TorchEnv) (validate_args : option bool)
  : bool :=
  match validate_args with
  | Some b => b
  | None => default_validate_args env
  end.

(** [constraint.check(param).all()] *)
Definition all_elements {A} (check : A -> bool) (x : t A) : bool :=
  forallb check (data x).

Definition positive (x : R) : bool := ltb_R 0 x.
Definition unit_interval (x : R) : bool := leb_R 0 x && leb_R x 1.
Definition nonnegative_integer (x : R) : bool := is_integer x && leb_R 0 x.

(** Two sizes that broadcast against each other. *)
Definition compat (ij : nat * nat) : bool :=
  (fst ij =? 1)%nat || (snd ij =? 1)%nat || (fst ij =? snd ij)%nat.

(** [Distribution._validate_sample(value)]: the event dimensions of
    [value] are the event shape, the remaining ones broadcast against the
    batch shape, and every element lies in the support. *)
Definition validate_sample {A} (batch_shape event_shape : Shape)
    (check : A -> bool) (value : t A) : result unit :=
  let actual := shape value in
  let event_dim_start := (length actual - length event_shape)%nat in
  _ <- require (if list_eq_dec Nat.eq_dec
                     (skipn event_dim_start actual) event_shape
                then true else false) ;;
  _ <- require (forallb compat
                  (combine (rev actual) (rev (batch_shape ++ event_shape)))) ;;
  require (all_elements check value).

(** ** The objects of the module *)

Module Beta.
Record obj : Type := mk {
  concentration1 : t R;
  concentration0 : t R;
  _validate_args : bool
}.
End Beta.

Module Gamma.
Record obj : Type := mk {
  concentration : t R;
  rate : t R;
  _validate_args : bool
}.
End Gamma.

Module Dirichlet.
Record obj : Type := mk {
  concentration : t R;
  _validate_args : bool
}.
End Dirichlet.

Module Binomial.
Record obj : Type := mk {
  total_count : t R;
  (** the entries ['probs'] and ['logits'] of [self.__dict__] *)
  dict_probs : option (t R);
  dict_logits : option (t R);
  approx_sample_thresh : pyfloat;
  _batch_shape : Shape;
  _validate_args : bool
}.
End Binomial.

Module Categorical.
Record obj : Type := mk {
  (** [id(self)] *)
  id : nat;
  logits : t R;
  _validate_args : bool
}.
End Categorical.

Module Geometric.
Record obj : Type := mk {
  logits : t R;
  _validate_args : bool
}.
End Geometric.

Module Uniform.
Record obj : Type := mk {
  _unbroadcasted_low : t R;
  _unbroadcasted_high : t R;
  low : t R;
  high : t R;
  _batch_shape : Shape;
  _validate_args : bool
}.
End Uniform.

(** A distribution object, as [other] in [conjugate_update(self, other)];
    [Foreign] is an object of any class this module does not define. *)
Inductive Dist : Type :=
| DBeta (d : Beta.obj)
| DGamma (d : Gamma.obj)
| DDirichlet (d : Dirichlet.obj)
| DBinomial (d : Binomial.obj)
| DCategorical (d : Categorical.obj)
| DGeometric (d : Geometric.obj)
| DUniform (d : Uniform.obj)
| DIndependent (base_dist : Dist) (reinterpreted_batch_ndims : nat)
| Foreign (class_name : string).

(** An integer tensor with its Python attribute
    [_pyro_categorical_support], when set. *)
Record Value : Type := mkValue {
  tensor : t Z;
  _pyro_categorical_support : option nat
}.

(** ** Constructors inherited from torch *)

(** [torch.distributions.Beta.__init__] on tensor arguments. *)
Definition Beta_init (env : TorchEnv) (concentration1 concentration0 : t R)
    (validate_args : option bool) : result Beta.obj :=
  ' (c1, c0) <- broadcast_tensors concentration1 concentration0 ;;
  let v := resolve_validate env validate_args in
  _ <- (if v
        then require (all_elements positive c1 && all_elements positive c0)
        else Ok tt) ;;
  Ok (Beta.mk c1 c0 v).

(** [torch.distributions.Gamma.__init__] *)
Definition Gamma_init (env : TorchEnv) (concentration rate : t R)
    (validate_args : option bool) : result Gamma.obj :=
  ' (c, r) <- broadcast_tensors concentration rate ;;
  let v := resolve_validate env validate_args in
  _ <- (if v
        then require (all_elements positive c && all_elements positive r)
        else Ok tt) ;;
  Ok (Gamma.mk c r v).

(** [torch.distributions.Dirichlet.__init__] *)
Definition Dirichlet_init (env : TorchEnv) (concentration : t R)
    (validate_args : option bool) : result Dirichlet.obj :=
  _ <- require (negb (dim concentration <? 1)%nat) ;;
  let v := resolve_validate env validate_args in
  _ <- (if v then require (all_elements positive concentration)
        else Ok tt) ;;
  Ok (Dirichlet.mk concentration v).

(** ** Conjugate updates *)

(** The attributes an [Independent] instance answers to, besides the two
    it stores: those set by [Distribution.__init__], the methods and
    properties of [torch.distributions.Independent] and of the mixin, and
    the ones this module adds. *)
Definition Independent_class_attributes : list string :=
  [ "_batch_shape"; "_event_shape"; "_validate_args"; "support";
    "conjugate_update"; "arg_constraints"; "batch_shape"; "event_shape";
    "has_rsample"; "has_enumerate_support"; "mean"; "variance"; "stddev";
    "sample"; "rsample"; "sample_n"; "log_prob"; "cdf"; "icdf"; "entropy";
    "perplexity"; "enumerate_support"; "expand"; "shape"; "to_event";
    "independent"; "mask"; "expand_by"; "set_default_validate_args";
    "_extended_shape";
    "_validate_sample"; "_get_checked_instance" ]%string.

Inductive attr : Type :=
| AttrInt (n : Z)
| AttrDist (d : Dist)
| AttrOther (name : string).

(** [getattr(self, name)] for [self] an [Independent]. *)
Definition Independent_getattr (base_dist : Dist)
    (reinterpreted_batch_ndims : nat) (name : string) : result attr :=
  if String.eqb name "base_dist" then Ok (AttrDist base_dist)
  else if String.eqb name "reinterpreted_batch_ndims"
  then Ok (AttrInt (Z.of_nat reinterpreted_batch_ndims))
  else if existsb (String.eqb name) Independent_class_attributes
  then Ok (AttrOther name)
  else Err AttributeError.

Section ConjugateUpdate.

Variable lgamma : R -> R.
Variable env : TorchEnv.

(** [pyro.distributions.util.sum_rightmost] and
    [TorchDistributionMixin.to_event] are defined outside this module. *)
Variable sum_rightmost : t R -> Z -> result (t R).
Variable to_event : Dist -> Z -> result Dist.
(** What [conjugate_update] does on an instance of a class for which
    this module does not define it. *)
Variable inherited_conjugate_update : Dist -> Dist -> result (Dist * t R).

Definition Beta_log_normalizer (d : Beta.obj) : result (t R) :=
  let x := Beta.concentration1 d in
  let y := Beta.concentration0 d in
  xy <- binop Rplus x y ;;
  a <- binop Rminus (map1 lgamma xy) (map1 lgamma x) ;;
  binop Rminus a (map1 lgamma y).

Definition Beta_conjugate_update (self : Beta.obj) (other : Dist)
  : result (Beta.obj * t R) :=
  match other with
  | DBeta other =>
      s1 <- binop Rplus (Beta.concentration1 self)
                        (Beta.concentration1 other) ;;
      let concentration1 := map1 (fun x => x - 1) s1 in
      s0 <- binop Rplus (Beta.concentration0 self)
                        (Beta.concentration0 other) ;;
      let concentration0 := map1 (fun x => x - 1) s0 in
      updated <- Beta_init env concentration1 concentration0 None ;;
      a <- Beta_log_normalizer self ;;
      b <- Beta_log_normalizer other ;;
      ab <- binop Rplus a b ;;
      c <- Beta_log_normalizer updated ;;
      log_normalizer <- binop Rminus ab c ;;
      Ok (updated, log_normalizer)
  | _ => Err AssertionError
  end.

Definition Dirichlet_log_normalizer (d : Dirichlet.obj) : result (t R) :=
  let c := Dirichlet.concentration d in
  binop Rminus (map1 lgamma (sum_last c)) (sum_last (map1 lgamma c)).

Definition Dirichlet_conjugate_update (self : Dirichlet.obj) (other : Dist)
  : result (Dirichlet.obj * t R) :=
  match other with
  | DDirichlet other =>
      s <- binop Rplus (Dirichlet.concentration self)
                       (Dirichlet.concentration other) ;;
      let concentration := map1 (fun x => x - 1) s in
      updated <- Dirichlet_init env concentration None ;;
      a <- Dirichlet_log_normalizer self ;;
      b <- Dirichlet_log_normalizer other ;;
      ab <- binop Rplus a b ;;
      c <- Dirichlet_log_normalizer updated ;;
      log_normalizer <- binop Rminus ab c ;;
      Ok (updated, log_normalizer)
  | _ => Err AssertionError
  end.

Definition Gamma_log_normalizer (d : Gamma.obj) : result (t R) :=
  let c := Gamma.concentration d in
  a <- binop Rmult (map1 ln (Gamma.rate d)) c ;;
  binop Rminus a (map1 lgamma c).

Definition Gamma_conjugate_update (self : Gamma.obj) (other : Dist)
  : result (Gamma.obj * t R) :=
  match other with
  | DGamma other =>
      s <- binop Rplus (Gamma.concentration self)
                       (Gamma.concentration other) ;;
      let concentration := map1 (fun x => x - 1) s in
      rate <- binop Rplus (Gamma.rate self) (Gamma.rate other) ;;
      updated <- Gamma_init env concentration rate None ;;
      a <- Gamma_log_normalizer self ;;
      b <- Gamma_log_normalizer other ;;
      ab <- binop Rplus a b ;;
      c <- Gamma_log_normalizer updated ;;
      log_normalizer <- binop Rminus ab c ;;
      Ok (updated, log_normalizer)
  | _ => Err AssertionError
  end.

Definition lift {A} (inj : A -> Dist) (r : result (A * t R))
  : result (Dist * t R) :=
  ' (updated, log_normalizer) <- r ;;
  Ok (inj updated, log_normalizer).

(** [self.conjugate_update(other)], dispatched on the class of [self];
    the case of [DIndependent] is [Independent.conjugate_update]. *)
Fixpoint conjugate_update (self other : Dist) : result (Dist * t R) :=
  match self with
  | DBeta d => lift DBeta (Beta_conjugate_update d other)
  | DGamma d => lift DGamma (Gamma_conjugate_update d other)
  | DDirichlet d => lift DDirichlet (Dirichlet_conjugate_update d other)
  | DIndependent base_dist reinterpreted_batch_ndims =>
      a <- Independent_getattr base_dist reinterpreted_batch_ndims
             "reintepreted_batch_ndims" ;;
      match a with
      | AttrInt n =>
          other' <- to_event other (- n)%Z ;;
          ' (updated, log_normalizer) <-
             conjugate_update base_dist other' ;;
          updated <- to_event updated n ;;
          log_normalizer <- sum_rightmost log_normalizer n ;;
          Ok (updated, log_normalizer)
      | _ => Err TypeError
      end
  | _ => inherited_conjugate_update self other
  end.

Definition Independent_conjugate_update (base_dist : Dist)
    (reinterpreted_batch_ndims : nat) (other : Dist)
  : result (Dist * t R) :=
  conjugate_update (DIndependent base_dist reinterpreted_batch_ndims) other.

End ConjugateUpdate.

(** ** Binomial *)

(** [Binomial.__init__]: the two assertions, then
    [torch.distributions.Binomial.__init__]. *)
Definition Binomial_init (env : TorchEnv) (total_count : t R)
    (probs logits : option (t R)) (validate_args : option bool)
    (approx_sample_thresh : pyobj) : result Binomial.obj :=
  _ <- assert (isinstance_Number approx_sample_thresh) ;;
  thresh <- match approx_sample_thresh with
            | PyReal x => _ <- assert (pyfloat_ge0 x) ;; Ok x
            | PyComplex _ _ => Err TypeError
            | PyOther _ => Err AssertionError
            end ;;
  let v := resolve_validate env validate_args in
  match probs, logits with
  | Some p, None =>
      ' (tc, p') <- broadcast_tensors total_count p ;;
      _ <- (if v
            then require (all_elements nonnegative_integer tc
                          && all_elements unit_interval p')
            else Ok tt) ;;
      Ok (Binomial.mk tc (Some p') None thresh (shape p') v)
  | None, Some l =>
      ' (tc, l') <- broadcast_tensors total_count l ;;
      _ <- (if v then require (all_elements nonnegative_integer tc)
            else Ok tt) ;;
      Ok (Binomial.mk tc None (Some l') thresh (shape l') v)
  | _, _ => Err ValueError
  end.

(** The lazy property [self.probs]: the stored tensor, or else the
    sigmoid of the logits.  The constructor stores one of the two, so the
    last case is not met on an object it built. *)
Definition Binomial_probs (self : Binomial.obj) : t R :=
  match Binomial.dict_probs self, Binomial.dict_logits self with
  | Some p, _ => p
  | None, Some l => map1 sigmoid l
  | None, None => mk [] []
  end.

Definition expand_entry (x : option (t R)) (batch_shape : Shape)
  : result (option (t R)) :=
  match x with
  | Some p => p' <- expand p batch_shape ;; Ok (Some p')
  | None => Ok None
  end.

(** [Binomial.expand(batch_shape)] *)
Definition Binomial_expand (self : Binomial.obj) (batch_shape : Shape)
  : result Binomial.obj :=
  total_count <- expand (Binomial.total_count self) batch_shape ;;
  probs <- expand_entry (Binomial.dict_probs self) batch_shape ;;
  logits <- expand_entry (Binomial.dict_logits self) batch_shape ;;
  Ok (Binomial.mk total_count probs logits
        (Binomial.approx_sample_thresh self)
        batch_shape
        (Binomial._validate_args self)).

(** The random generators [sample] draws from. *)
Record Rng : Type := mkRng {
  (** the draw of [torch.poisson(rates)] on rates it accepts *)
  poisson : t R -> t R;
  (** [torch.distributions.Binomial.sample(self, sample_shape)], the
      exact sampler, which raises on parameters it does not accept *)
  binomial : Binomial.obj -> Shape -> result (t R)
}.

(** [torch.poisson(rates)]: a negative rate is refused. *)
Definition torch_poisson (rng : Rng) (rates : t R) : result (t R) :=
  if all_elements (leb_R 0) rates then Ok (poisson rng rates)
  else Err RuntimeError.

Inductive sample_path : Type := Approximate | Exact.

(** The body of the approximate branch of [Binomial.sample]. *)
Definition Binomial_sample_approx (rng : Rng) (self : Binomial.obj)
    (sample_shape : Shape) : result (t R) :=
  let total_count := Binomial.total_count self in
  let shape := sample_shape ++ Binomial._batch_shape self in
  let p := Binomial_probs self in
  let q := map1 (fun x => 1 - x) (Binomial_probs self) in
  m <- binop Rmin p q ;;
  mean <- binop Rmult m total_count ;;
  pq <- binop Rmult p q ;;
  variance <- binop Rmult pq total_count ;;
  d <- binop Rminus mean variance ;;
  let shift := map1 round d in
  rates <- expand variance shape ;;
  result <- torch_poisson rng rates ;;
  rs <- binop Rplus result shift ;;
  result <- binop Rmin rs total_count ;;
  c <- binop ltb_R p q ;;
  r' <- binop Rminus total_count result ;;
  where_ c result r'.

(** [Binomial.sample(sample_shape)], with the branch it took. *)
Definition Binomial_sample (rng : Rng) (self : Binomial.obj)
    (sample_shape : Shape) : result (sample_path * t R) :=
  if pyfloat_lt_inf (Binomial.approx_sample_thresh self) then
    m <- tmin (Binomial.total_count self) ;;
    below <- pyfloat_lt (Binomial.approx_sample_thresh self) m ;;
    if below then
      x <- Binomial_sample_approx rng self sample_shape ;;
      Ok (Approximate, x)
    else x <- binomial rng self sample_shape ;; Ok (Exact, x)
  else x <- binomial rng self sample_shape ;; Ok (Exact, x).

(** ** Categorical *)

Definition Categorical_batch_shape (self : Categorical.obj) : Shape :=
  removelast (shape (Categorical.logits self)).

Definition Categorical_num_events (self : Categorical.obj) : nat :=
  last (shape (Categorical.logits self)) 0%nat.

Definition integer_interval (lo hi : Z) (v : Z) : bool :=
  ((lo <=? v) && (v <=? hi))%Z.

Definition Categorical_validate_sample (self : Categorical.obj) (value : t Z)
  : result unit :=
  validate_sample (Categorical_batch_shape self) []
    (integer_interval 0 (Z.of_nat (Categorical_num_events self) - 1)) value.

(** [torch.distributions.Categorical.log_prob], the gather-based one. *)
Definition torch_Categorical_log_prob (self : Categorical.obj) (value : t Z)
  : result (t R) :=
  _ <- (if Categorical._validate_args self
        then Categorical_validate_sample self value else Ok tt) ;;
  let value := unsqueeze_last value in
  ' (value, log_pmf) <- broadcast_tensors value (Categorical.logits self) ;;
  value <- narrow_last_1 value ;;
  g <- gather_last log_pmf value ;;
  Ok (squeeze_last g).

(** [torch.distributions.Categorical.enumerate_support] *)
Definition torch_Categorical_enumerate_support (self : Categorical.obj)
    (expand : bool) : result (t Z) :=
  let num_events := Categorical_num_events self in
  let batch_shape := Categorical_batch_shape self in
  values <- view (arange num_events)
                 ((-1)%Z :: repeat 1%Z (length batch_shape)) ;;
  if expand
  then expand_spec values ((-1)%Z :: map Z.of_nat batch_shape)
  else Ok values.

(** [Categorical.log_prob(value)] *)
Definition Categorical_log_prob (env : TorchEnv) (self : Categorical.obj)
    (value : Value) : result (t R) :=
  if match _pyro_categorical_support value with
     | Some i => (i =? Categorical.id self)%nat
     | None => false
     end
  then
    let v := tensor value in
    _ <- (if negb (tracing env) then
            _ <- (if Categorical._validate_args self
                  then Categorical_validate_sample self v else Ok tt) ;;
            n <- size v 0 ;;
            k <- size (Categorical.logits self) (-1) ;;
            assert (n =? k)%nat
          else Ok tt) ;;
    let logits := Categorical.logits self in
    logits <- (if (dim logits <=? dim v)%nat
               then reshape logits
                      (repeat 1%nat (1 + dim v - dim logits) ++ shape logits)
               else Ok logits) ;;
    _ <- (if negb (tracing env) then
            s <- size logits (-1 - Z.of_nat (dim v)) ;;
            assert (s =? 1)%nat
          else Ok tt) ;;
    x <- transpose logits (-1 - Z.of_nat (dim v)) (-1) ;;
    Ok (squeeze_last x)
  else torch_Categorical_log_prob self (tensor value).

(** [Categorical.enumerate_support(expand)] *)
Definition Categorical_enumerate_support (self : Categorical.obj)
    (expand : bool) : result Value :=
  result <- torch_Categorical_enumerate_support self expand ;;
  Ok (mkValue result
        (if negb expand then Some (Categorical.id self) else None)).

(** ** Geometric *)


(** ** Uniform *)

(** [Uniform.__init__]: the bounds are kept as given, then
    [torch.distributions.Uniform.__init__] broadcasts them. *)
Definition Uniform_init (env : TorchEnv) (low high : t R)
    (validate_args : option bool) : result Uniform.obj :=
  ' (l, h) <- broadcast_tensors low high ;;
  let v := resolve_validate env validate_args in
  _ <- (if v
        then (b <- binop ltb_R l h ;; require (all_elements (fun x : bool => x) b))
        else Ok tt) ;;
  Ok (Uniform.mk low high l h (shape l) v).

(** [Uniform.expand(batch_shape)] *)
Definition Uniform_expand (self : Uniform.obj) (batch_shape : Shape)
  : result Uniform.obj :=
  low <- expand (Uniform.low self) batch_shape ;;
  high <- expand (Uniform.high self) batch_shape ;;
  Ok (Uniform.mk (Uniform._unbroadcasted_low self)
                 (Uniform._unbroadcasted_high self)
                 low high batch_shape (Uniform._validate_args self)).

(** [constraints.interval(lower_bound, upper_bound)] *)
Record interval : Type := mkInterval {
  lower_bound : t R;
  upper_bound : t R
}.

(** The property [Uniform.support]. *)
Definition Uniform_support (self : Uniform.obj) : interval :=
  mkInterval (Uniform._unbroadcasted_low self)
             (Uniform._unbroadcasted_high self).

Close Scope R_scope.


(** ** Loading the distributions of torch *)

(** A class found in [torch.distributions.__dict__], by what the loop at
    the end of the module asks of it. *)
Record torch_class : Type := mkTorchClass {
  (** [_Dist.__module__] *)
  torch_module : string;
  (** [_Dist.__name__] *)
  torch_name : string;
  (** [issubclass(_Dist, torch.distributions.Distribution)] *)
  subclass_of_Distribution : bool;
  (** [_Dist is torch.distributions.Distribution] *)
  is_Distribution : bool
}.

(** A value of [torch.distributions.__dict__]: a class, or anything
    else (a submodule, a function, a string), of which it matters only
    whether its [__doc__] can be assigned. *)
Inductive torch_value : Type :=
| TorchType (c : torch_class)
| TorchOther (doc_writable : bool).

Inductive base_class : Type :=
| BaseTorch (c : torch_class)
| TorchDistributionMixin.

(** A class of this module. *)
Record pyro_class : Type := mkPyroClass {
  class_name : string;
  class_bases : list base_class;
  class_module : string;
  class_doc : option string
}.

(** A value bound in the namespace of this module: a class of the
    module; a string, as the loop binds to [_name]; a list of strings, as
    [__all__]; an object of torch, as the loop binds to [_Dist]; or
    another object, of which the loop could only ask whether its
    [__doc__] can be assigned (that of a module or a function can). *)
Inductive module_value : Type :=
| Class (c : pyro_class)
| Str (s : string)
| ListOf (l : list string)
| FromTorch (v : torch_value)
| Object (doc_writable : bool).

(** The namespace of the module, which is what [locals()] returns at the
    top level, in the order of insertion.  Apart from the class that the
    loop holds in [_PyroDist], no object is bound under two names. *)
Definition namespace : Type := list (string * module_value).

(** The variables that the loop binds in this namespace. *)
Definition loop_variables : list string :=
  [ "_name"; "_Dist"; "_PyroDist"; "__all__" ]%string.

Fixpoint lookup {V} (ns : list (string * V)) (name : string) : option V :=
  match ns with
  | [] => None
  | (k, v) :: rest => if String.eqb k name then Some v else lookup rest name
  end.

(** [ns[name] = v] *)
Fixpoint assign {V} (ns : list (string * V)) (name : string) (v : V)
  : list (string * V) :=
  match ns with
  | [] => [(name, v)]
  | (k, w) :: rest =>
      if String.eqb k name then (k, v) :: rest
      else (k, w) :: assign rest name v
  end.

(** [__name__] of this module. *)
Definition this_module : string := "pyro.distributions.torch".

Definition newline : string := String (Ascii.ascii_of_nat 10) EmptyString.

(** The docstring given to every class, formatted with
    [_Dist.__module__] and [_Dist.__name__]. *)
Definition wrap_doc (D : torch_class) : string :=
  (newline ++ "    Wraps :class:`" ++ torch_module D ++ "." ++ torch_name D
   ++ "` with" ++ newline
   ++ "    :class:`~pyro.distributions.torch_distribution.TorchDistributionMixin`."
   ++ newline ++ "    ")%string.

(** [obj.__doc__ = doc]: the docstring of a class of the module is
    replaced; that of a string or of a list cannot be assigned; of the
    other objects the docstring is not kept. *)
Definition set_doc (obj : module_value) (doc : string)
  : result module_value :=
  match obj with
  | Class c =>
      Ok (Class (mkPyroClass (class_name c) (class_bases c) (class_module c)
                             (Some doc)))
  | Str _ | ListOf _ => Err AttributeError
  | FromTorch (TorchType _) => Ok obj
  | FromTorch (TorchOther w) | Object w =>
      if w then Ok obj else Err AttributeError
  end.

(** [__all__.append(name)]; line 211 has bound [__all__], to a list. *)
Definition append_all (locals : namespace) (name : string)
  : result namespace :=
  match lookup locals "__all__" with
  | Some (ListOf l) => Ok (assign locals "__all__" (ListOf (l ++ [name])))
  | _ => Err AttributeError
  end.

(** One turn of the loop over [torch.distributions.__dict__.items()], on
    the namespace of the module.  The turn binds [_name] and [_Dist]
    before anything else, and [_PyroDist] to the class it finds or
    creates; assigning the docstring of that class shows under every
    name it is bound to. *)
Definition load_item (locals : namespace) (item : string * torch_value)
  : result namespace :=
  let '(_name, _Dist) := item in
  let locals := assign locals "_name" (Str _name) in
  let locals := assign locals "_Dist" (FromTorch _Dist) in
  match _Dist with
  | TorchOther _ => Ok locals
  | TorchType D =>
      if negb (subclass_of_Distribution D) then Ok locals
      else if is_Distribution D then Ok locals
      else
        let '(_PyroDist, locals) :=
          match lookup locals _name with
          | Some v => (v, assign locals "_PyroDist" v)
          | None =>
              let c := Class (mkPyroClass _name
                                [BaseTorch D; TorchDistributionMixin]
                                this_module None) in
              (c, assign (assign locals "_PyroDist" c) _name c)
          end in
        _PyroDist <- set_doc _PyroDist (wrap_doc D) ;;
        let locals := assign locals "_PyroDist" _PyroDist in
        let locals := assign locals _name _PyroDist in
        append_all locals _name
  end.

Fixpoint load_items (items : list (string * torch_value))
    (locals : namespace) : result namespace :=
  match items with
  | [] => Ok locals
  | item :: rest => locals <- load_item locals item ;; load_items rest locals
  end.

(** Lines 211 to 232: [__all__ = []], then the loop. *)
Definition load_distributions
    (torch_distributions : list (string * torch_value))
    (locals : namespace) : result namespace :=
  load_items torch_distributions (assign locals "__all__" (ListOf [])).

(** ** Independent and the validation flag *)

(** [Independent] has no [_validate_args] of its own: the property reads
    and writes the attribute of [base_dist], an object that the wrapper
    shares with whoever else holds it.  Objects are kept in a store and
    named by their address; an instance of any other class holds the flag
    itself. *)
Inductive instance : Type :=
| Plain (_validate_args : bool)
| IndependentOf (base_dist : nat) (reinterpreted_batch_ndims : nat).

Definition store : Type := list instance.

(** [self._validate_args], with the depth of recursion that Python has
    left; running out of it raises [RecursionError], a [RuntimeError]. *)
Fixpoint get_validate_args (depth : nat) (h : store) (self : nat)
  : result bool :=
  match depth with
  | 0 => Err RuntimeError
  | S depth =>
      match nth_error h self with
      | Some (Plain b) => Ok b
      | Some (IndependentOf base_dist _) =>
          get_validate_args depth h base_dist
      | None => Err AttributeError
      end
  end.

(** [self._validate_args = value] *)
Fixpoint set_validate_args (depth : nat) (h : store) (self : nat)
    (value : bool) : result store :=
  match depth with
  | 0 => Err RuntimeError
  | S depth =>
      match nth_error h self with
      | Some (Plain _) => Ok (set_nth self (Plain value) h)
      | Some (IndependentOf base_dist _) =>
          set_validate_args depth h base_dist value
      | None => Err AttributeError
      end
  end.

(** ** Vocabulary of the statements *)

(** [x] has shape [s], as many stored elements as [s] asks for, and the
    element [g idx] at every index [idx] of [s]. *)
Definition entries {A} `{Dflt A} (x : t A) (s : Shape) (g : Index -> A)
  : Prop :=
  shape x = s /\ wf x /\ forall idx, valid_index s idx -> get x idx = g idx.

(** *** Beta *)

Definition Beta_batch_shape (d : Beta.obj) : Shape :=
  shape (Beta.concentration1 d).

(** The two concentrations of a Beta have been broadcast to one shape. *)
Definition Beta_wf (d : Beta.obj) : Prop :=
  wf (Beta.concentration1 d) /\ wf (Beta.concentration0 d) /\
  shape (Beta.concentration0 d) = Beta_batch_shape d.

(** The parameters satisfy the constraints the family declares. *)
Definition Beta_valid (d : Beta.obj) : Prop :=
  Beta_wf d /\
  Forall (fun x => 0 < x)%R (data (Beta.concentration1 d)) /\
  Forall (fun x => 0 < x)%R (data (Beta.concentration0 d)).

(** logNorm(d) = lgamma(c1+c0) - lgamma(c1) - lgamma(c0), on one batch
    element. *)
Definition Beta_logNorm (lgamma : R -> R) (c1 c0 : R) : R :=
  (lgamma (c1 + c0) - lgamma c1 - lgamma c0)%R.

(** *** Gamma *)

Definition Gamma_batch_shape (d : Gamma.obj) : Shape :=
  shape (Gamma.concentration d).

Definition Gamma_wf (d : Gamma.obj) : Prop :=
  wf (Gamma.concentration d) /\ wf (Gamma.rate d) /\
  shape (Gamma.rate d) = Gamma_batch_shape d.

Definition Gamma_valid (d : Gamma.obj) : Prop :=
  Gamma_wf d /\
  Forall (fun x => 0 < x)%R (data (Gamma.concentration d)) /\
  Forall (fun x => 0 < x)%R (data (Gamma.rate d)).

(** logNorm(d) = concentration * log(rate) - lgamma(concentration), on one
    batch element. *)
Definition Gamma_logNorm (lgamma : R -> R) (concentration rate : R) : R :=
  (concentration * ln rate - lgamma concentration)%R.

(** *** Dirichlet *)

Definition Dirichlet_batch_shape (d : Dirichlet.obj) : Shape :=
  removelast (shape (Dirichlet.concentration d)).

(** The length of the last axis of the concentration. *)
Definition Dirichlet_event_size (d : Dirichlet.obj) : nat :=
  last (shape (Dirichlet.concentration d)) 0.

Definition Dirichlet_wf (d : Dirichlet.obj) : Prop :=
  wf (Dirichlet.concentration d) /\ shape (Dirichlet.concentration d) <> [].

Definition Dirichlet_valid (d : Dirichlet.obj) : Prop :=
  Dirichlet_wf d /\
  Forall (fun x => 0 < x)%R (data (Dirichlet.concentration d)).

(** The concentration vector of the batch element [idx]. *)
Definition Dirichlet_vector (d : Dirichlet.obj) (idx : Index) : list R :=
  map (fun j => get (Dirichlet.concentration d) (idx ++ [j]))
      (seq 0 (Dirichlet_event_size d)).

(** logNorm(d) = lgamma(sum(c)) - sum(lgamma(c)), on one concentration
    vector. *)
Definition Dirichlet_logNorm (lgamma : R -> R) (c : list R) : R :=
  (lgamma (Rsum c) - Rsum (map lgamma c))%R.

(** *** Contracts *)

(** [isinstance(other, Beta)], and likewise for the other two families. *)
Definition isinstance_Beta (other : Dist) : bool :=
  match other with DBeta _ => true | _ => false end.
Definition isinstance_Gamma (other : Dist) : bool :=
  match other with DGamma _ => true | _ => false end.
Definition isinstance_Dirichlet (other : Dist) : bool :=
  match other with DDirichlet _ => true | _ => false end.

(** A real number below zero. *)
Definition negative_number (o : pyobj) : Prop :=
  match o with
  | PyReal (Fin r) | PyReal (Frac r) => (r < 0)%R
  | PyReal NegInf => True
  | _ => False
  end.

(** *** Binomial and Uniform *)

Definition entry_wf (x : option (t R)) (batch_shape : Shape) : Prop :=
  match x with
  | Some p => wf p /\ shape p = batch_shape
  | None => True
  end.

(** What [Binomial.__init__] establishes and [Binomial.expand] keeps. *)
Definition Binomial_wf (d : Binomial.obj) : Prop :=
  wf (Binomial.total_count d) /\
  shape (Binomial.total_count d) = Binomial._batch_shape d /\
  entry_wf (Binomial.dict_probs d) (Binomial._batch_shape d) /\
  entry_wf (Binomial.dict_logits d) (Binomial._batch_shape d) /\
  (Binomial.dict_probs d <> None \/ Binomial.dict_logits d <> None) /\
  pyfloat_ge0 (Binomial.approx_sample_thresh d) = true.

Definition Uniform_wf (d : Uniform.obj) : Prop :=
  wf (Uniform.low d) /\ wf (Uniform.high d) /\
  shape (Uniform.low d) = Uniform._batch_shape d /\
  shape (Uniform.high d) = Uniform._batch_shape d.

(** *** Sampling *)

(** [m] is the least element of [l]. *)
Definition is_min (m : R) (l : list R) : Prop :=
  In m l /\ Forall (fun y => m <= y)%R l.

(** A Poisson draw has the shape of its rates and natural numbers as
    elements. *)
Definition Rng_wf (rng : Rng) : Prop :=
  forall rates, wf rates ->
    wf (poisson rng rates) /\
    shape (poisson rng rates) = shape rates /\
    Forall (fun x => exists k : nat, x = INR k) (data (poisson rng rates)).

(** What the approximate branch computes on one element, in the order of
    the source: [prob] and [total_count] of the batch element, [X] the
    Poisson draw. *)
Definition approx_element (prob total_count X : R) : R :=
  let p := prob in
  let q := (1 - prob)%R in
  let mean := (Rmin p q * total_count)%R in
  let variance := (p * q * total_count)%R in
  let shift := round (mean - variance) in
  let result := Rmin (X + shift) total_count in
  if ltb_R p q then result else (total_count - result)%R.

(** The same element by the six steps of the algorithm:
    p = min(prob, 1-prob), q = 1-p, mean = p*total_count,
    variance = p*q*total_count, shift = round(mean-variance),
    X ~ Poisson(variance), result = min(X+shift, total_count), reflected
    back when prob >= q. *)
Definition clamped_poisson_variance (prob total_count : R) : R :=
  let p := Rmin prob (1 - prob) in
  let q := (1 - p)%R in
  (p * q * total_count)%R.

Definition clamped_poisson (prob total_count X : R) : R :=
  let p := Rmin prob (1 - prob) in
  let q := (1 - p)%R in
  let mean := (p * total_count)%R in
  let variance := (p * q * total_count)%R in
  let shift := round (mean - variance) in
  let result := Rmin (X + shift) total_count in
  if ltb_R prob q then result else (total_count - result)%R.

(** *** Geometric *)


(** *** Categorical *)

(** The logits have a last axis, over at least one category. *)
Definition Categorical_wf (d : Categorical.obj) : Prop :=
  wf (Categorical.logits d) /\
  shape (Categorical.logits d) <> [] /\
  0 < Categorical_num_events d.

(** The enumerated support of [k] categories under [m] batch dimensions:
    [arange(k)] in shape (k, 1, ..., 1). *)
Definition support_tensor (k m : nat) : t Z :=
  mk (k :: repeat 1 m) (map Z.of_nat (seq 0 k)).

(** The table of shape (k, batch) that both paths of [log_prob] build on
    the enumerated support, before the trailing axis is squeezed. *)
Definition support_log_prob (d : Categorical.obj) : t R :=
  squeeze_last
    (tabulate (Categorical_num_events d :: Categorical_batch_shape d ++ [1])
       (fun idx => get (Categorical.logits d)
                       (removelast (tl idx) ++ [hd 0 idx]))).

(** The entry of the log-probability table at [idx = k :: b]: the logit
    of category [k] in batch element [b]. *)
Definition logit_at (d : Categorical.obj) (idx : Index) : R :=
  get (Categorical.logits d) (tl idx ++ [hd 0 idx]).

(** The index at which the logits are read for the entry [idx] of the
    table of log-probabilities, when the category stands at position [p]
    of [idx]: the category goes last, and position [p], an axis of size 1
    of the logits, is read at 0. *)
Definition enum_index (p : nat) (idx : Index) : Index :=
  firstn p idx ++ 0 :: skipn (S p) idx ++ [nth p idx 0].

(** The bounds kept from the constructor describe, once broadcast, the
    bounds stored for the batch. *)
Definition Uniform_coherent (d : Uniform.obj) : Prop :=
  expandable (shape (Uniform._unbroadcasted_low d)) (Uniform._batch_shape d)
    = true /\
  expandable (shape (Uniform._unbroadcasted_high d)) (Uniform._batch_shape d)
    = true /\
  entries (Uniform.low d) (Uniform._batch_shape d)
    (fun idx => get (Uniform._unbroadcasted_low d)
                    (bidx (shape (Uniform._unbroadcasted_low d)) idx)) /\
  entries (Uniform.high d) (Uniform._batch_shape d)
    (fun idx => get (Uniform._unbroadcasted_high d)
                    (bidx (shape (Uniform._unbroadcasted_high d)) idx)).

(** *** Densities *)

(** The logarithm of the density, at one batch element, that
    [torch.distributions.Beta.log_prob], [Gamma.log_prob] and
    [Dirichlet.log_prob] evaluate: the kernel of the family plus the
    logarithm of its normalising constant. *)
Definition Beta_log_density (lgamma : R -> R) (c1 c0 x : R) : R :=
  ((c1 - 1) * ln x + (c0 - 1) * ln (1 - x)
   + (lgamma (c1 + c0) - lgamma c1 - lgamma c0))%R.

Definition Gamma_log_density (lgamma : R -> R) (concentration rate x : R)
  : R :=
  (concentration * ln rate + (concentration - 1) * ln x - rate * x
   - lgamma concentration)%R.

Definition Dirichlet_log_density (lgamma : R -> R) (c x : list R) : R :=
  (Rsum (map (fun cx => (fst cx - 1) * ln (snd cx)) (combine c x))
   + (lgamma (Rsum c) - Rsum (map lgamma c)))%R.

(** *** Loading *)

(** The entries of [torch.distributions.__dict__] that the loop wraps:
    the classes below [Distribution], that class itself left out. *)
Definition wrapped (item : string * torch_value) : bool :=
  match snd item with
  | TorchType D => subclass_of_Distribution D && negb (is_Distribution D)
  | TorchOther _ => false
  end.

(** The class that the loop creates for the class [D] found under
    [name]. *)
Definition generated_class (name : string) (D : torch_class) : pyro_class :=
  mkPyroClass name [BaseTorch D; TorchDistributionMixin] this_module
              (Some (wrap_doc D)).

(** What is bound to [name] after the turn of the loop that wraps the
    class [D] found under [name], from what was bound before: a class of
    the module is kept and has its docstring replaced, another object is
    kept, and where nothing was bound a class is created. *)
Definition wrapped_binding (before : option module_value) (name : string)
    (D : torch_class) : module_value :=
  match before with
  | Some (Class c) =>
      Class (mkPyroClass (class_name c) (class_bases c) (class_module c)
                         (Some (wrap_doc D)))
  | Some v => v
  | None => Class (generated_class name D)
  end.

(** The docstring of what is bound, if anything, can be assigned. *)
Definition doc_assignable (before : option module_value) : Prop :=
  match before with
  | Some v => exists v', set_doc v EmptyString = Ok v'
  | None => True
  end.

(** The last entry that the loop wraps, if there is one. *)
Definition last_wrapped (items : list (string * torch_value))
  : option (string * torch_value) :=
  last (map Some (filter wrapped items)) None.

(** *** Stores *)

(** Every wrapper was built after its base: the store has no cycle. *)
Definition store_wf (h : store) : Prop :=
  forall self base_dist n,
    nth_error h self = Some (IndependentOf base_dist n) -> base_dist < self.

(** The object that holds the flag that [self] reads: [self], or the
    innermost [base_dist]. *)
Fixpoint flag_holder (depth : nat) (h : store) (self : nat) : option nat :=
  match depth with
  | 0 => None
  | S depth =>
      match nth_error h self with
      | Some (Plain _) => Some self
      | Some (IndependentOf base_dist _) => flag_holder depth h base_dist
      | None => None
      end
  end.

(** ** Sample inputs *)

(** The log-gamma function at the positive integers, ln((n-1)!). *)
Definition lgamma_int (x : R) : R :=
  ln (INR (fact (Z.to_nat (Int_part x) - 1))).

Definition env_validating : TorchEnv := mkEnv true false.
Definition env_lenient : TorchEnv := mkEnv false false.

(** Beta([2,3], [1,2]) and Beta(2, 3). *)
Definition beta_batch : Beta.obj :=
  Beta.mk (of_list [2; 3]%R) (of_list [1; 2]%R) false.
Definition beta_scalar : Beta.obj :=
  Beta.mk (scalar 2%R) (scalar 3%R) false.

(** Beta([1,1], [1,1]) and Beta([1,1,1], [1,1,1]). *)
Definition beta_two : Beta.obj :=
  Beta.mk (of_list [1; 1]%R) (of_list [1; 1]%R) false.
Definition beta_three : Beta.obj :=
  Beta.mk (of_list [1; 1; 1]%R) (of_list [1; 1; 1]%R) false.

(** Beta(1/2, 1) *)
Definition beta_half : Beta.obj :=
  Beta.mk (scalar (1 / 2)%R) (scalar 1%R) false.

(** Gamma([2,3], [1,1]) and Gamma([1,1], [2,2]). *)
Definition gamma_a : Gamma.obj :=
  Gamma.mk (of_list [2; 3]%R) (of_list [1; 1]%R) false.
Definition gamma_b : Gamma.obj :=
  Gamma.mk (of_list [1; 1]%R) (of_list [2; 2]%R) false.

(** Gamma(1/2, 1) *)
Definition gamma_half : Gamma.obj :=
  Gamma.mk (scalar (1 / 2)%R) (scalar 1%R) false.

(** Dirichlet([[2,3],[4,5]]), Dirichlet([1,2]), Dirichlet([1,1]),
    Dirichlet([1,1,1]) and Dirichlet([1/2,1]). *)
Definition dirichlet_batch : Dirichlet.obj :=
  Dirichlet.mk (mk [2; 2] [2; 3; 4; 5]%R) false.
Definition dirichlet_vec : Dirichlet.obj :=
  Dirichlet.mk (of_list [1; 2]%R) false.
Definition dirichlet_two : Dirichlet.obj :=
  Dirichlet.mk (of_list [1; 1]%R) false.
Definition dirichlet_three : Dirichlet.obj :=
  Dirichlet.mk (of_list [1; 1; 1]%R) false.
Definition dirichlet_half : Dirichlet.obj :=
  Dirichlet.mk (of_list [1 / 2; 1]%R) false.

(** Binomial(total_count=[10,20], probs=[1/4,3/4]) with thresholds 5
    and infinity, Uniform(0, [1,2]). *)
Definition binomial_approx : Binomial.obj :=
  Binomial.mk (of_list [10; 20]%R) (Some (of_list [1 / 4; 3 / 4]%R)) None
              (Fin 5) [2] false.
Definition uniform_sample : Uniform.obj :=
  Uniform.mk (scalar 0%R) (of_list [1; 2]%R)
             (mk [2] [0; 0]%R) (of_list [1; 2]%R) [2] false.

(** A generator whose Poisson draws are all 3 and whose exact Binomial
    draws are all 0. *)
Definition rng_const : Rng :=
  mkRng (fun rates => map1 (fun _ => INR 3) rates)
        (fun d sample_shape =>
           Ok (tabulate (sample_shape ++ Binomial._batch_shape d)
                        (fun _ => 0%R))).


(** Categorical(logits=[[1,2,3],[4,5,6]]), with identity 7. *)
Definition categorical_sample : Categorical.obj :=
  Categorical.mk 7 (mk [2; 3] [1; 2; 3; 4; 5; 6]%R) true.


(** A namespace of torch with the classes Beta, Distribution and Poisson,
    a class that is no distribution and a submodule; and a module that
    has bound [__name__], [math] and its own class Beta before the
    loop. *)
Definition torch_Beta : torch_class :=
  mkTorchClass "torch.distributions.beta" "Beta" true false.
Definition torch_Poisson : torch_class :=
  mkTorchClass "torch.distributions.poisson" "Poisson" true false.
Definition torch_sample : list (string * torch_value) :=
  [ ("Beta", TorchType torch_Beta);
    ("Distribution",
     TorchType (mkTorchClass "torch.distributions.distribution"
                             "Distribution" true true));
    ("ExpTransform",
     TorchType (mkTorchClass "torch.distributions.transforms"
                             "ExpTransform" false false));
    ("constraints", TorchOther true);
    ("__all__", TorchOther false);
    ("Poisson", TorchType torch_Poisson) ]%string.
Definition pyro_Beta : pyro_class :=
  mkPyroClass "Beta" [BaseTorch torch_Beta; TorchDistributionMixin]
              this_module None.
Definition locals_sample : namespace :=
  [ ("__name__", Str this_module); ("math", Object true);
    ("Beta", Class pyro_Beta) ]%string.

(** A store with a base at 0, two wrappers of it at 1 and 2, a wrapper of
    the first wrapper at 3, and another base at 4. *)
Definition store_sample : store :=
  [ Plain true; IndependentOf 0 1; IndependentOf 0 2; IndependentOf 1 1;
    Plain true ].
(** * Properties *)

(** ** Row-major indexing *)

Lemma valid_index_length (s : Shape) (idx : Index) :
  valid_index s idx -> length idx = length s.
Proof. intros H. exact (Forall2_length H). Qed.

Lemma ravel_lt (s : Shape) (idx : Index) :
  valid_index s idx -> ravel s idx < numel s.
Proof.
  unfold valid_index. intros H. induction H as [|i d idx s Hid _ IH]; simpl.
  - lia.
  - nia.
Qed.

Lemma unravel_ravel (s : Shape) (idx : Index) :
  valid_index s idx -> unravel s (ravel s idx) = idx.
Proof.
  unfold valid_index. intros H. induction H as [|i d idx s Hid Hrest IH]; simpl.
  - reflexivity.
  - pose proof (ravel_lt Hrest) as Hlt.
    assert (Hne : numel s <> 0) by lia.
    rewrite Nat.div_add_l by exact Hne.
    rewrite (Nat.div_small _ _ Hlt), Nat.add_0_r.
    rewrite Nat.add_comm, Nat.Div0.mod_add, (Nat.mod_small _ _ Hlt).
    now rewrite IH.
Qed.

Lemma unravel_valid (s : Shape) (k : nat) :
  k < numel s -> valid_index s (unravel s k).
Proof.
  unfold valid_index. revert k. induction s as [|d s IH]; intros k Hk; simpl.
  - constructor.
  - simpl in Hk.
    assert (Hne : numel s <> 0) by (intros E; rewrite E in Hk; lia).
    constructor.
    + apply Nat.Div0.div_lt_upper_bound. lia.
    + apply IH. apply Nat.mod_upper_bound. exact Hne.
Qed.

Lemma ravel_unravel (s : Shape) (k : nat) :
  k < numel s -> ravel s (unravel s k) = k.
Proof.
  revert k. induction s as [|d s IH]; intros k Hk; simpl in *.
  - lia.
  - assert (Hne : numel s <> 0) by (intros E; rewrite E in Hk; lia).
    rewrite IH by (apply Nat.mod_upper_bound; exact Hne).
    pose proof (Nat.div_mod_eq k (numel s)). lia.
Qed.

Lemma shape_tabulate {A} (s : Shape) (f : Index -> A) :
  shape (tabulate s f) = s.
Proof. reflexivity. Qed.

Lemma wf_tabulate {A} (s : Shape) (f : Index -> A) : wf (tabulate s f).
Proof. unfold wf, tabulate; simpl. now rewrite length_map, length_seq. Qed.

Lemma get_tabulate {A} `{Dflt A} (s : Shape) (f : Index -> A) (idx : Index) :
  valid_index s idx -> get (tabulate s f) idx = f idx.
Proof.
  intros Hv. unfold get, tabulate; simpl.
  pose proof (ravel_lt Hv) as Hlt.
  rewrite nth_indep with (d' := f (unravel s 0))
    by (now rewrite length_map, length_seq).
  rewrite (map_nth (fun k => f (unravel s k))).
  rewrite seq_nth by exact Hlt. simpl.
  now rewrite unravel_ravel.
Qed.

Lemma tabulate_ext {A} (s : Shape) (f g : Index -> A) :
  (forall idx, valid_index s idx -> f idx = g idx) ->
  tabulate s f = tabulate s g.
Proof.
  intros Hfg. unfold tabulate. f_equal.
  apply map_ext_in. intros k Hk. apply in_seq in Hk.
  apply Hfg, unravel_valid. lia.
Qed.

(** A well-formed tensor is the table of its own entries. *)
Lemma tabulate_get {A} `{Dflt A} (x : t A) :
  wf x -> tabulate (shape x) (get x) = x.
Proof.
  destruct x as [s d]. unfold wf, tabulate, get; simpl. intros Hwf.
  f_equal. apply nth_ext with (d := dflt) (d' := dflt).
  - now rewrite length_map, length_seq.
  - intros n Hn. rewrite length_map, length_seq in Hn.
    rewrite nth_indep with (d' := nth (ravel s (unravel s 0)) d dflt)
      by (now rewrite length_map, length_seq).
    rewrite (map_nth (fun k => nth (ravel s (unravel s k)) d dflt)).
    rewrite seq_nth by exact Hn. simpl.
    now rewrite ravel_unravel.
Qed.

(** Two well-formed tensors of one shape with the same entries are equal. *)
Lemma tensor_ext {A} `{Dflt A} (x y : t A) :
  wf x -> wf y -> shape x = shape y ->
  (forall idx, valid_index (shape x) idx -> get x idx = get y idx) ->
  x = y.
Proof.
  intros Hx Hy Hs Hg.
  rewrite <- (tabulate_get Hx), <- (tabulate_get Hy), <- Hs.
  now apply tabulate_ext.
Qed.

(** ** Broadcasting *)

Lemma Forall2_skipn {A B} (P : A -> B -> Prop) (k : nat) :
  forall l1 l2, Forall2 P l1 l2 -> Forall2 P (skipn k l1) (skipn k l2).
Proof.
  induction k as [|k IH]; intros l1 l2 H; simpl.
  - exact H.
  - destruct H; [constructor | now apply IH].
Qed.

Lemma mask_valid (a s : Shape) (idx : Index) :
  length a = length s ->
  forallb fits (combine a s) = true ->
  valid_index s idx -> valid_index a (mask a idx).
Proof.
  unfold valid_index, mask. intros Hl Hf Hv. revert a Hl Hf.
  induction Hv as [|i d idx s Hid Hv IH]; intros [|x a] Hl Hf;
    simpl in *; try discriminate; constructor.
  - apply andb_prop in Hf as [Hx _]. unfold fits in Hx; simpl in Hx.
    destruct (Nat.eqb_spec x 1); [lia|].
    rewrite orb_false_r in Hx. apply Nat.eqb_eq in Hx. lia.
  - apply andb_prop in Hf as [_ Hf]. apply IH; [lia | exact Hf].
Qed.

Lemma bidx_valid (a s : Shape) (idx : Index) :
  expandable a s = true -> valid_index s idx -> valid_index a (bidx a idx).
Proof.
  unfold expandable. intros He Hv.
  apply andb_prop in He as [Hl Hf]. apply Nat.leb_le in Hl.
  unfold bidx. rewrite (valid_index_length Hv).
  apply (@mask_valid a (skipn (length s - length a) s)).
  - rewrite length_skipn. lia.
  - exact Hf.
  - apply Forall2_skipn. exact Hv.
Qed.

Lemma bidx_id (s : Shape) (idx : Index) :
  valid_index s idx -> bidx s idx = idx.
Proof.
  intros Hv. unfold bidx, mask.
  rewrite (valid_index_length Hv), Nat.sub_diag.
  simpl. unfold valid_index in Hv.
  induction Hv as [|i d idx s Hid _ IH]; simpl; [reflexivity|].
  rewrite IH. destruct (Nat.eqb_spec d 1); [f_equal; lia | reflexivity].
Qed.

Lemma bc_dim_fits (x y d : nat) :
  bc_dim x y = Some d -> fits (x, d) = true /\ fits (y, d) = true.
Proof.
  unfold bc_dim, fits; simpl.
  destruct (Nat.eqb_spec x y) as [->|Hxy].
  - intros [= ->]. now rewrite Nat.eqb_refl.
  - destruct (Nat.eqb_spec x 1) as [->|Hx].
    + intros [= ->]. rewrite Nat.eqb_refl. split; [apply orb_true_r | reflexivity].
    + destruct (Nat.eqb_spec y 1) as [->|Hy]; [|discriminate].
      intros [= ->]. rewrite Nat.eqb_refl. split; [reflexivity | apply orb_true_r].
Qed.

Lemma bc_aligned_fits (a b s : Shape) :
  bc_aligned a b = Some s ->
  length a = length s /\ length b = length s /\
  forallb fits (combine a s) = true /\ forallb fits (combine b s) = true.
Proof.
  revert b s. induction a as [|x a IH]; intros [|y b] s; simpl;
    try discriminate.
  - intros [= <-]. auto.
  - destruct (bc_dim x y) as [d|] eqn:Hd; [|discriminate].
    destruct (bc_aligned a b) as [s'|] eqn:Hs; [|discriminate].
    intros [= <-]. destruct (IH _ _ Hs) as (H1 & H2 & H3 & H4).
    destruct (bc_dim_fits _ _ Hd) as [F1 F2]. simpl.
    rewrite H1, H2, H3, H4, F1, F2. auto.
Qed.

Lemma fits_pad (k : nat) (a s : Shape) :
  length (repeat 1 k ++ a) = length s ->
  forallb fits (combine (repeat 1 k ++ a) s) = true ->
  forallb fits (combine a (skipn k s)) = true.
Proof.
  revert s. induction k as [|k IH]; intros s Hl Hf; simpl in *.
  - exact Hf.
  - destruct s as [|d s]; [discriminate|]. simpl in *.
    apply andb_prop in Hf as [_ Hf]. apply IH; [lia | exact Hf].
Qed.

Lemma pad_expandable (n : nat) (a s : Shape) :
  length a <= n ->
  length (pad n a) = length s ->
  forallb fits (combine (pad n a) s) = true ->
  expandable a s = true.
Proof.
  unfold pad, expandable. intros Hn Hl Hf.
  assert (Hls : length s = n).
  { rewrite <- Hl, length_app, repeat_length. lia. }
  apply andb_true_intro. split; [apply Nat.leb_le; lia|].
  rewrite Hls. now apply fits_pad.
Qed.

Lemma broadcast_expandable (a b s : Shape) :
  broadcast_shapes a b = Some s ->
  expandable a s = true /\ expandable b s = true.
Proof.
  unfold broadcast_shapes. intros H.
  destruct (bc_aligned_fits _ _ H) as (H1 & H2 & H3 & H4).
  split; apply (@pad_expandable (Nat.max (length a) (length b)));
    auto; lia.
Qed.

Lemma bc_aligned_refl (s : Shape) : bc_aligned s s = Some s.
Proof.
  induction s as [|d s IH]; simpl; [reflexivity|].
  unfold bc_dim. now rewrite Nat.eqb_refl, IH.
Qed.

Lemma pad_self (s : Shape) : pad (length s) s = s.
Proof. unfold pad. now rewrite Nat.sub_diag. Qed.

Lemma broadcast_shapes_refl (s : Shape) : broadcast_shapes s s = Some s.
Proof.
  unfold broadcast_shapes. rewrite Nat.max_id, pad_self. apply bc_aligned_refl.
Qed.

Lemma bc_dim_1_r (x : nat) : bc_dim x 1 = Some x.
Proof.
  unfold bc_dim. destruct (Nat.eqb_spec x 1); [reflexivity|]. reflexivity.
Qed.

Lemma bc_dim_1_l (x : nat) : bc_dim 1 x = Some x.
Proof.
  unfold bc_dim. destruct (Nat.eqb_spec 1 x) as [<-|]; reflexivity.
Qed.

Lemma bc_aligned_ones_r (ss b : Shape) :
  bc_aligned (ss ++ b) (repeat 1 (length ss) ++ b) = Some (ss ++ b).
Proof.
  induction ss as [|x ss IH]; simpl; [apply bc_aligned_refl|].
  now rewrite bc_dim_1_r, IH.
Qed.

Lemma bc_aligned_ones_l (ss b : Shape) :
  bc_aligned (repeat 1 (length ss) ++ b) (ss ++ b) = Some (ss ++ b).
Proof.
  induction ss as [|x ss IH]; simpl; [apply bc_aligned_refl|].
  now rewrite bc_dim_1_l, IH.
Qed.

(** A tensor of shape [sample_shape ++ b] against one of shape [b]. *)
Lemma broadcast_shapes_prefix_l (ss b : Shape) :
  broadcast_shapes (ss ++ b) b = Some (ss ++ b).
Proof.
  unfold broadcast_shapes, pad.
  rewrite length_app.
  replace (Nat.max (length ss + length b) (length b))
    with (length ss + length b) by lia.
  rewrite Nat.sub_diag. simpl.
  replace (length ss + length b - length b) with (length ss) by lia.
  apply bc_aligned_ones_r.
Qed.

Lemma broadcast_shapes_prefix_r (ss b : Shape) :
  broadcast_shapes b (ss ++ b) = Some (ss ++ b).
Proof.
  unfold broadcast_shapes, pad.
  rewrite length_app.
  replace (Nat.max (length b) (length ss + length b))
    with (length ss + length b) by lia.
  rewrite Nat.sub_diag. simpl.
  replace (length ss + length b - length b) with (length ss) by lia.
  apply bc_aligned_ones_l.
Qed.

Lemma expandable_prefix (ss b : Shape) : expandable b (ss ++ b) = true.
Proof.
  exact (proj2 (broadcast_expandable _ _ (broadcast_shapes_prefix_l ss b))).
Qed.

Lemma expandable_refl (s : Shape) : expandable s s = true.
Proof. exact (expandable_prefix [] s). Qed.

(** ** Elementwise operations, entry by entry *)

Lemma entries_self {A} `{Dflt A} (x : t A) :
  wf x -> entries x (shape x) (get x).
Proof. intros Hwf. repeat split; auto. Qed.

Lemma entries_ext {A} `{Dflt A} (x : t A) (s : Shape) (g g' : Index -> A) :
  entries x s g ->
  (forall idx, valid_index s idx -> g idx = g' idx) ->
  entries x s g'.
Proof.
  intros (Hs & Hwf & Hg) Hgg'. repeat split; auto.
  intros idx Hv. rewrite Hg by exact Hv. now apply Hgg'.
Qed.

Lemma entries_tabulate {A} `{Dflt A} (s : Shape) (f : Index -> A) :
  entries (tabulate s f) s f.
Proof.
  repeat split; [apply wf_tabulate|].
  intros idx Hv. now apply get_tabulate.
Qed.

Lemma entries_eq {A} `{Dflt A} (x y : t A) (s : Shape) (g : Index -> A) :
  entries x s g -> entries y s g -> x = y.
Proof.
  intros (Hsx & Hwx & Hgx) (Hsy & Hwy & Hgy).
  apply tensor_ext; auto; [congruence|].
  intros idx Hv. rewrite Hsx in Hv. now rewrite Hgx, Hgy.
Qed.

Lemma map1_entries {A B} `{Dflt A} `{Dflt B}
    (f : A -> B) (x : t A) (s : Shape) (g : Index -> A) :
  entries x s g -> entries (map1 f x) s (fun idx => f (g idx)).
Proof.
  intros (Hs & Hwf & Hg). repeat split.
  - exact Hs.
  - unfold wf, map1 in *; simpl. now rewrite length_map.
  - intros idx Hv. rewrite <- Hg by exact Hv.
    unfold get, map1; simpl. rewrite Hs.
    assert (Hlt : ravel s idx < length (data x)).
    { unfold wf in Hwf. rewrite Hwf, Hs. now apply ravel_lt. }
    rewrite nth_indep with (d' := f dflt) by (now rewrite length_map).
    apply map_nth.
Qed.

Lemma binop_entries {A B C} `{Dflt A} `{Dflt B} `{Dflt C}
    (f : A -> B -> C) (a : t A) (b : t B) (sa sb s : Shape)
    (ga : Index -> A) (gb : Index -> B) :
  entries a sa ga -> entries b sb gb ->
  broadcast_shapes sa sb = Some s ->
  exists c, binop f a b = Ok c /\
            entries c s (fun idx => f (ga (bidx sa idx)) (gb (bidx sb idx))).
Proof.
  intros (Hsa & _ & Hga) (Hsb & _ & Hgb) Hbc.
  unfold binop. rewrite Hsa, Hsb, Hbc.
  eexists. split; [reflexivity|].
  destruct (broadcast_expandable _ _ Hbc) as [Ea Eb].
  eapply entries_ext; [apply entries_tabulate|].
  intros idx Hv. simpl.
  rewrite Hga by (now apply bidx_valid with (s := s)).
  rewrite Hgb by (now apply bidx_valid with (s := s)).
  reflexivity.
Qed.

Lemma expand_entries {A} `{Dflt A}
    (a : t A) (sa s : Shape) (ga : Index -> A) :
  entries a sa ga -> expandable sa s = true ->
  exists c, expand a s = Ok c /\ entries c s (fun idx => ga (bidx sa idx)).
Proof.
  intros (Hsa & _ & Hga) He. unfold expand. rewrite Hsa, He.
  eexists. split; [reflexivity|].
  eapply entries_ext; [apply entries_tabulate|].
  intros idx Hv. simpl. now rewrite Hga by (now apply bidx_valid with (s := s)).
Qed.

Lemma broadcast_shapes_absorb (a b s : Shape) :
  broadcast_shapes a b = Some s -> expandable b s = true.
Proof. intros H. exact (proj2 (broadcast_expandable _ _ H)). Qed.

Lemma where_entries {A} `{Dflt A}
    (c : t bool) (a b : t A) (sc sa sb s1 s : Shape)
    (gc : Index -> bool) (ga gb : Index -> A) :
  entries c sc gc -> entries a sa ga -> entries b sb gb ->
  broadcast_shapes sc sa = Some s1 ->
  broadcast_shapes s1 sb = Some s ->
  expandable sc s = true -> expandable sa s = true ->
  exists x, where_ c a b = Ok x /\
            entries x s (fun idx => if gc (bidx sc idx)
                                    then ga (bidx sa idx)
                                    else gb (bidx sb idx)).
Proof.
  intros (Hsc & _ & Hgc) (Hsa & _ & Hga) (Hsb & _ & Hgb) H1 H2 Ec Ea.
  unfold where_. rewrite Hsc, Hsa, Hsb, H1, H2.
  eexists. split; [reflexivity|].
  pose proof (broadcast_shapes_absorb _ _ H2) as Eb.
  eapply entries_ext; [apply entries_tabulate|].
  intros idx Hv. simpl.
  rewrite Hgc by (now apply bidx_valid with (s := s)).
  rewrite Hga by (now apply bidx_valid with (s := s)).
  rewrite Hgb by (now apply bidx_valid with (s := s)).
  reflexivity.
Qed.

Lemma broadcast_tensors_entries {A B} `{Dflt A} `{Dflt B}
    (a : t A) (b : t B) (sa sb s : Shape)
    (ga : Index -> A) (gb : Index -> B) :
  entries a sa ga -> entries b sb gb ->
  broadcast_shapes sa sb = Some s ->
  exists a' b', broadcast_tensors a b = Ok (a', b') /\
                entries a' s (fun idx => ga (bidx sa idx)) /\
                entries b' s (fun idx => gb (bidx sb idx)).
Proof.
  intros Ha Hb Hbc. unfold broadcast_tensors.
  destruct (broadcast_expandable _ _ Hbc) as [Ea Eb].
  destruct (expand_entries _ Ha Ea) as (a' & Ha' & Hea).
  destruct (expand_entries _ Hb Eb) as (b' & Hb' & Heb).
  destruct Ha as (Hsa & _), Hb as (Hsb & _).
  rewrite Hsa, Hsb, Hbc, Ha'. simpl. rewrite Hb'. simpl.
  now exists a', b'.
Qed.

Lemma all_elements_entries {A} `{Dflt A}
    (check : A -> bool) (x : t A) (s : Shape) (g : Index -> A) :
  entries x s g ->
  (forall idx, valid_index s idx -> check (g idx) = true) ->
  all_elements check x = true.
Proof.
  intros (Hs & Hwf & Hg) Hc. unfold all_elements.
  rewrite <- (tabulate_get Hwf), Hs. unfold tabulate; simpl.
  apply forallb_forall. intros a Ha.
  apply in_map_iff in Ha as (k & <- & Hk). apply in_seq in Hk.
  assert (Hv : valid_index s (unravel s k)) by (apply unravel_valid; lia).
  rewrite Hg by exact Hv. now apply Hc.
Qed.

Lemma entries_all_elements {A} `{Dflt A}
    (check : A -> bool) (x : t A) (s : Shape) (g : Index -> A) :
  entries x s g -> all_elements check x = true ->
  forall idx, valid_index s idx -> check (g idx) = true.
Proof.
  intros (Hs & Hwf & Hg) Hall idx Hv. unfold all_elements in Hall.
  rewrite forallb_forall in Hall. rewrite <- Hg by exact Hv.
  apply Hall. unfold get. apply nth_In.
  unfold wf in Hwf. rewrite Hwf, Hs. now apply ravel_lt.
Qed.

Lemma binop_entries_same {A B C} `{Dflt A} `{Dflt B} `{Dflt C}
    (f : A -> B -> C) (a : t A) (b : t B) (s : Shape)
    (ga : Index -> A) (gb : Index -> B) :
  entries a s ga -> entries b s gb ->
  exists c, binop f a b = Ok c /\
            entries c s (fun idx => f (ga idx) (gb idx)).
Proof.
  intros Ha Hb.
  destruct (binop_entries f Ha Hb (broadcast_shapes_refl s)) as (c & Hc & Hec).
  exists c. split; [exact Hc|].
  eapply entries_ext; [exact Hec|].
  intros idx Hv. simpl. now rewrite (bidx_id Hv).
Qed.

Lemma broadcast_tensors_same {A B} `{Dflt A} `{Dflt B}
    (a : t A) (b : t B) (s : Shape) (ga : Index -> A) (gb : Index -> B) :
  entries a s ga -> entries b s gb ->
  exists a' b', broadcast_tensors a b = Ok (a', b') /\
                entries a' s ga /\ entries b' s gb.
Proof.
  intros Ha Hb.
  destruct (broadcast_tensors_entries Ha Hb (broadcast_shapes_refl s))
    as (a' & b' & Hab & Hea & Heb).
  exists a', b'. split; [exact Hab|].
  split; (eapply entries_ext; [eassumption|]);
    intros idx Hv; simpl; now rewrite (bidx_id Hv).
Qed.

Lemma positive_true (x : R) : (0 < x)%R -> positive x = true.
Proof.
  intros Hx. unfold positive, ltb_R. now destruct (Rlt_dec 0 x).
Qed.

Lemma positive_false (x : R) : (x <= 0)%R -> positive x = false.
Proof.
  intros Hx. unfold positive, ltb_R. destruct (Rlt_dec 0 x); [lra | reflexivity].
Qed.

(** ** The last axis *)

Lemma valid_index_snoc (s : Shape) (k : nat) (idx : Index) (j : nat) :
  valid_index s idx -> j < k -> valid_index (s ++ [k]) (idx ++ [j]).
Proof.
  intros Hv Hj. apply Forall2_app; [exact Hv|]. now repeat constructor.
Qed.

Lemma sum_last_entries (x : t R) (s : Shape) (k : nat) (g : Index -> R) :
  entries x (s ++ [k]) g ->
  entries (sum_last x) s
    (fun idx => Rsum (map (fun j => g (idx ++ [j])) (seq 0 k))).
Proof.
  intros (Hs & Hwf & Hg). unfold sum_last.
  assert (Hne : shape x <> []) by (rewrite Hs; now destruct s).
  destruct (shape x) as [|d r] eqn:E; [congruence|].
  rewrite Hs, removelast_last, last_last.
  eapply entries_ext; [apply entries_tabulate|].
  intros idx Hv. simpl. f_equal. apply map_ext_in. intros j Hj.
  apply in_seq in Hj. apply Hg. apply valid_index_snoc; [exact Hv | lia].
Qed.

Lemma length_pad (n : nat) (s : Shape) :
  length s <= n -> length (pad n s) = n.
Proof.
  intros Hn. unfold pad. rewrite length_app, repeat_length. lia.
Qed.

Lemma pad_snoc (n : nat) (s : Shape) (k : nat) :
  pad (S n) (s ++ [k]) = pad n s ++ [k].
Proof.
  unfold pad. rewrite length_app. cbn [length].
  replace (S n - (length s + 1)) with (n - length s) by lia.
  now rewrite app_assoc.
Qed.

Lemma bc_aligned_snoc (a b : Shape) (x y : nat) :
  length a = length b ->
  bc_aligned (a ++ [x]) (b ++ [y]) =
  match bc_aligned a b, bc_dim x y with
  | Some s, Some d => Some (s ++ [d])
  | _, _ => None
  end.
Proof.
  revert b. induction a as [|u a IH]; intros [|v b] Hl; simpl in *;
    try discriminate.
  - now destruct (bc_dim x y).
  - rewrite IH by lia.
    destruct (bc_dim u v), (bc_aligned a b), (bc_dim x y); reflexivity.
Qed.

Lemma broadcast_shapes_snoc_eq (a b : Shape) (x y : nat) :
  broadcast_shapes (a ++ [x]) (b ++ [y]) =
  match broadcast_shapes a b, bc_dim x y with
  | Some s, Some d => Some (s ++ [d])
  | _, _ => None
  end.
Proof.
  unfold broadcast_shapes. rewrite !length_app. cbn [length].
  replace (Nat.max (length a + 1) (length b + 1))
    with (S (Nat.max (length a) (length b))) by lia.
  rewrite !pad_snoc. apply bc_aligned_snoc.
  rewrite !length_pad; lia.
Qed.

Lemma broadcast_shapes_snoc (a b : Shape) (x y : nat) (s : Shape) :
  broadcast_shapes (a ++ [x]) (b ++ [y]) = Some s ->
  exists s' d, s = s' ++ [d] /\ broadcast_shapes a b = Some s' /\
               bc_dim x y = Some d.
Proof.
  rewrite broadcast_shapes_snoc_eq.
  destruct (broadcast_shapes a b) as [s'|]; [|discriminate].
  destruct (bc_dim x y) as [d|]; [|discriminate].
  intros [= <-]. now exists s', d.
Qed.

Lemma shape_snoc (s : Shape) :
  s <> [] -> s = removelast s ++ [last s 0].
Proof. intros Hs. now apply app_removelast_last. Qed.

(** ** Conjugate updates *)

Section ConjugateUpdateFacts.

Variable lgamma : R -> R.
Variable env : TorchEnv.

Lemma Beta_log_normalizer_entries (d : Beta.obj) :
  Beta_wf d ->
  exists ln, Beta_log_normalizer lgamma d = Ok ln /\
    entries ln (Beta_batch_shape d) (fun idx =>
      Beta_logNorm lgamma (get (Beta.concentration1 d) idx)
                          (get (Beta.concentration0 d) idx)).
Proof.
  intros (W1 & W0 & Hs). unfold Beta_log_normalizer.
  pose proof (entries_self W1) as E1.
  pose proof (entries_self W0) as E0. rewrite Hs in E0.
  fold (Beta_batch_shape d) in E1.
  destruct (binop_entries_same Rplus E1 E0) as (xy & -> & Exy). simpl.
  destruct (binop_entries_same Rminus
              (map1_entries lgamma Exy) (map1_entries lgamma E1))
    as (a & -> & Ea). simpl.
  destruct (binop_entries_same Rminus Ea (map1_entries lgamma E0))
    as (ln & -> & Eln).
  exists ln. split; [reflexivity | exact Eln].
Qed.

Lemma Beta_init_entries (c1 c0 : t R) (s : Shape) (g1 g0 : Index -> R) :
  entries c1 s g1 -> entries c0 s g0 ->
  (default_validate_args env = true ->
   forall idx, valid_index s idx -> (0 < g1 idx /\ 0 < g0 idx)%R) ->
  exists d, Beta_init env c1 c0 None = Ok d /\
            entries (Beta.concentration1 d) s g1 /\
            entries (Beta.concentration0 d) s g0.
Proof.
  intros E1 E0 Hpos. unfold Beta_init.
  destruct (broadcast_tensors_same E1 E0) as (a & b & -> & Ea & Eb).
  simpl. destruct (default_validate_args env) eqn:Hv; simpl.
  - rewrite (all_elements_entries positive Ea),
            (all_elements_entries positive Eb); simpl.
    + eexists. split; [reflexivity|]. simpl. auto.
    + intros idx Hi. apply positive_true. now apply Hpos.
    + intros idx Hi. apply positive_true. now apply Hpos.
  - eexists. split; [reflexivity|]. simpl. auto.
Qed.

Lemma Beta_conjugate_update_entries
    (prior likelihood : Beta.obj) (s : Shape) :
  Beta_wf prior -> Beta_wf likelihood ->
  broadcast_shapes (Beta_batch_shape prior) (Beta_batch_shape likelihood)
    = Some s ->
  (default_validate_args env = true ->
   forall idx, valid_index s idx ->
     (0 < get (Beta.concentration1 prior)
            (bidx (Beta_batch_shape prior) idx)
          + get (Beta.concentration1 likelihood)
              (bidx (Beta_batch_shape likelihood) idx) - 1 /\
      0 < get (Beta.concentration0 prior)
            (bidx (Beta_batch_shape prior) idx)
          + get (Beta.concentration0 likelihood)
              (bidx (Beta_batch_shape likelihood) idx) - 1)%R) ->
  exists posterior log_normalizer,
    Beta_conjugate_update lgamma env prior (DBeta likelihood)
      = Ok (posterior, log_normalizer) /\
    Beta_wf posterior /\
    Beta_batch_shape posterior = s /\
    shape log_normalizer = s /\
    forall idx, valid_index s idx ->
      let i := bidx (Beta_batch_shape prior) idx in
      let j := bidx (Beta_batch_shape likelihood) idx in
      (get (Beta.concentration1 posterior) idx
         = get (Beta.concentration1 prior) i
           + get (Beta.concentration1 likelihood) j - 1 /\
       get (Beta.concentration0 posterior) idx
         = get (Beta.concentration0 prior) i
           + get (Beta.concentration0 likelihood) j - 1 /\
       get log_normalizer idx
         = Beta_logNorm lgamma (get (Beta.concentration1 prior) i)
                               (get (Beta.concentration0 prior) i)
           + Beta_logNorm lgamma (get (Beta.concentration1 likelihood) j)
                                 (get (Beta.concentration0 likelihood) j)
           - Beta_logNorm lgamma (get (Beta.concentration1 posterior) idx)
                                 (get (Beta.concentration0 posterior) idx))%R.
Proof.
  intros Wp Wl Hbc Hpos.
  pose proof Wp as (P1 & P0 & Ps). pose proof Wl as (L1 & L0 & Ls).
  pose proof (entries_self P1) as EP1. fold (Beta_batch_shape prior) in EP1.
  pose proof (entries_self P0) as EP0. rewrite Ps in EP0.
  pose proof (entries_self L1) as EL1.
  fold (Beta_batch_shape likelihood) in EL1.
  pose proof (entries_self L0) as EL0. rewrite Ls in EL0.
  unfold Beta_conjugate_update.
  destruct (binop_entries Rplus EP1 EL1 Hbc) as (s1 & -> & Es1). simpl.
  destruct (binop_entries Rplus EP0 EL0 Hbc) as (s0 & -> & Es0). simpl.
  pose proof (map1_entries (fun x => x - 1)%R Es1) as Ec1.
  pose proof (map1_entries (fun x => x - 1)%R Es0) as Ec0.
  destruct (Beta_init_entries Ec1 Ec0) as (u & -> & Eu1 & Eu0).
  { intros Hv idx Hi. simpl. now apply Hpos. }
  simpl.
  assert (Wu : Beta_wf u).
  { destruct Eu1 as (S1 & W1 & _), Eu0 as (S0 & W0 & _).
    unfold Beta_wf, Beta_batch_shape. repeat split; auto; congruence. }
  assert (Su : Beta_batch_shape u = s) by (destruct Eu1; assumption).
  destruct (Beta_log_normalizer_entries Wp) as (a & -> & Ea). simpl.
  destruct (Beta_log_normalizer_entries Wl) as (b & -> & Eb). simpl.
  destruct (binop_entries Rplus Ea Eb Hbc) as (ab & -> & Eab). simpl.
  destruct (Beta_log_normalizer_entries Wu) as (c & -> & Ec). simpl.
  rewrite Su in Ec.
  destruct (binop_entries_same Rminus Eab Ec) as (ln & -> & Eln). simpl.
  exists u, ln. split; [reflexivity|].
  split; [exact Wu|]. split; [exact Su|].
  split; [destruct Eln; assumption|].
  intros idx Hi. cbv zeta.
  destruct Eu1 as (_ & _ & G1), Eu0 as (_ & _ & G0), Eln as (_ & _ & Gln).
  split; [exact (G1 _ Hi)|]. split; [exact (G0 _ Hi)|]. exact (Gln _ Hi).
Qed.

Lemma Gamma_log_normalizer_entries (d : Gamma.obj) :
  Gamma_wf d ->
  exists ln, Gamma_log_normalizer lgamma d = Ok ln /\
    entries ln (Gamma_batch_shape d) (fun idx =>
      Gamma_logNorm lgamma (get (Gamma.concentration d) idx)
                           (get (Gamma.rate d) idx)).
Proof.
  intros (Wc & Wr & Hs). unfold Gamma_log_normalizer.
  pose proof (entries_self Wc) as Ec. fold (Gamma_batch_shape d) in Ec.
  pose proof (entries_self Wr) as Er. rewrite Hs in Er.
  destruct (binop_entries_same Rmult (map1_entries ln Er) Ec)
    as (a & -> & Ea). simpl.
  destruct (binop_entries_same Rminus Ea (map1_entries lgamma Ec))
    as (x & -> & Ex).
  exists x. split; [reflexivity|].
  eapply entries_ext; [exact Ex|].
  intros idx _. unfold Gamma_logNorm. simpl. ring.
Qed.

Lemma Gamma_init_entries (c r : t R) (s : Shape) (gc gr : Index -> R) :
  entries c s gc -> entries r s gr ->
  (default_validate_args env = true ->
   forall idx, valid_index s idx -> (0 < gc idx /\ 0 < gr idx)%R) ->
  exists d, Gamma_init env c r None = Ok d /\
            entries (Gamma.concentration d) s gc /\
            entries (Gamma.rate d) s gr.
Proof.
  intros Ec Er Hpos. unfold Gamma_init.
  destruct (broadcast_tensors_same Ec Er) as (a & b & -> & Ea & Eb).
  simpl. destruct (default_validate_args env) eqn:Hv; simpl.
  - rewrite (all_elements_entries positive Ea),
            (all_elements_entries positive Eb); simpl.
    + eexists. split; [reflexivity|]. simpl. auto.
    + intros idx Hi. apply positive_true. now apply Hpos.
    + intros idx Hi. apply positive_true. now apply Hpos.
  - eexists. split; [reflexivity|]. simpl. auto.
Qed.

Lemma Gamma_conjugate_update_matching (prior likelihood : Gamma.obj) :
  Gamma_wf prior -> Gamma_wf likelihood ->
  Gamma_batch_shape prior = Gamma_batch_shape likelihood ->
  (default_validate_args env = true ->
   forall idx, valid_index (Gamma_batch_shape prior) idx ->
     (0 < get (Gamma.concentration prior) idx
          + get (Gamma.concentration likelihood) idx - 1 /\
      0 < get (Gamma.rate prior) idx + get (Gamma.rate likelihood) idx)%R) ->
  exists posterior log_normalizer,
    Gamma_conjugate_update lgamma env prior (DGamma likelihood)
      = Ok (posterior, log_normalizer) /\
    Gamma_wf posterior /\
    Gamma_batch_shape posterior = Gamma_batch_shape prior /\
    shape log_normalizer = Gamma_batch_shape prior /\
    forall idx, valid_index (Gamma_batch_shape prior) idx ->
      (get (Gamma.concentration posterior) idx
         = get (Gamma.concentration prior) idx
           + get (Gamma.concentration likelihood) idx - 1 /\
       get (Gamma.rate posterior) idx
         = get (Gamma.rate prior) idx + get (Gamma.rate likelihood) idx /\
       get log_normalizer idx
         = Gamma_logNorm lgamma (get (Gamma.concentration prior) idx)
                                (get (Gamma.rate prior) idx)
           + Gamma_logNorm lgamma (get (Gamma.concentration likelihood) idx)
                                  (get (Gamma.rate likelihood) idx)
           - Gamma_logNorm lgamma (get (Gamma.concentration posterior) idx)
                                  (get (Gamma.rate posterior) idx))%R.
Proof.
  intros Wp Wl Hsame Hpos.
  pose proof Wp as (Pc & Pr & Ps). pose proof Wl as (Lc & Lr & Ls).
  pose proof (entries_self Pc) as EPc. fold (Gamma_batch_shape prior) in EPc.
  pose proof (entries_self Pr) as EPr. rewrite Ps in EPr.
  pose proof (entries_self Lc) as ELc.
  fold (Gamma_batch_shape likelihood) in ELc.
  pose proof (entries_self Lr) as ELr. rewrite Ls in ELr.
  rewrite <- Hsame in ELc, ELr.
  unfold Gamma_conjugate_update.
  destruct (binop_entries_same Rplus EPc ELc) as (sc & -> & Esc). simpl.
  destruct (binop_entries_same Rplus EPr ELr) as (rt & -> & Ert). simpl.
  pose proof (map1_entries (fun x => x - 1)%R Esc) as Ec.
  destruct (Gamma_init_entries Ec Ert) as (u & -> & Euc & Eur).
  { intros Hv idx Hi. simpl. now apply Hpos. }
  simpl.
  assert (Wu : Gamma_wf u).
  { destruct Euc as (S1 & W1 & _), Eur as (S0 & W0 & _).
    unfold Gamma_wf, Gamma_batch_shape. repeat split; auto; congruence. }
  assert (Su : Gamma_batch_shape u = Gamma_batch_shape prior)
    by (destruct Euc; assumption).
  destruct (Gamma_log_normalizer_entries Wp) as (a & -> & Ea). simpl.
  destruct (Gamma_log_normalizer_entries Wl) as (b & -> & Eb). simpl.
  rewrite <- Hsame in Eb.
  destruct (binop_entries_same Rplus Ea Eb) as (ab & -> & Eab). simpl.
  destruct (Gamma_log_normalizer_entries Wu) as (c & -> & Ecc). simpl.
  rewrite Su in Ecc.
  destruct (binop_entries_same Rminus Eab Ecc) as (x & -> & Ex). simpl.
  exists u, x. split; [reflexivity|].
  split; [exact Wu|]. split; [exact Su|].
  split; [destruct Ex; assumption|].
  intros idx Hi.
  destruct Euc as (_ & _ & G1), Eur as (_ & _ & G0), Ex as (_ & _ & Gx).
  split; [exact (G1 _ Hi)|]. split; [exact (G0 _ Hi)|]. exact (Gx _ Hi).
Qed.

Lemma Dirichlet_log_normalizer_entries (d : Dirichlet.obj) :
  Dirichlet_wf d ->
  exists ln, Dirichlet_log_normalizer lgamma d = Ok ln /\
    entries ln (Dirichlet_batch_shape d) (fun idx =>
      Dirichlet_logNorm lgamma (Dirichlet_vector d idx)).
Proof.
  intros (Wc & Hne). unfold Dirichlet_log_normalizer.
  pose proof (entries_self Wc) as Ec.
  rewrite (shape_snoc Hne) in Ec at 1.
  fold (Dirichlet_batch_shape d) (Dirichlet_event_size d) in Ec.
  pose proof (sum_last_entries _ _ Ec) as E1.
  pose proof (sum_last_entries _ _ (map1_entries lgamma Ec)) as E2.
  destruct (binop_entries_same Rminus (map1_entries lgamma E1) E2)
    as (x & -> & Ex).
  exists x. split; [reflexivity|].
  eapply entries_ext; [exact Ex|].
  intros idx _. unfold Dirichlet_logNorm, Dirichlet_vector. simpl.
  now rewrite map_map.
Qed.

Lemma Dirichlet_init_entries (c : t R) (s : Shape) (g : Index -> R) :
  entries c s g -> s <> [] ->
  (default_validate_args env = true ->
   forall idx, valid_index s idx -> (0 < g idx)%R) ->
  exists d, Dirichlet_init env c None = Ok d /\
            Dirichlet.concentration d = c.
Proof.
  intros Ec Hne Hpos. unfold Dirichlet_init.
  assert (Hd : (dim c <? 1) = false).
  { destruct Ec as (Hs & _). unfold dim. rewrite Hs.
    destruct s; [congruence | reflexivity]. }
  rewrite Hd. simpl.
  destruct (default_validate_args env) eqn:Hv; simpl.
  - rewrite (all_elements_entries positive Ec); simpl.
    + eexists. split; reflexivity.
    + intros idx Hi. apply positive_true. now apply Hpos.
  - eexists. split; reflexivity.
Qed.

Lemma Dirichlet_conjugate_update_broadcast
    (prior likelihood : Dirichlet.obj) (s : Shape) :
  Dirichlet_wf prior -> Dirichlet_wf likelihood ->
  broadcast_shapes (shape (Dirichlet.concentration prior))
                   (shape (Dirichlet.concentration likelihood)) = Some s ->
  (default_validate_args env = true ->
   forall idx, valid_index s idx ->
     (0 < get (Dirichlet.concentration prior)
            (bidx (shape (Dirichlet.concentration prior)) idx)
          + get (Dirichlet.concentration likelihood)
              (bidx (shape (Dirichlet.concentration likelihood)) idx)
          - 1)%R) ->
  exists posterior log_normalizer,
    Dirichlet_conjugate_update lgamma env prior (DDirichlet likelihood)
      = Ok (posterior, log_normalizer) /\
    Dirichlet_wf posterior /\
    shape (Dirichlet.concentration posterior) = s /\
    (forall idx, valid_index s idx ->
       get (Dirichlet.concentration posterior) idx
       = get (Dirichlet.concentration prior)
           (bidx (shape (Dirichlet.concentration prior)) idx)
         + get (Dirichlet.concentration likelihood)
             (bidx (shape (Dirichlet.concentration likelihood)) idx)
         - 1)%R /\
    shape log_normalizer = Dirichlet_batch_shape posterior /\
    forall idx, valid_index (Dirichlet_batch_shape posterior) idx ->
      (get log_normalizer idx
       = Dirichlet_logNorm lgamma
           (Dirichlet_vector prior
              (bidx (Dirichlet_batch_shape prior) idx))
         + Dirichlet_logNorm lgamma
             (Dirichlet_vector likelihood
                (bidx (Dirichlet_batch_shape likelihood) idx))
         - Dirichlet_logNorm lgamma (Dirichlet_vector posterior idx))%R.
Proof.
  intros Wp Wl Hbc Hpos.
  pose proof Wp as (Pc & Pne). pose proof Wl as (Lc & Lne).
  pose proof (entries_self Pc) as EP. pose proof (entries_self Lc) as EL.
  pose proof Hbc as Hbc'.
  rewrite (shape_snoc Pne), (shape_snoc Lne) in Hbc'.
  apply broadcast_shapes_snoc in Hbc' as (sb & k & Hs & Hsb & Hk).
  fold (Dirichlet_batch_shape prior) (Dirichlet_batch_shape likelihood)
    in Hsb.
  assert (Hne : s <> []) by (rewrite Hs; now destruct sb).
  unfold Dirichlet_conjugate_update.
  destruct (binop_entries Rplus EP EL Hbc) as (sm & -> & Esm). simpl.
  pose proof (map1_entries (fun x => x - 1)%R Esm) as Ec.
  destruct (Dirichlet_init_entries Ec Hne) as (u & -> & Hu).
  { intros Hv idx Hi. simpl. now apply Hpos. }
  simpl. rewrite <- Hu in Ec.
  assert (Wu : Dirichlet_wf u).
  { destruct Ec as (Su & Wu & _). split; [exact Wu | congruence]. }
  assert (Sb : Dirichlet_batch_shape u = sb).
  { unfold Dirichlet_batch_shape. destruct Ec as (-> & _).
    rewrite Hs. apply removelast_last. }
  destruct (Dirichlet_log_normalizer_entries Wp) as (a & -> & Ea). simpl.
  destruct (Dirichlet_log_normalizer_entries Wl) as (b & -> & Eb). simpl.
  destruct (binop_entries Rplus Ea Eb Hsb) as (ab & -> & Eab). simpl.
  destruct (Dirichlet_log_normalizer_entries Wu) as (c & -> & Ecc). simpl.
  rewrite Sb in Ecc.
  destruct (binop_entries_same Rminus Eab Ecc) as (x & -> & Ex). simpl.
  exists u, x. split; [reflexivity|].
  split; [exact Wu|].
  split; [destruct Ec; assumption|].
  split; [destruct Ec as (_ & _ & G); exact G|].
  rewrite Sb.
  split; [destruct Ex; assumption|].
  destruct Ex as (_ & _ & Gx). exact Gx.
Qed.

End ConjugateUpdateFacts.

(** C1, with the two preconditions the code needs: for Beta
    distributions whose batch shapes broadcast to [s], and whose shifted
    concentrations are positive in case the posterior is constructed
    with argument validation on, [conjugate_update] returns a Beta
    posterior of batch shape [s] with
    concentration1 = prior.concentration1 + likelihood.concentration1 - 1,
    concentration0 = prior.concentration0 + likelihood.concentration0 - 1,
    and the log-normalizer
    logNorm(prior) + logNorm(likelihood) - logNorm(posterior), each
    taken element by element of [s]. *)
Theorem Beta_conjugate_update_posterior (lgamma : R -> R) (env : TorchEnv)
    (prior likelihood : Beta.obj) (s : Shape) :
  Beta_wf prior -> Beta_wf likelihood ->
  broadcast_shapes (Beta_batch_shape prior) (Beta_batch_shape likelihood)
    = Some s ->
  (default_validate_args env = true ->
   forall idx, valid_index s idx ->
     (0 < get (Beta.concentration1 prior)
            (bidx (Beta_batch_shape prior) idx)
          + get (Beta.concentration1 likelihood)
              (bidx (Beta_batch_shape likelihood) idx) - 1 /\
      0 < get (Beta.concentration0 prior)
            (bidx (Beta_batch_shape prior) idx)
          + get (Beta.concentration0 likelihood)
              (bidx (Beta_batch_shape likelihood) idx) - 1)%R) ->
  exists posterior log_normalizer,
    Beta_conjugate_update lgamma env prior (DBeta likelihood)
      = Ok (posterior, log_normalizer) /\
    Beta_wf posterior /\
    Beta_batch_shape posterior = s /\
    shape log_normalizer = s /\
    forall idx, valid_index s idx ->
      let i := bidx (Beta_batch_shape prior) idx in
      let j := bidx (Beta_batch_shape likelihood) idx in
      (get (Beta.concentration1 posterior) idx
         = get (Beta.concentration1 prior) i
           + get (Beta.concentration1 likelihood) j - 1 /\
       get (Beta.concentration0 posterior) idx
         = get (Beta.concentration0 prior) i
           + get (Beta.concentration0 likelihood) j - 1 /\
       get log_normalizer idx
         = Beta_logNorm lgamma (get (Beta.concentration1 prior) i)
                               (get (Beta.concentration0 prior) i)
           + Beta_logNorm lgamma (get (Beta.concentration1 likelihood) j)
                                 (get (Beta.concentration0 likelihood) j)
           - Beta_logNorm lgamma (get (Beta.concentration1 posterior) idx)
                                 (get (Beta.concentration0 posterior) idx))%R.
Proof. apply Beta_conjugate_update_entries. Qed.

(** Runs the definitions on concrete tensors, leaving real arithmetic
    as it stands. *)
Ltac run :=
  cbv -[Rplus Rminus Rmult Rdiv Rinv Ropp IZR INR Rlt_dec Rle_dec Req_dec_T
        Rlt Rle Rmin Rmax ln exp Int_part fact].

(** Splits an index of a concrete shape into its cases. *)
Ltac index_cases H :=
  cbv -[lt] in H;
  repeat match goal with
         | H' : Forall2 lt _ (_ :: _) |- _ => inversion H' ; subst; clear H'
         | H' : Forall2 lt _ [] |- _ => inversion H' ; subst; clear H'
         end;
  repeat match goal with
         | H' : (?i < S _)%nat |- _ =>
             is_var i; destruct i; [clear H' | apply Nat.succ_lt_mono in H']
         | H' : (_ < 0)%nat |- _ => inversion H'
         end.

Lemma all_positive (l : list R) :
  forallb positive l = true -> Forall (fun x => 0 < x)%R l.
Proof.
  intros H. apply Forall_forall. intros x Hx.
  rewrite forallb_forall in H. specialize (H x Hx).
  unfold positive, ltb_R in H. now destruct (Rlt_dec 0 x).
Qed.

Ltac positives :=
  repeat constructor; lra.

Lemma Beta_conjugate_update_posterior_witness :
  Beta_wf beta_batch /\ Beta_wf beta_scalar /\
  exists posterior log_normalizer,
    Beta_conjugate_update lgamma_int env_validating
      beta_batch (DBeta beta_scalar) = Ok (posterior, log_normalizer) /\
    Beta_batch_shape posterior = [2] /\
    (get (Beta.concentration1 posterior) [1%nat] = 3 + 2 - 1)%R.
Proof.
  assert (W1 : Beta_wf beta_batch) by (repeat split).
  assert (W2 : Beta_wf beta_scalar) by (repeat split).
  split; [exact W1|]. split; [exact W2|].
  destruct (@Beta_conjugate_update_posterior lgamma_int env_validating
              beta_batch beta_scalar [2] W1 W2 eq_refl)
    as (p & ln & Hcu & _ & Hs & _ & Hget).
  - intros _ idx Hv. index_cases Hv; run; lra.
  - exists p, ln. split; [exact Hcu|]. split; [exact Hs|].
    assert (Hv : valid_index [2] [1]) by (repeat constructor).
    destruct (Hget [1] Hv) as (H1 & _). exact H1.
Defined.

(** Two Betas whose batch shapes (2,) and (3,) do not broadcast: the sum
    of the concentrations raises. *)
Lemma Beta_conjugate_update_shape_mismatch :
  Beta_valid beta_two /\ Beta_valid beta_three /\
  forall lgamma env,
    Beta_conjugate_update lgamma env beta_two (DBeta beta_three)
    = Err RuntimeError.
Proof.
  split; [|split].
  - split; [repeat split|]. split; simpl; positives.
  - split; [repeat split|]. split; simpl; positives.
  - intros lgamma env. reflexivity.
Qed.

(** C2, with the preconditions the code needs.  Gamma: for distributions
    of matching batch shape, whose posterior parameters are positive in
    case the posterior is constructed with argument validation on,
    [conjugate_update] returns a Gamma posterior with
    concentration = k + k' - 1 and rate = r + r', and the log-normalizer
    logNorm(prior) + logNorm(likelihood) - logNorm(posterior) with
    logNorm(d) = concentration * log(rate) - lgamma(concentration).
    Dirichlet: for distributions whose concentrations broadcast to the
    shape [s], under the same proviso on validation, the posterior
    concentration is c + c' - 1 entry by entry, and the log-normalizer is
    built in the same way from
    logNorm(d) = lgamma(sum(c)) - sum(lgamma(c)), the sums running over
    the last axis. *)
Theorem Gamma_Dirichlet_conjugate_update_posterior
    (lgamma : R -> R) (env : TorchEnv) :
  (forall prior likelihood : Gamma.obj,
    Gamma_wf prior -> Gamma_wf likelihood ->
    Gamma_batch_shape prior = Gamma_batch_shape likelihood ->
    (default_validate_args env = true ->
     forall idx, valid_index (Gamma_batch_shape prior) idx ->
       (0 < get (Gamma.concentration prior) idx
            + get (Gamma.concentration likelihood) idx - 1 /\
        0 < get (Gamma.rate prior) idx + get (Gamma.rate likelihood) idx)%R) ->
    exists posterior log_normalizer,
      Gamma_conjugate_update lgamma env prior (DGamma likelihood)
        = Ok (posterior, log_normalizer) /\
      Gamma_wf posterior /\
      Gamma_batch_shape posterior = Gamma_batch_shape prior /\
      shape log_normalizer = Gamma_batch_shape prior /\
      forall idx, valid_index (Gamma_batch_shape prior) idx ->
        (get (Gamma.concentration posterior) idx
           = get (Gamma.concentration prior) idx
             + get (Gamma.concentration likelihood) idx - 1 /\
         get (Gamma.rate posterior) idx
           = get (Gamma.rate prior) idx + get (Gamma.rate likelihood) idx /\
         get log_normalizer idx
           = Gamma_logNorm lgamma (get (Gamma.concentration prior) idx)
                                  (get (Gamma.rate prior) idx)
             + Gamma_logNorm lgamma (get (Gamma.concentration likelihood) idx)
                                    (get (Gamma.rate likelihood) idx)
             - Gamma_logNorm lgamma (get (Gamma.concentration posterior) idx)
                                    (get (Gamma.rate posterior) idx))%R)
  /\
  (forall (prior likelihood : Dirichlet.obj) (s : Shape),
    Dirichlet_wf prior -> Dirichlet_wf likelihood ->
    broadcast_shapes (shape (Dirichlet.concentration prior))
                     (shape (Dirichlet.concentration likelihood)) = Some s ->
    (default_validate_args env = true ->
     forall idx, valid_index s idx ->
       (0 < get (Dirichlet.concentration prior)
              (bidx (shape (Dirichlet.concentration prior)) idx)
            + get (Dirichlet.concentration likelihood)
                (bidx (shape (Dirichlet.concentration likelihood)) idx)
            - 1)%R) ->
    exists posterior log_normalizer,
      Dirichlet_conjugate_update lgamma env prior (DDirichlet likelihood)
        = Ok (posterior, log_normalizer) /\
      Dirichlet_wf posterior /\
      shape (Dirichlet.concentration posterior) = s /\
      (forall idx, valid_index s idx ->
         get (Dirichlet.concentration posterior) idx
         = get (Dirichlet.concentration prior)
             (bidx (shape (Dirichlet.concentration prior)) idx)
           + get (Dirichlet.concentration likelihood)
               (bidx (shape (Dirichlet.concentration likelihood)) idx)
           - 1)%R /\
      shape log_normalizer = Dirichlet_batch_shape posterior /\
      forall idx, valid_index (Dirichlet_batch_shape posterior) idx ->
        (get log_normalizer idx
         = Dirichlet_logNorm lgamma
             (Dirichlet_vector prior
                (bidx (Dirichlet_batch_shape prior) idx))
           + Dirichlet_logNorm lgamma
               (Dirichlet_vector likelihood
                  (bidx (Dirichlet_batch_shape likelihood) idx))
           - Dirichlet_logNorm lgamma (Dirichlet_vector posterior idx))%R).
Proof.
  split.
  - intros prior likelihood. apply Gamma_conjugate_update_matching.
  - intros prior likelihood s. apply Dirichlet_conjugate_update_broadcast.
Qed.

Lemma Gamma_Dirichlet_conjugate_update_posterior_witness :
  (Gamma_wf gamma_a /\ Gamma_wf gamma_b /\
   exists posterior log_normalizer,
     Gamma_conjugate_update lgamma_int env_validating gamma_a (DGamma gamma_b)
       = Ok (posterior, log_normalizer) /\
     (get (Gamma.concentration posterior) [0%nat] = 2 + 1 - 1)%R /\
     (get (Gamma.rate posterior) [0%nat] = 1 + 2)%R)
  /\
  (Dirichlet_wf dirichlet_batch /\ Dirichlet_wf dirichlet_vec /\
   exists posterior log_normalizer,
     Dirichlet_conjugate_update lgamma_int env_validating
       dirichlet_batch (DDirichlet dirichlet_vec)
       = Ok (posterior, log_normalizer) /\
     shape (Dirichlet.concentration posterior) = [2; 2] /\
     (get (Dirichlet.concentration posterior) [1; 0]%nat = 4 + 1 - 1)%R).
Proof.
  destruct (Gamma_Dirichlet_conjugate_update_posterior
              lgamma_int env_validating) as [HG HD].
  split.
  - assert (W1 : Gamma_wf gamma_a) by (repeat split).
    assert (W2 : Gamma_wf gamma_b) by (repeat split).
    split; [exact W1|]. split; [exact W2|].
    destruct (HG gamma_a gamma_b W1 W2 eq_refl)
      as (p & ln & Hcu & _ & _ & _ & Hget).
    + intros _ idx Hv. index_cases Hv; run; lra.
    + exists p, ln. split; [exact Hcu|].
      assert (Hv : valid_index [2] [0]) by (repeat constructor).
      destruct (Hget [0] Hv) as (H1 & H2 & _). split; [exact H1 | exact H2].
  - assert (W1 : Dirichlet_wf dirichlet_batch) by (split; [reflexivity | discriminate]).
    assert (W2 : Dirichlet_wf dirichlet_vec) by (split; [reflexivity | discriminate]).
    split; [exact W1|]. split; [exact W2|].
    destruct (HD dirichlet_batch dirichlet_vec [2; 2] W1 W2 eq_refl)
      as (p & ln & Hcu & _ & Hs & Hget & _).
    + intros _ idx Hv. index_cases Hv; run; lra.
    + exists p, ln. split; [exact Hcu|]. split; [exact Hs|].
      assert (Hv : valid_index [2; 2] [1; 0]) by (repeat constructor).
      exact (Hget [1; 0] Hv).
Defined.

(** Two Dirichlets with 2 and 3 categories: the concentrations do not
    broadcast, and their sum raises. *)
Lemma Dirichlet_conjugate_update_shape_mismatch :
  Dirichlet_valid dirichlet_two /\ Dirichlet_valid dirichlet_three /\
  forall lgamma env,
    Dirichlet_conjugate_update lgamma env
      dirichlet_two (DDirichlet dirichlet_three)
    = Err RuntimeError.
Proof.
  split; [|split].
  - split; [split; [reflexivity | discriminate]|]. simpl; positives.
  - split; [split; [reflexivity | discriminate]|]. simpl; positives.
  - intros lgamma env. reflexivity.
Qed.

Lemma all_elements_false {A} `{Dflt A}
    (check : A -> bool) (x : t A) (s : Shape) (g : Index -> A) (idx : Index) :
  entries x s g -> valid_index s idx -> check (g idx) = false ->
  all_elements check x = false.
Proof.
  intros Ex Hv Hc. destruct (all_elements check x) eqn:Hall; [|reflexivity].
  rewrite (entries_all_elements check Ex Hall Hv) in Hc. discriminate.
Qed.

(** A shifted concentration1 that is not positive: the constructor of the
    posterior raises under validation, and without validation the
    posterior carries it. *)
Lemma Beta_conjugate_update_nonpositive (lgamma : R -> R) (env : TorchEnv)
    (prior likelihood : Beta.obj) (s : Shape) (idx : Index) :
  Beta_wf prior -> Beta_wf likelihood ->
  broadcast_shapes (Beta_batch_shape prior) (Beta_batch_shape likelihood)
    = Some s ->
  valid_index s idx ->
  (get (Beta.concentration1 prior) (bidx (Beta_batch_shape prior) idx)
   + get (Beta.concentration1 likelihood)
       (bidx (Beta_batch_shape likelihood) idx) <= 1)%R ->
  match Beta_conjugate_update lgamma env prior (DBeta likelihood) with
  | Ok (posterior, _) =>
      default_validate_args env = false /\
      (get (Beta.concentration1 posterior) idx <= 0)%R
  | Err e => default_validate_args env = true /\ e = ValueError
  end.
Proof.
  intros Wp Wl Hbc Hv Hsum.
  destruct (default_validate_args env) eqn:Hval.
  - pose proof Wp as (P1 & P0 & Ps). pose proof Wl as (L1 & L0 & Ls).
    pose proof (entries_self P1) as EP1. fold (Beta_batch_shape prior) in EP1.
    pose proof (entries_self P0) as EP0. rewrite Ps in EP0.
    pose proof (entries_self L1) as EL1.
    fold (Beta_batch_shape likelihood) in EL1.
    pose proof (entries_self L0) as EL0. rewrite Ls in EL0.
    unfold Beta_conjugate_update.
    destruct (binop_entries Rplus EP1 EL1 Hbc) as (s1 & -> & Es1).
    cbn [bind].
    destruct (binop_entries Rplus EP0 EL0 Hbc) as (s0 & -> & Es0).
    cbn [bind].
    pose proof (map1_entries (fun x => x - 1)%R Es1) as Ec1.
    pose proof (map1_entries (fun x => x - 1)%R Es0) as Ec0.
    unfold Beta_init.
    destruct (broadcast_tensors_same Ec1 Ec0) as (a & b & -> & Ea & Eb).
    cbn [bind resolve_validate]. rewrite Hval.
    rewrite (@all_elements_false _ _ positive _ _ _ idx Ea Hv)
      by (apply positive_false; lra).
    cbn [andb require bind]. auto.
  - destruct (@Beta_conjugate_update_entries lgamma env prior likelihood s
                Wp Wl Hbc) as (u & ln & -> & _ & _ & _ & Hget).
    + rewrite Hval. discriminate.
    + destruct (Hget idx Hv) as (H1 & _). cbv zeta in H1.
      split; [reflexivity | lra].
Qed.

Lemma Gamma_conjugate_update_nonpositive (lgamma : R -> R) (env : TorchEnv)
    (prior likelihood : Gamma.obj) (idx : Index) :
  Gamma_wf prior -> Gamma_wf likelihood ->
  Gamma_batch_shape prior = Gamma_batch_shape likelihood ->
  valid_index (Gamma_batch_shape prior) idx ->
  (get (Gamma.concentration prior) idx
   + get (Gamma.concentration likelihood) idx <= 1)%R ->
  match Gamma_conjugate_update lgamma env prior (DGamma likelihood) with
  | Ok (posterior, _) =>
      default_validate_args env = false /\
      (get (Gamma.concentration posterior) idx <= 0)%R
  | Err e => default_validate_args env = true /\ e = ValueError
  end.
Proof.
  intros Wp Wl Hsame Hv Hsum.
  destruct (default_validate_args env) eqn:Hval.
  - pose proof Wp as (Pc & Pr & Ps). pose proof Wl as (Lc & Lr & Ls).
    pose proof (entries_self Pc) as EPc. fold (Gamma_batch_shape prior) in EPc.
    pose proof (entries_self Pr) as EPr. rewrite Ps in EPr.
    pose proof (entries_self Lc) as ELc.
    fold (Gamma_batch_shape likelihood) in ELc.
    pose proof (entries_self Lr) as ELr. rewrite Ls in ELr.
    rewrite <- Hsame in ELc, ELr.
    unfold Gamma_conjugate_update.
    destruct (binop_entries_same Rplus EPc ELc) as (sc & -> & Esc).
    cbn [bind].
    destruct (binop_entries_same Rplus EPr ELr) as (rt & -> & Ert).
    cbn [bind].
    pose proof (map1_entries (fun x => x - 1)%R Esc) as Ec.
    unfold Gamma_init.
    destruct (broadcast_tensors_same Ec Ert) as (a & b & -> & Ea & Eb).
    cbn [bind resolve_validate]. rewrite Hval.
    rewrite (@all_elements_false _ _ positive _ _ _ idx Ea Hv)
      by (apply positive_false; lra).
    cbn [andb require bind]. auto.
  - destruct (@Gamma_conjugate_update_matching lgamma env prior likelihood
                Wp Wl Hsame) as (u & ln & -> & _ & _ & _ & Hget).
    + rewrite Hval. discriminate.
    + destruct (Hget idx Hv) as (H1 & _).
      split; [reflexivity | lra].
Qed.

(** C10: [conjugate_update] does not keep the shifted concentration inside
    the positive reals.  Beta(1/2, 1) updated by itself, Gamma(1/2, 1)
    updated by itself and Dirichlet([1/2, 1]) updated by itself are pairs
    of valid distributions for which the posterior concentration
    1/2 + 1/2 - 1 is not positive: with argument validation on the
    constructor of the posterior raises [ValueError], with validation off
    an object that violates the positivity constraint is returned.  The
    same happens for any two Betas with a batch element whose
    concentration1 values sum to at most 1, and for any two Gammas of
    matching batch shape with a batch element whose concentrations sum to
    at most 1. *)
Theorem conjugate_update_leaves_parameter_domain :
  (Beta_valid beta_half /\
   forall lgamma env,
     match Beta_conjugate_update lgamma env beta_half (DBeta beta_half) with
     | Ok (posterior, _) =>
         default_validate_args env = false /\
         (get (Beta.concentration1 posterior) [] <= 0)%R /\
         ~ Beta_valid posterior
     | Err e => default_validate_args env = true /\ e = ValueError
     end)
  /\
  (Gamma_valid gamma_half /\
   forall lgamma env,
     match Gamma_conjugate_update lgamma env gamma_half (DGamma gamma_half) with
     | Ok (posterior, _) =>
         default_validate_args env = false /\
         (get (Gamma.concentration posterior) [] <= 0)%R /\
         ~ Gamma_valid posterior
     | Err e => default_validate_args env = true /\ e = ValueError
     end)
  /\
  (Dirichlet_valid dirichlet_half /\
   forall lgamma env,
     match Dirichlet_conjugate_update lgamma env
             dirichlet_half (DDirichlet dirichlet_half) with
     | Ok (posterior, _) =>
         default_validate_args env = false /\
         (get (Dirichlet.concentration posterior) [0%nat] <= 0)%R /\
         ~ Dirichlet_valid posterior
     | Err e => default_validate_args env = true /\ e = ValueError
     end)
  /\
  (forall lgamma env (prior likelihood : Beta.obj) s idx,
     Beta_wf prior -> Beta_wf likelihood ->
     broadcast_shapes (Beta_batch_shape prior) (Beta_batch_shape likelihood)
       = Some s ->
     valid_index s idx ->
     (get (Beta.concentration1 prior) (bidx (Beta_batch_shape prior) idx)
      + get (Beta.concentration1 likelihood)
          (bidx (Beta_batch_shape likelihood) idx) <= 1)%R ->
     match Beta_conjugate_update lgamma env prior (DBeta likelihood) with
     | Ok (posterior, _) =>
         default_validate_args env = false /\
         (get (Beta.concentration1 posterior) idx <= 0)%R
     | Err e => default_validate_args env = true /\ e = ValueError
     end)
  /\
  (forall lgamma env (prior likelihood : Gamma.obj) idx,
     Gamma_wf prior -> Gamma_wf likelihood ->
     Gamma_batch_shape prior = Gamma_batch_shape likelihood ->
     valid_index (Gamma_batch_shape prior) idx ->
     (get (Gamma.concentration prior) idx
      + get (Gamma.concentration likelihood) idx <= 1)%R ->
     match Gamma_conjugate_update lgamma env prior (DGamma likelihood) with
     | Ok (posterior, _) =>
         default_validate_args env = false /\
         (get (Gamma.concentration posterior) idx <= 0)%R
     | Err e => default_validate_args env = true /\ e = ValueError
     end).
Proof.
  split; [|split; [|split; [|split]]].
  - split.
    + split; [repeat split|]. split; simpl; positives.
    + intros lgamma [[|] tr].
      * run. destruct (Rlt_dec 0 (1 / 2 + 1 / 2 - 1)); [lra|]. now split.
      * run. split; [reflexivity|]. split; [lra|].
        intros (_ & H & _). simpl in H. inversion H; subst. lra.
  - split.
    + split; [repeat split|]. split; simpl; positives.
    + intros lgamma [[|] tr].
      * run. destruct (Rlt_dec 0 (1 / 2 + 1 / 2 - 1)); [lra|]. now split.
      * run. split; [reflexivity|]. split; [lra|].
        intros (_ & H & _). simpl in H. inversion H; subst. lra.
  - split.
    + split; [split; [reflexivity | discriminate]|]. simpl; positives.
    + intros lgamma [[|] tr].
      * run. destruct (Rlt_dec 0 (1 / 2 + 1 / 2 - 1)); [lra|]. now split.
      * run. split; [reflexivity|]. split; [lra|].
        intros (_ & H). simpl in H. inversion H; subst. lra.
  - intros lgamma env prior likelihood s idx.
    apply Beta_conjugate_update_nonpositive.
  - intros lgamma env prior likelihood idx.
    apply Gamma_conjugate_update_nonpositive.
Qed.

Lemma conjugate_update_leaves_parameter_domain_witness :
  Beta_wf beta_half /\ Gamma_wf gamma_half /\
  Beta_conjugate_update lgamma_int env_validating beta_half (DBeta beta_half)
  = Err ValueError /\
  Gamma_conjugate_update lgamma_int env_validating
    gamma_half (DGamma gamma_half)
  = Err ValueError.
Proof.
  destruct conjugate_update_leaves_parameter_domain
    as (_ & _ & _ & HB & HG).
  assert (WB : Beta_wf beta_half) by (repeat split).
  assert (WG : Gamma_wf gamma_half) by (repeat split).
  assert (Hv : valid_index [] []) by constructor.
  split; [exact WB|]. split; [exact WG|]. split.
  - specialize (HB lgamma_int env_validating beta_half beta_half [] []
                   WB WB eq_refl Hv).
    destruct (Beta_conjugate_update _ _ _ _) as [[p ln]|e].
    + destruct HB as (Hf & _); [run; lra | discriminate Hf].
    + destruct HB as (_ & ->); [run; lra | reflexivity].
  - specialize (HG lgamma_int env_validating gamma_half gamma_half []
                   WG WG eq_refl Hv).
    destruct (Gamma_conjugate_update _ _ _ _) as [[p ln]|e].
    + destruct HG as (Hf & _); [run; lra | discriminate Hf].
    + destruct HG as (_ & ->); [run; lra | reflexivity].
Defined.

(** ** Contract violations *)

(** C9: [conjugate_update] of Beta, Gamma and Dirichlet raises
    [AssertionError] on every [other] that is not an instance of the same
    class, and the constructor of Binomial raises [AssertionError] when
    [approx_sample_thresh] is not a number or is a negative number. *)
Theorem contract_violations_raise :
  (forall lgamma env self other,
     isinstance_Beta other = false ->
     Beta_conjugate_update lgamma env self other = Err AssertionError) /\
  (forall lgamma env self other,
     isinstance_Gamma other = false ->
     Gamma_conjugate_update lgamma env self other = Err AssertionError) /\
  (forall lgamma env self other,
     isinstance_Dirichlet other = false ->
     Dirichlet_conjugate_update lgamma env self other = Err AssertionError) /\
  (forall env total_count probs logits validate_args thresh,
     isinstance_Number thresh = false \/ negative_number thresh ->
     Binomial_init env total_count probs logits validate_args thresh
     = Err AssertionError).
Proof.
  repeat split.
  - intros lgamma env self [] H; try reflexivity; discriminate.
  - intros lgamma env self [] H; try reflexivity; discriminate.
  - intros lgamma env self [] H; try reflexivity; discriminate.
  - intros env tc probs logits va thresh [H | H].
    + destruct thresh; try discriminate. reflexivity.
    + destruct thresh as [[r| | | |r]| |]; simpl in H; try contradiction.
      * unfold Binomial_init; simpl. unfold leb_R.
        destruct (Rle_dec 0 r); [lra | reflexivity].
      * reflexivity.
      * unfold Binomial_init; simpl. unfold leb_R.
        destruct (Rle_dec 0 r); [lra | reflexivity].
Qed.

Lemma contract_violations_raise_witness :
  Beta_conjugate_update lgamma_int env_lenient beta_half
    (DGamma gamma_half) = Err AssertionError /\
  Gamma_conjugate_update lgamma_int env_lenient gamma_half
    (Foreign "Normal") = Err AssertionError /\
  Dirichlet_conjugate_update lgamma_int env_lenient dirichlet_half
    (DBeta beta_half) = Err AssertionError /\
  Binomial_init env_lenient (scalar 10%R) (Some (scalar (1 / 2)%R)) None None
    (PyOther "None") = Err AssertionError /\
  Binomial_init env_lenient (scalar 10%R) (Some (scalar (1 / 2)%R)) None None
    (PyReal (Fin (-1))) = Err AssertionError.
Proof.
  destruct contract_violations_raise as (HB & HG & HD & HN).
  split; [apply HB; reflexivity|].
  split; [apply HG; reflexivity|].
  split; [apply HD; reflexivity|].
  split; apply HN.
  - left. reflexivity.
  - right. simpl. lra.
Defined.

(** C6: [Independent.conjugate_update] reads the attribute
    [reintepreted_batch_ndims], which no [Independent] instance has (the
    attribute is [reinterpreted_batch_ndims], as the [support] property of
    the same class spells it), so every call raises [AttributeError]
    before anything is delegated to the base distribution. *)
Theorem Independent_conjugate_update_raises :
  forall lgamma env sum_rightmost to_event inherited
         base_dist reinterpreted_batch_ndims other,
    Independent_conjugate_update lgamma env sum_rightmost to_event inherited
      base_dist reinterpreted_batch_ndims other
    = Err AttributeError.
Proof. reflexivity. Qed.

(** ** expand *)

Lemma expand_wf {A} `{Dflt A} (x y : t A) (s : Shape) :
  expand x s = Ok y -> wf y /\ shape y = s.
Proof.
  unfold expand. destruct (expandable (shape x) s); [|discriminate].
  intros [= <-]. split; [apply wf_tabulate | reflexivity].
Qed.

Lemma expand_ok {A} `{Dflt A} (x : t A) (b s : Shape) :
  shape x = b -> expandable b s = true ->
  exists y, expand x s = Ok y /\ shape y = s.
Proof.
  intros Hs He. unfold expand. rewrite Hs, He. eexists. split; reflexivity.
Qed.

Lemma expand_entry_wf (x y : option (t R)) (s : Shape) :
  expand_entry x s = Ok y -> entry_wf y s /\ (x <> None -> y <> None).
Proof.
  destruct x as [p|]; simpl.
  - destruct (expand p s) as [p'|] eqn:E; simpl; [|discriminate].
    intros [= <-]. split; [exact (expand_wf _ _ E) | discriminate].
  - intros [= <-]. split; [exact I | congruence].
Qed.

Lemma expand_entry_ok (x : option (t R)) (b s : Shape) :
  entry_wf x b -> expandable b s = true ->
  exists y, expand_entry x s = Ok y.
Proof.
  destruct x as [p|]; simpl; [|eauto].
  intros (_ & Hs) He. unfold expand. rewrite Hs, He. simpl. eauto.
Qed.

(** C8: [expand] keeps what the subclass adds.  [Binomial.expand] returns
    an object with the [approx_sample_thresh] of the original, and it does
    return one whenever the batch shape expands to the requested shape.
    [Uniform.expand], applied once or twice in a row, returns objects with
    the [_unbroadcasted_low] and [_unbroadcasted_high] of the original,
    whose [support] is the interval between those two, the support of the
    original. *)
Theorem expand_keeps_auxiliary_attributes :
  (forall d batch_shape new,
     Binomial_expand d batch_shape = Ok new ->
     Binomial.approx_sample_thresh new = Binomial.approx_sample_thresh d) /\
  (forall d batch_shape,
     Binomial_wf d ->
     expandable (Binomial._batch_shape d) batch_shape = true ->
     exists new, Binomial_expand d batch_shape = Ok new /\ Binomial_wf new) /\
  (forall d s1 s2 d1 d2,
     Uniform_expand d s1 = Ok d1 ->
     Uniform_expand d1 s2 = Ok d2 ->
     Uniform._unbroadcasted_low d1 = Uniform._unbroadcasted_low d /\
     Uniform._unbroadcasted_high d1 = Uniform._unbroadcasted_high d /\
     Uniform._unbroadcasted_low d2 = Uniform._unbroadcasted_low d /\
     Uniform._unbroadcasted_high d2 = Uniform._unbroadcasted_high d /\
     Uniform_support d1 = Uniform_support d /\
     Uniform_support d2 = Uniform_support d /\
     Uniform_support d2
     = mkInterval (Uniform._unbroadcasted_low d)
                  (Uniform._unbroadcasted_high d)) /\
  (forall d s1 s2,
     Uniform_wf d ->
     expandable (Uniform._batch_shape d) s1 = true ->
     expandable s1 s2 = true ->
     exists d1 d2, Uniform_expand d s1 = Ok d1 /\
                   Uniform_expand d1 s2 = Ok d2).
Proof.
  split; [|split; [|split]].
  - intros d bs new. unfold Binomial_expand.
    destruct (expand _ bs); simpl; [|discriminate].
    destruct (expand_entry (Binomial.dict_probs d) bs); simpl; [|discriminate].
    destruct (expand_entry (Binomial.dict_logits d) bs); simpl;
      [|discriminate].
    now intros [= <-].
  - intros d bs (Wt & St & Wp & Wl & Hsome & Hge) He.
    unfold Binomial_expand.
    destruct (expand (Binomial.total_count d) bs) as [tc|] eqn:Et;
      [|unfold expand in Et; rewrite St, He in Et; discriminate].
    destruct (@expand_entry_ok _ _ bs Wp He) as (p & Ep).
    destruct (@expand_entry_ok _ _ bs Wl He) as (l & El).
    rewrite Ep, El. simpl. eexists. split; [reflexivity|].
    destruct (expand_wf _ _ Et) as (Wtc & Stc).
    destruct (expand_entry_wf _ _ Ep) as (Wp' & Np).
    destruct (expand_entry_wf _ _ El) as (Wl' & Nl).
    unfold Binomial_wf; simpl. repeat split; auto.
    destruct Hsome; [left | right]; auto.
  - intros d s1 s2 d1 d2. unfold Uniform_expand.
    destruct (expand (Uniform.low d) s1); simpl; [|discriminate].
    destruct (expand (Uniform.high d) s1); simpl; [|discriminate].
    intros [= <-]. simpl.
    destruct (expand _ s2); simpl; [|discriminate].
    destruct (expand _ s2); simpl; [|discriminate].
    intros [= <-]. simpl. repeat split.
  - intros d s1 s2 (Wl & Wh & Sl & Sh) E1 E2. unfold Uniform_expand.
    destruct (@expand_ok _ _ (Uniform.low d) _ s1 Sl E1) as (l1 & -> & Sl1).
    destruct (@expand_ok _ _ (Uniform.high d) _ s1 Sh E1) as (h1 & -> & Sh1).
    destruct (@expand_ok _ _ l1 _ s2 Sl1 E2) as (l2 & El2 & _).
    destruct (@expand_ok _ _ h1 _ s2 Sh1 E2) as (h2 & Eh2 & _).
    cbn [bind]. eexists. eexists. split; [reflexivity|].
    cbn [Uniform.low Uniform.high]. rewrite El2, Eh2. reflexivity.
Qed.

Lemma expand_keeps_auxiliary_attributes_witness :
  (exists new, Binomial_expand binomial_approx [3; 2] = Ok new /\
               Binomial.approx_sample_thresh new = Fin 5) /\
  (exists d1 d2, Uniform_expand uniform_sample [3; 2] = Ok d1 /\
                 Uniform_expand d1 [4; 3; 2] = Ok d2 /\
                 Uniform_support d2
                 = mkInterval (scalar 0%R) (of_list [1; 2]%R)).
Proof.
  destruct expand_keeps_auxiliary_attributes as (H1 & H2 & H3 & H4).
  split.
  - destruct (H2 binomial_approx [3; 2]) as (new & Hnew & _).
    + unfold Binomial_wf, binomial_approx; simpl. unfold leb_R.
      destruct (Rle_dec 0 5); [|lra].
      repeat split; auto. left; discriminate.
    + reflexivity.
    + exists new. split; [exact Hnew|]. exact (H1 _ _ _ Hnew).
  - destruct (H4 uniform_sample [3; 2] [4; 3; 2]) as (d1 & d2 & E1 & E2).
    + repeat split.
    + reflexivity.
    + reflexivity.
    + exists d1, d2. split; [exact E1|]. split; [exact E2|].
      destruct (H3 _ _ _ _ _ E1 E2) as (_ & _ & _ & _ & _ & _ & Hs).
      exact Hs.
Defined.

(** ** Binomial.sample *)

Lemma fold_left_Rmin_spec (l : list R) (a : R) :
  is_min (fold_left Rmin l a) (a :: l).
Proof.
  revert a. induction l as [|b l IH]; intros a; simpl.
  - split; [now left | constructor; [lra | constructor]].
  - destruct (IH (Rmin a b)) as (Hin & Hall).
    inversion Hall as [|? ? Hm Hl]; subst.
    pose proof (Rmin_l a b). pose proof (Rmin_r a b).
    split.
    + destruct Hin as [Hin | Hin]; [|now right; right].
      rewrite <- Hin. unfold Rmin. destruct (Rle_dec a b); simpl; auto.
    + constructor; [lra|]. constructor; [lra | exact Hl].
Qed.

Lemma tmin_spec (x : t R) (m : R) :
  tmin x = Ok m <-> is_min m (data x).
Proof.
  unfold tmin. destruct (data x) as [|a l].
  - split; [discriminate | intros ([] & _)].
  - pose proof (fold_left_Rmin_spec l a) as Hs. split.
    + now intros [= <-].
    + intros (Hin & Hall). f_equal.
      destruct Hs as (Hin' & Hall').
      rewrite Forall_forall in Hall, Hall'.
      specialize (Hall _ Hin'). specialize (Hall' _ Hin). simpl in *. lra.
Qed.

Lemma Binomial_probs_entries (d : Binomial.obj) :
  Binomial_wf d ->
  entries (Binomial_probs d) (Binomial._batch_shape d)
          (get (Binomial_probs d)).
Proof.
  intros (_ & _ & Wp & Wl & Hsome & _). unfold Binomial_probs.
  destruct (Binomial.dict_probs d) as [p|].
  - destruct Wp as (Wp & <-). now apply entries_self.
  - destruct (Binomial.dict_logits d) as [l|].
    + destruct Wl as (Wl & <-).
      pose proof (map1_entries sigmoid (entries_self Wl)) as (Hs & Hw & _).
      rewrite <- Hs at 1. now apply entries_self.
    + destruct Hsome; congruence.
Qed.

Lemma entries_poisson (rng : Rng) (rates : t R) (s : Shape)
    (g : Index -> R) :
  Rng_wf rng -> entries rates s g ->
  entries (poisson rng rates) s (get (poisson rng rates)).
Proof.
  intros Hr (Hs & Hw & _). destruct (Hr rates Hw) as (Wx & Sx & _).
  rewrite <- Hs, <- Sx. now apply entries_self.
Qed.

Lemma ltb_R_true (x y : R) : ltb_R x y = true -> (x < y)%R.
Proof. unfold ltb_R. now destruct (Rlt_dec x y). Qed.

Lemma leb_R_true (x y : R) : (x <= y)%R -> leb_R x y = true.
Proof. intros H. unfold leb_R. now destruct (Rle_dec x y). Qed.

(** The steps of the approximate branch: the rates, the sample [x] that
    the steps after the Poisson draw compute, with [approx_element] at
    every index of the extended shape, and the draw itself, which
    [torch.poisson] refuses on a negative rate. *)
Lemma Binomial_sample_approx_steps (rng : Rng) (d : Binomial.obj)
    (sample_shape : Shape) :
  Binomial_wf d -> Rng_wf rng ->
  exists x rates,
    entries rates (sample_shape ++ Binomial._batch_shape d)
      (fun idx =>
         let i := bidx (Binomial._batch_shape d) idx in
         (get (Binomial_probs d) i * (1 - get (Binomial_probs d) i)
          * get (Binomial.total_count d) i)%R) /\
    entries x (sample_shape ++ Binomial._batch_shape d)
      (fun idx =>
         let i := bidx (Binomial._batch_shape d) idx in
         approx_element (get (Binomial_probs d) i)
                        (get (Binomial.total_count d) i)
                        (get (poisson rng rates) idx)) /\
    Binomial_sample_approx rng d sample_shape
    = if all_elements (leb_R 0) rates then Ok x else Err RuntimeError.
Proof.
  intros Wd Hrng.
  pose proof (Binomial_probs_entries Wd) as Ep.
  destruct Wd as (Wt & St & _).
  pose proof (entries_self Wt) as En. rewrite St in En.
  set (b := Binomial._batch_shape d) in *.
  set (P := Binomial_probs d) in *.
  set (N := Binomial.total_count d) in *.
  pose proof (map1_entries (fun x => 1 - x)%R Ep) as Eq.
  destruct (binop_entries_same Rmin Ep Eq) as (m & Hm & Em).
  destruct (binop_entries_same Rmult Em En) as (mean & Hmean & Emean).
  destruct (binop_entries_same Rmult Ep Eq) as (pq & Hpq & Epq).
  destruct (binop_entries_same Rmult Epq En) as (var & Hvar & Evar).
  destruct (binop_entries_same Rminus Emean Evar) as (df & Hdf & Edf).
  pose proof (map1_entries round Edf) as Eshift.
  destruct (expand_entries (sample_shape ++ b) Evar
              (expandable_prefix sample_shape b)) as (rates & Hrates & Erates).
  pose proof (entries_poisson Hrng Erates) as EX.
  destruct (binop_entries Rplus EX Eshift
              (broadcast_shapes_prefix_l sample_shape b))
    as (rs & Hrs & Ers).
  destruct (binop_entries Rmin Ers En
              (broadcast_shapes_prefix_l sample_shape b))
    as (res & Hres & Eres).
  destruct (binop_entries_same ltb_R Ep Eq) as (c & Hc & Ec).
  destruct (binop_entries Rminus En Eres
              (broadcast_shapes_prefix_r sample_shape b))
    as (r' & Hr' & Er').
  destruct (where_entries Ec Eres Er'
              (broadcast_shapes_prefix_r sample_shape b)
              (broadcast_shapes_refl (sample_shape ++ b))
              (expandable_prefix sample_shape b)
              (expandable_refl (sample_shape ++ b)))
    as (x & Hx & Ex).
  exists x, rates. split; [exact Erates|]. split.
  - eapply entries_ext; [exact Ex|].
    intros idx Hv. cbv beta zeta. rewrite !(bidx_id Hv).
    unfold approx_element. reflexivity.
  - unfold Binomial_sample_approx. fold b P N.
    rewrite Hm. cbn [bind]. rewrite Hmean. cbn [bind].
    rewrite Hpq. cbn [bind]. rewrite Hvar. cbn [bind].
    rewrite Hdf. cbn [bind]. rewrite Hrates. cbn [bind].
    unfold torch_poisson.
    destruct (all_elements (leb_R 0) rates); cbn [bind]; [|reflexivity].
    rewrite Hrs. cbn [bind]. rewrite Hres. cbn [bind].
    rewrite Hc. cbn [bind]. rewrite Hr'. cbn [bind]. exact Hx.
Qed.

(** The approximate branch runs to the end when no rate is negative. *)
Lemma Binomial_sample_approx_entries (rng : Rng) (d : Binomial.obj)
    (sample_shape : Shape) :
  Binomial_wf d -> Rng_wf rng ->
  (forall i, valid_index (Binomial._batch_shape d) i ->
     (0 <= get (Binomial_probs d) i * (1 - get (Binomial_probs d) i)
           * get (Binomial.total_count d) i)%R) ->
  exists x rates,
    Binomial_sample_approx rng d sample_shape = Ok x /\
    entries rates (sample_shape ++ Binomial._batch_shape d)
      (fun idx =>
         let i := bidx (Binomial._batch_shape d) idx in
         (get (Binomial_probs d) i * (1 - get (Binomial_probs d) i)
          * get (Binomial.total_count d) i)%R) /\
    entries x (sample_shape ++ Binomial._batch_shape d)
      (fun idx =>
         let i := bidx (Binomial._batch_shape d) idx in
         approx_element (get (Binomial_probs d) i)
                        (get (Binomial.total_count d) i)
                        (get (poisson rng rates) idx)).
Proof.
  intros Wd Hrng Hnn.
  destruct (Binomial_sample_approx_steps sample_shape Wd Hrng)
    as (x & rates & Erates & Ex & Hrun).
  exists x, rates. split; [|split; [exact Erates | exact Ex]].
  rewrite Hrun.
  rewrite (all_elements_entries (leb_R 0) Erates); [reflexivity|].
  intros idx Hv. cbv zeta. apply leb_R_true. apply Hnn.
  apply bidx_valid with (s := sample_shape ++ Binomial._batch_shape d);
    [apply expandable_prefix | exact Hv].
Qed.

(** What the approximate branch has computed when it returns. *)
Lemma Binomial_sample_approx_result (rng : Rng) (d : Binomial.obj)
    (sample_shape : Shape) (x : t R) :
  Binomial_wf d -> Rng_wf rng ->
  Binomial_sample_approx rng d sample_shape = Ok x ->
  exists rates,
    entries rates (sample_shape ++ Binomial._batch_shape d)
      (fun idx =>
         let i := bidx (Binomial._batch_shape d) idx in
         (get (Binomial_probs d) i * (1 - get (Binomial_probs d) i)
          * get (Binomial.total_count d) i)%R) /\
    entries x (sample_shape ++ Binomial._batch_shape d)
      (fun idx =>
         let i := bidx (Binomial._batch_shape d) idx in
         approx_element (get (Binomial_probs d) i)
                        (get (Binomial.total_count d) i)
                        (get (poisson rng rates) idx)).
Proof.
  intros Wd Hrng Hx.
  destruct (Binomial_sample_approx_steps sample_shape Wd Hrng)
    as (x' & rates & Erates & Ex & Hrun).
  rewrite Hx in Hrun.
  destruct (all_elements (leb_R 0) rates); [|discriminate].
  injection Hrun as ->. now exists rates.
Qed.

(** What [Binomial.sample] has decided when it returns a sample of the
    approximate branch. *)
Lemma Binomial_sample_approx_inv (rng : Rng) (d : Binomial.obj)
    (sample_shape : Shape) (x : t R) :
  Binomial_sample rng d sample_shape = Ok (Approximate, x) ->
  Binomial_sample_approx rng d sample_shape = Ok x /\
  exists m, tmin (Binomial.total_count d) = Ok m /\
            pyfloat_lt (Binomial.approx_sample_thresh d) m = Ok true.
Proof.
  unfold Binomial_sample.
  destruct (pyfloat_lt_inf _).
  - destruct (tmin (Binomial.total_count d)) as [m|]; [|discriminate].
    cbn [bind].
    destruct (pyfloat_lt _ m) as [[|]|] eqn:Hlt; cbn [bind];
      try discriminate.
    + destruct (Binomial_sample_approx rng d sample_shape) as [x'|];
        [|discriminate].
      cbn [bind]. intros [= <-]. split; [reflexivity|]. now exists m.
    + destruct (binomial rng d sample_shape); discriminate.
  - destruct (binomial rng d sample_shape); discriminate.
Qed.

Lemma Int_part_nonneg (x : R) : (0 <= x)%R -> (0 <= Int_part x)%Z.
Proof.
  intros Hx. destruct (base_Int_part x) as (_ & H).
  assert (Hlt : (IZR (-1) < IZR (Int_part x))%R) by (simpl; lra).
  apply lt_IZR in Hlt. lia.
Qed.

Lemma round_nonneg (x : R) : (0 <= x)%R -> (0 <= round x)%R.
Proof.
  intros Hx. pose proof (Int_part_nonneg Hx) as Hn. unfold round.
  assert (H0 : (0 <= IZR (Int_part x))%R) by (now apply IZR_le).
  assert (H1 : (0 <= IZR (Int_part x + 1))%R) by (apply IZR_le; lia).
  destruct (Rlt_dec _ _); [exact H0|].
  destruct (Rlt_dec _ _); [exact H1|].
  destruct (Z.even _); assumption.
Qed.

(** The element computed by the source is the one the six steps
    describe. *)
Lemma approx_element_clamped_poisson (prob n X : R) :
  approx_element prob n X = clamped_poisson prob n X.
Proof.
  unfold approx_element, clamped_poisson, ltb_R, Rmin.
  destruct (Rle_dec prob (1 - prob)) as [Hle | Hgt].
  - reflexivity.
  - replace (1 - (1 - prob))%R with prob by ring.
    replace ((1 - prob) * prob * n)%R with (prob * (1 - prob) * n)%R by ring.
    destruct (Rlt_dec prob (1 - prob)); [lra|].
    destruct (Rlt_dec prob prob); [lra|]. reflexivity.
Qed.

Lemma clamped_poisson_variance_eq (prob n : R) :
  clamped_poisson_variance prob n = (prob * (1 - prob) * n)%R.
Proof.
  unfold clamped_poisson_variance, Rmin.
  destruct (Rle_dec prob (1 - prob)); ring.
Qed.

Lemma approx_element_in_range (prob n X : R) :
  (0 <= prob <= 1)%R -> (0 <= n)%R -> (0 <= X)%R ->
  (0 <= approx_element prob n X <= n)%R.
Proof.
  intros Hp Hn HX. unfold approx_element.
  assert (Hd : (0 <= Rmin prob (1 - prob) * n - prob * (1 - prob) * n)%R).
  { assert (H1 : (0 <= prob * prob * n)%R)
      by (apply Rmult_le_pos; [apply Rmult_le_pos|]; lra).
    assert (H2 : (0 <= (1 - prob) * (1 - prob) * n)%R)
      by (apply Rmult_le_pos; [apply Rmult_le_pos|]; lra).
    unfold Rmin. destruct (Rle_dec prob (1 - prob)); lra. }
  pose proof (round_nonneg Hd) as Hs.
  set (shift := round _) in *.
  assert (Hr : (0 <= Rmin (X + shift) n <= n)%R).
  { unfold Rmin. destruct (Rle_dec (X + shift) n); lra. }
  destruct (ltb_R prob (1 - prob)); lra.
Qed.

Lemma get_in_data {A} `{Dflt A} (x : t A) (idx : Index) :
  wf x -> valid_index (shape x) idx -> In (get x idx) (data x).
Proof.
  intros Hw Hv. unfold get. apply nth_In.
  unfold wf in Hw. rewrite Hw. now apply ravel_lt.
Qed.


Lemma Binomial_wf_sample (thresh : pyfloat) :
  pyfloat_ge0 thresh = true ->
  Binomial_wf
    (Binomial.mk (of_list [10; 20]%R) (Some (of_list [1 / 4; 3 / 4]%R)) None
                 thresh [2] false).
Proof.
  intros Hge. unfold Binomial_wf; simpl.
  repeat split; auto. left; discriminate.
Qed.

Lemma Rng_wf_const : Rng_wf rng_const.
Proof.
  intros rates Hw. simpl. repeat split.
  - unfold wf, map1 in *; simpl. now rewrite length_map.
  - apply Forall_forall. intros x Hx.
    apply in_map_iff in Hx as (y & <- & _). now exists 3.
Qed.

Lemma binomial_approx_wf : Binomial_wf binomial_approx.
Proof. apply Binomial_wf_sample. simpl. apply leb_R_true. lra. Qed.

Lemma binomial_sample_min :
  is_min 10 (data (Binomial.total_count binomial_approx)).
Proof.
  split; [now left|]. simpl.
  constructor; [lra|]. constructor; [lra | constructor].
Qed.

(** On Binomial([10,20], [1/4,3/4]) no rate is negative and the steps of
    the approximate branch run to the end. *)
Lemma binomial_approx_steps_run :
  exists x, Binomial_sample_approx rng_const binomial_approx [3] = Ok x.
Proof.
  destruct (Binomial_sample_approx_entries [3]
              binomial_approx_wf Rng_wf_const) as (x & _ & Hx & _).
  - intros i Hv. index_cases Hv; run; lra.
  - now exists x.
Qed.



(** C4: for a Binomial with probs in [0,1], every sample the approximate
    branch returns has the extended shape, equals at each index the
    outcome of the clamped-Poisson steps on the batch element's [prob]
    and [total_count] and on the Poisson draw of rate [variance], and
    lies in [0, total_count]. *)
Theorem Binomial_approx_sample_in_range (rng : Rng) (d : Binomial.obj)
    (sample_shape : Shape) (x : t R) :
  Binomial_wf d -> Rng_wf rng ->
  (forall i, valid_index (Binomial._batch_shape d) i ->
     (0 <= get (Binomial_probs d) i <= 1)%R) ->
  Binomial_sample rng d sample_shape = Ok (Approximate, x) ->
  shape x = sample_shape ++ Binomial._batch_shape d /\
  exists rates,
    entries rates (sample_shape ++ Binomial._batch_shape d)
      (fun idx =>
         let i := bidx (Binomial._batch_shape d) idx in
         clamped_poisson_variance (get (Binomial_probs d) i)
                                  (get (Binomial.total_count d) i)) /\
    forall idx,
      valid_index (sample_shape ++ Binomial._batch_shape d) idx ->
      let i := bidx (Binomial._batch_shape d) idx in
      get x idx = clamped_poisson (get (Binomial_probs d) i)
                                  (get (Binomial.total_count d) i)
                                  (get (poisson rng rates) idx) /\
      (0 <= get x idx <= get (Binomial.total_count d) i)%R.
Proof.
  intros Wd Hrng Hp Hs.
  apply Binomial_sample_approx_inv in Hs as (Hx & m & Hm & Hlt).
  destruct (Binomial_sample_approx_result sample_shape Wd Hrng Hx)
    as (rates & Erates & Ex).
  destruct Wd as (Wt & St & _ & _ & _ & Hge).
  destruct (Binomial.approx_sample_thresh d) as [r| | | |q];
    simpl in Hge, Hlt; try discriminate.
  injection Hlt as Hlt. apply ltb_R_true in Hlt.
  unfold leb_R in Hge. destruct (Rle_dec 0 r) as [Hr|]; [|discriminate].
  apply tmin_spec in Hm. destruct Hm as (_ & Hall).
  rewrite Forall_forall in Hall.
  split; [destruct Ex; assumption|].
  exists rates. split.
  - eapply entries_ext; [exact Erates|].
    intros idx _. cbv zeta. now rewrite clamped_poisson_variance_eq.
  - intros idx Hv. cbv zeta.
    destruct Ex as (_ & _ & Gx). rewrite (Gx _ Hv). cbv zeta.
    assert (Hi : valid_index (Binomial._batch_shape d)
                   (bidx (Binomial._batch_shape d) idx)).
    { apply bidx_valid with (s := sample_shape ++ Binomial._batch_shape d);
        [apply expandable_prefix | exact Hv]. }
    split; [apply approx_element_clamped_poisson|].
    apply approx_element_in_range.
    + now apply Hp.
    + assert (Hin : In (get (Binomial.total_count d)
                          (bidx (Binomial._batch_shape d) idx))
                       (data (Binomial.total_count d))).
      { apply get_in_data; [exact Wt | now rewrite St]. }
      specialize (Hall _ Hin). simpl in Hall. lra.
    + destruct Erates as (Sr & Wr & _).
      destruct (Hrng rates Wr) as (WX & SX & HX).
      rewrite Forall_forall in HX.
      destruct (HX (get (poisson rng rates) idx)) as (k & ->).
      * apply get_in_data; [exact WX | now rewrite SX, Sr].
      * apply pos_INR.
Qed.

Lemma binomial_approx_runs :
  exists x,
    Binomial_sample rng_const binomial_approx [3] = Ok (Approximate, x).
Proof.
  destruct binomial_approx_steps_run as (x & Hx).
  exists x. unfold Binomial_sample. rewrite Hx.
  rewrite (proj2 (tmin_spec _ _) binomial_sample_min). cbn.
  unfold ltb_R. destruct (Rlt_dec 5 10) as [|Hn]; [reflexivity | lra].
Qed.

Lemma Binomial_approx_sample_in_range_witness :
  exists x,
    Binomial_sample rng_const binomial_approx [3] = Ok (Approximate, x) /\
    shape x = [3; 2] /\
    (0 <= get x [2; 1]%nat <= 20)%R.
Proof.
  pose proof binomial_approx_wf as Wa.
  assert (Hp : forall i, valid_index (Binomial._batch_shape binomial_approx) i ->
                 (0 <= get (Binomial_probs binomial_approx) i <= 1)%R).
  { intros i Hv. index_cases Hv; run; lra. }
  destruct binomial_approx_runs as (x & Hx).
  exists x. split; [exact Hx|].
  destruct (Binomial_approx_sample_in_range [3] Wa Rng_wf_const Hp Hx)
    as (Hs & rates & _ & Hr).
  split; [exact Hs|].
  assert (Hv : valid_index [3; 2] [2; 1]) by (repeat constructor).
  exact (proj2 (Hr [2; 1] Hv)).
Defined.

(** ** Geometric.log_prob *)













(** ** Categorical *)

Lemma numel_ones (m : nat) : numel (repeat 1 m) = 1.
Proof. induction m as [|m IH]; simpl; [reflexivity | lia]. Qed.

Lemma ravel_ones (m : nat) (idx : Index) :
  valid_index (repeat 1 m) idx -> ravel (repeat 1 m) idx = 0.
Proof.
  revert idx. induction m as [|m IH]; intros idx Hv; simpl in *.
  - now inversion Hv.
  - inversion Hv as [|i d r s Hi Hr]; subst.
    rewrite (IH _ Hr). lia.
Qed.

Lemma repeat_snoc {A} (a : A) (m : nat) : repeat a m ++ [a] = repeat a (S m).
Proof. induction m as [|m IH]; simpl; [reflexivity | now rewrite IH]. Qed.

Lemma support_tensor_entries (k m : nat) :
  entries (support_tensor k m) (k :: repeat 1 m)
          (fun idx => Z.of_nat (hd 0 idx)).
Proof.
  unfold support_tensor. repeat split.
  - unfold wf; simpl. rewrite length_map, length_seq, numel_ones. lia.
  - intros idx Hv. inversion Hv as [|i d r s Hi Hr]; subst.
    unfold get; simpl. rewrite numel_ones, (ravel_ones _ Hr).
    replace (i * 1 + 0) with i by lia.
    rewrite nth_indep with (d' := Z.of_nat 0)
      by (now rewrite length_map, length_seq).
    rewrite map_nth, seq_nth by exact Hi. reflexivity.
Qed.

Lemma filter_known_ones (m : nat) :
  filter (fun z => negb (z =? -1)%Z) (repeat 1%Z m) = repeat 1%Z m.
Proof. induction m as [|m IH]; simpl; [reflexivity | now rewrite IH]. Qed.

Lemma prod_ones (m : nat) :
  fold_right Nat.mul 1 (map Z.to_nat (repeat 1%Z m)) = 1.
Proof.
  induction m as [|m IH]; [reflexivity|].
  cbn [repeat map fold_right]. rewrite IH. reflexivity.
Qed.

Lemma map_infer_ones (n m : nat) :
  map (fun z => if (z =? -1)%Z then n else Z.to_nat z) (repeat 1%Z m)
  = repeat 1 m.
Proof. induction m as [|m IH]; simpl; [reflexivity | now rewrite IH]. Qed.

Lemma infer_shape_support (k m : nat) :
  infer_shape k ((-1)%Z :: repeat 1%Z m) = Ok (k :: repeat 1 m).
Proof.
  unfold infer_shape. cbn [filter Z.eqb Pos.eqb negb].
  rewrite filter_known_ones, prod_ones. cbn [length].
  rewrite repeat_length.
  replace (S m - m) with 1 by lia.
  rewrite Nat.mod_1_r. cbn [Nat.eqb orb negb map Z.eqb Pos.eqb].
  now rewrite Nat.div_1_r, map_infer_ones.
Qed.

Lemma shape_logits (d : Categorical.obj) :
  Categorical_wf d ->
  shape (Categorical.logits d)
  = Categorical_batch_shape d ++ [Categorical_num_events d].
Proof. intros (_ & Hne & _). now apply shape_snoc. Qed.

(** [enumerate_support(expand=False)] is the support tensor, tagged. *)
Lemma enumerate_support_unexpanded (d : Categorical.obj) :
  Categorical_enumerate_support d false
  = Ok (mkValue (support_tensor (Categorical_num_events d)
                   (length (Categorical_batch_shape d)))
                (Some (Categorical.id d))).
Proof.
  unfold Categorical_enumerate_support, torch_Categorical_enumerate_support,
    view, arange.
  cbn [shape numel]. rewrite Nat.mul_1_r, infer_shape_support.
  reflexivity.
Qed.

Lemma mask_id (s : Shape) (idx : Index) :
  valid_index s idx -> mask s idx = idx.
Proof.
  intros Hv. rewrite <- (bidx_id Hv) at 2. unfold bidx.
  now rewrite (valid_index_length Hv), Nat.sub_diag.
Qed.

Lemma valid_index_snoc_inv (s : Shape) (k : nat) (idx : Index) :
  valid_index (s ++ [k]) idx ->
  exists b j, idx = b ++ [j] /\ valid_index s b /\ j < k.
Proof.
  intros Hv. apply Forall2_app_inv_r in Hv as (b & r & Hb & Hr & ->).
  inversion Hr as [|j d r' s' Hj Hr']; subst. inversion Hr'; subst.
  now exists b, j.
Qed.

Lemma numel_snoc (s : Shape) (k : nat) : numel (s ++ [k]) = numel s * k.
Proof. induction s as [|d s IH]; simpl; [lia | rewrite IH; lia]. Qed.

Lemma ravel_snoc (s : Shape) (k : nat) (idx : Index) (j : nat) :
  length idx = length s ->
  ravel (s ++ [k]) (idx ++ [j]) = ravel s idx * k + j.
Proof.
  revert idx. induction s as [|d s IH]; intros [|i idx] Hl; simpl in *;
    try discriminate; [lia|].
  rewrite IH, numel_snoc by lia. lia.
Qed.

Lemma compat_ones (l1 l2 b : list nat) :
  Forall (eq 1) l1 -> length b <= length l1 ->
  forallb compat (combine (l1 ++ l2) b) = true.
Proof.
  intros H. revert b. induction H as [|x l1 Hx Hl1 IH]; intros [|y b] Hl;
    simpl in *; try reflexivity; try lia.
  - now rewrite combine_nil.
  - subst x. cbn. apply IH. lia.
Qed.

Lemma Forall_rev_ones (m : nat) : Forall (eq 1) (rev (repeat 1 m)).
Proof.
  apply Forall_forall. intros x Hx. apply in_rev in Hx.
  symmetry. exact (repeat_spec _ _ _ Hx).
Qed.

(** The enumerated support passes validation. *)
Lemma validate_support_tensor (d : Categorical.obj) :
  Categorical_validate_sample d
    (support_tensor (Categorical_num_events d)
                    (length (Categorical_batch_shape d)))
  = Ok tt.
Proof.
  unfold Categorical_validate_sample, validate_sample, support_tensor.
  cbn [shape]. change (length (@nil nat)) with 0.
  rewrite Nat.sub_0_r, skipn_all. cbn [bind require].
  rewrite app_nil_r. cbn [rev].
  rewrite compat_ones; cbn [bind require].
  - unfold all_elements; cbn [data].
    replace (forallb _ _) with true; [reflexivity|].
    symmetry. apply forallb_forall. intros z Hz.
    apply in_map_iff in Hz as (k & <- & Hk). apply in_seq in Hk.
    unfold integer_interval. apply andb_true_intro.
    split; [apply Z.leb_le | apply Z.leb_le]; lia.
  - apply Forall_rev_ones.
  - rewrite !length_rev, repeat_length. lia.
Qed.

Lemma bc_aligned_ones_any (b : Shape) :
  bc_aligned (repeat 1 (length b)) b = Some b.
Proof.
  induction b as [|x b IH]; simpl; [reflexivity|].
  now rewrite bc_dim_1_l, IH.
Qed.

(** The unsqueezed support against the logits: shape (k, batch, k). *)
Lemma broadcast_support_logits (k : nat) (b : Shape) :
  broadcast_shapes (k :: repeat 1 (S (length b))) (b ++ [k])
  = Some (k :: b ++ [k]).
Proof.
  rewrite <- repeat_snoc.
  change (k :: repeat 1 (length b) ++ [1])
    with ((k :: repeat 1 (length b)) ++ [1]).
  rewrite broadcast_shapes_snoc_eq, bc_dim_1_l.
  replace (broadcast_shapes (k :: repeat 1 (length b)) b)
    with (Some (k :: b)); [reflexivity|].
  symmetry. unfold broadcast_shapes, pad. cbn [length].
  rewrite repeat_length, Nat.max_l, Nat.sub_diag by lia.
  replace (S (length b) - length b) with 1 by lia.
  cbn [repeat app bc_aligned]. now rewrite bc_dim_1_r, bc_aligned_ones_any.
Qed.

Lemma hd_bidx_support (k : nat) (ones s : Shape) (idx : Index) :
  length ones = length s -> valid_index (k :: s) idx ->
  hd 0 (bidx (k :: ones) idx) = hd 0 idx.
Proof.
  intros Hl Hv. pose proof (valid_index_length Hv) as Hlen.
  inversion Hv as [|i d r s' Hi Hr]; subst.
  unfold bidx. cbn [length] in *. rewrite Hl.
  replace (S (length r) - S (length s)) with 0 by lia.
  cbn. destruct (Nat.eqb_spec k 1); [lia | reflexivity].
Qed.

Lemma bidx_drop_head (s : Shape) (i : nat) (idx : Index) :
  valid_index s idx -> bidx s (i :: idx) = idx.
Proof.
  intros Hv. unfold bidx. cbn [length].
  rewrite (valid_index_length Hv).
  replace (S (length s) - length s) with 1 by lia.
  cbn [skipn]. now apply mask_id.
Qed.

Lemma narrow_last_1_entries {A} `{Dflt A}
    (x : t A) (s : Shape) (k : nat) (g : Index -> A) :
  entries x (s ++ [k]) g -> 0 < k ->
  exists y, narrow_last_1 x = Ok y /\ entries y (s ++ [1]) g.
Proof.
  intros (Hs & _ & Hg) Hk. unfold narrow_last_1.
  assert (Hne : shape x <> []) by (rewrite Hs; now destruct s).
  destruct (shape x) as [|d r] eqn:E; [congruence|].
  rewrite Hs, removelast_last, last_last.
  replace (Nat.min 1 k) with 1 by lia.
  eexists. split; [reflexivity|].
  eapply entries_ext; [apply entries_tabulate|].
  intros idx Hv. cbv beta. apply Hg.
  apply valid_index_snoc_inv in Hv as (b & j & -> & Hb & Hj).
  apply valid_index_snoc; [exact Hb | lia].
Qed.

Lemma forallb_leb_refl (s : Shape) :
  forallb (fun de => fst de <=? snd de) (combine s s) = true.
Proof.
  induction s as [|d s IH]; simpl; [reflexivity|].
  now rewrite Nat.leb_refl, IH.
Qed.

Lemma gather_last_entries {A} `{Dflt A}
    (input : t A) (index : t Z) (s : Shape) (k j : nat)
    (gx : Index -> Z) :
  shape input = s ++ [k] ->
  entries index (s ++ [j]) gx ->
  (forall idx, valid_index (s ++ [j]) idx ->
     (0 <= gx idx < Z.of_nat k)%Z) ->
  gather_last input index
  = Ok (tabulate (s ++ [j]) (fun idx =>
          get input (removelast idx ++ [Z.to_nat (get index idx)]))).
Proof.
  intros Hi Ex Hr. pose proof Ex as (Hs & _ & _). unfold gather_last, dim.
  rewrite Hi, Hs, !length_app, Nat.eqb_refl. cbn [negb].
  rewrite !removelast_last, forallb_leb_refl. cbn [negb].
  rewrite last_last.
  assert (Hall : all_elements
                   (fun v : Z => (0 <=? v)%Z && (v <? Z.of_nat k)%Z) index
                 = true).
  { apply (all_elements_entries _ Ex). intros idx Hv.
    destruct (Hr idx Hv) as (H0 & H1).
    apply andb_true_intro. split; [now apply Z.leb_le | now apply Z.ltb_lt]. }
  unfold all_elements in Hall. now rewrite Hall.
Qed.

Lemma norm_dim_nonneg (n i : nat) :
  i < n -> norm_dim n (Z.of_nat i) = Ok i.
Proof.
  intros Hi. unfold norm_dim.
  destruct (Z.ltb_spec (Z.of_nat i) 0); [lia|].
  destruct (Z.leb_spec 0 (Z.of_nat i)); [|lia].
  destruct (Z.ltb_spec (Z.of_nat i) (Z.of_nat n)); [|lia].
  cbn. now rewrite Nat2Z.id.
Qed.

Lemma norm_dim_neg (n k : nat) :
  1 <= k <= n -> norm_dim n (- Z.of_nat k) = Ok (n - k).
Proof.
  intros Hk. unfold norm_dim.
  destruct (Z.ltb_spec (- Z.of_nat k) 0); [|lia].
  destruct (Z.leb_spec 0 (- Z.of_nat k + Z.of_nat n)); [|lia].
  destruct (Z.ltb_spec (- Z.of_nat k + Z.of_nat n) (Z.of_nat n)); [|lia].
  cbn. f_equal. lia.
Qed.

Lemma set_nth_last {A} (l : list A) (x y : A) :
  set_nth (length l) x (l ++ [y]) = l ++ [x].
Proof. induction l as [|a l IH]; simpl; [reflexivity | now rewrite IH]. Qed.

Lemma swap_ends (x y : nat) (mid : list nat) :
  swap 0 (S (length mid)) (x :: mid ++ [y]) = y :: mid ++ [x].
Proof.
  unfold swap. cbn [nth]. rewrite nth_middle. cbn [set_nth].
  now rewrite set_nth_last.
Qed.

(** The gather-based [log_prob] on the enumerated support. *)
Lemma torch_log_prob_on_support (d : Categorical.obj) :
  Categorical_wf d ->
  torch_Categorical_log_prob d
    (support_tensor (Categorical_num_events d)
                    (length (Categorical_batch_shape d)))
  = Ok (support_log_prob d).
Proof.
  intros Wd. pose proof (shape_logits Wd) as Hsh.
  destruct Wd as (Wl & _ & Hk).
  set (k := Categorical_num_events d) in *.
  set (b := Categorical_batch_shape d) in *.
  unfold torch_Categorical_log_prob.
  rewrite validate_support_tensor. fold k b.
  replace (_ <- (if Categorical._validate_args d then Ok tt else Ok tt) ;; _)
    with (let value := unsqueeze_last (support_tensor k (length b)) in
          ' (value, log_pmf) <- broadcast_tensors value (Categorical.logits d) ;;
          value <- narrow_last_1 value ;;
          g <- gather_last log_pmf value ;; Ok (squeeze_last g))
    by (now destruct (Categorical._validate_args d)).
  cbv zeta.
  assert (Hu : unsqueeze_last (support_tensor k (length b))
               = support_tensor k (S (length b))).
  { unfold unsqueeze_last, support_tensor. cbn [shape data].
    now rewrite <- app_comm_cons, repeat_snoc. }
  rewrite Hu.
  pose proof (entries_self Wl) as El. rewrite Hsh in El.
  destruct (broadcast_tensors_entries
              (support_tensor_entries k (S (length b))) El
              (broadcast_support_logits k b))
    as (v & pmf & -> & Ev & Epmf). cbn [bind].
  change (k :: b ++ [k]) with ((k :: b) ++ [k]) in Ev, Epmf.
  destruct (narrow_last_1_entries (k :: b) Ev Hk) as (ix & -> & Eix).
  cbn [bind].
  rewrite (gather_last_entries pmf (k :: b) k 1 (proj1 Epmf) Eix).
  - cbn [bind]. unfold support_log_prob. fold k b. do 2 f_equal.
    apply tabulate_ext. intros idx Hv.
    destruct Eix as (_ & _ & Gix). rewrite (Gix _ Hv).
    destruct Epmf as (_ & _ & Gpmf).
    apply (valid_index_snoc_inv (k :: b) 1) in Hv
      as (kb & j & -> & Hkb & Hj).
    assert (Hfull : valid_index (k :: b ++ [1]) (kb ++ [j]))
      by (now apply (valid_index_snoc (s := k :: b))).
    rewrite (@hd_bidx_support k (repeat 1 (S (length b))) (b ++ [1]))
      by (rewrite ?repeat_length, ?length_app; simpl; auto; lia).
    inversion Hkb as [|i d0 bi s0 Hi Hbi]; subst.
    rewrite removelast_last. cbn [app hd tl].
    rewrite Nat2Z.id, removelast_last.
    assert (Hvi : valid_index (b ++ [k]) (bi ++ [i]))
      by (now apply valid_index_snoc).
    rewrite Gpmf by (now constructor).
    now rewrite (bidx_drop_head i Hvi).
  - intros idx Hv. apply (valid_index_snoc_inv (k :: b) 1) in Hv
      as (kb & j & -> & Hkb & Hj).
    assert (Hfull : valid_index (k :: b ++ [1]) (kb ++ [j]))
      by (now apply (valid_index_snoc (s := k :: b))).
    rewrite (@hd_bidx_support k (repeat 1 (S (length b))) (b ++ [1]))
      by (rewrite ?repeat_length, ?length_app; simpl; auto; lia).
    inversion Hkb as [|i d0 bi s0 Hi Hbi]; subst. cbn [app hd]. lia.
Qed.

Lemma size_support_first (k m : nat) : size (support_tensor k m) 0 = Ok k.
Proof.
  unfold size, dim, support_tensor. cbn [shape length].
  change 0%Z with (Z.of_nat 0). rewrite norm_dim_nonneg by lia.
  reflexivity.
Qed.

Lemma size_snoc_last {A} (x : t A) (s : Shape) (k : nat) :
  shape x = s ++ [k] -> size x (-1) = Ok k.
Proof.
  intros Hs. unfold size, dim. rewrite Hs, length_app. cbn [length].
  change (-1)%Z with (- Z.of_nat 1)%Z. rewrite norm_dim_neg by lia.
  cbn [bind]. replace (length s + 1 - 1) with (length s) by lia.
  now rewrite nth_middle.
Qed.

(** The reshape/transpose/squeeze path on the enumerated support. *)
Lemma fast_log_prob_on_support (env : TorchEnv) (d : Categorical.obj) :
  Categorical_wf d ->
  Categorical_log_prob env d
    (mkValue (support_tensor (Categorical_num_events d)
                             (length (Categorical_batch_shape d)))
             (Some (Categorical.id d)))
  = Ok (support_log_prob d).
Proof.
  intros Wd. pose proof (shape_logits Wd) as Hsh.
  destruct Wd as (Wl & _ & Hk).
  set (k := Categorical_num_events d) in *.
  set (b := Categorical_batch_shape d) in *.
  unfold Categorical_log_prob.
  cbn [_pyro_categorical_support tensor]. rewrite Nat.eqb_refl.
  rewrite validate_support_tensor. fold k b.
  rewrite size_support_first, (@size_snoc_last _ _ _ _ Hsh). cbn [bind].
  rewrite Nat.eqb_refl. cbn [assert].
  replace (_ <- (if negb (tracing env)
                 then _ <- (if Categorical._validate_args d
                            then Ok tt else Ok tt) ;; Ok tt
                 else Ok tt) ;; _)
    with (logits <-
            (if dim (Categorical.logits d) <=? dim (support_tensor k (length b))
             then reshape (Categorical.logits d)
                    (repeat 1 (1 + dim (support_tensor k (length b))
                               - dim (Categorical.logits d))
                     ++ shape (Categorical.logits d))
             else Ok (Categorical.logits d)) ;;
          _ <- (if negb (tracing env)
                then s <- size logits
                            (-1 - Z.of_nat (dim (support_tensor k (length b)))) ;;
                     assert (s =? 1)
                else Ok tt) ;;
          x <- transpose logits
                 (-1 - Z.of_nat (dim (support_tensor k (length b)))) (-1) ;;
          Ok (squeeze_last x))
    by (now destruct (tracing env), (Categorical._validate_args d)).
  assert (Hdv : dim (support_tensor k (length b)) = S (length b))
    by (unfold dim, support_tensor; cbn [shape length];
        now rewrite repeat_length).
  assert (Hdl : dim (Categorical.logits d) = S (length b))
    by (unfold dim; rewrite Hsh, length_app; cbn [length]; lia).
  rewrite Hdv, Hdl, Nat.leb_refl.
  replace (1 + S (length b) - S (length b)) with 1 by lia.
  cbn [repeat app]. unfold reshape. cbn [numel].
  rewrite Nat.mul_1_l, Nat.eqb_refl. cbn [bind].
  set (logits' := mk (1 :: shape (Categorical.logits d))
                     (data (Categorical.logits d))).
  assert (Hd' : dim logits' = S (S (length b)))
    by (unfold dim, logits'; cbn [shape length]; now rewrite <- Hdl).
  replace (-1 - Z.of_nat (S (length b)))%Z
    with (- Z.of_nat (S (S (length b))))%Z by lia.
  assert (Hsz : size logits' (- Z.of_nat (S (S (length b)))) = Ok 1).
  { unfold size. rewrite Hd', norm_dim_neg by lia.
    now rewrite Nat.sub_diag. }
  rewrite Hsz. cbn [bind].
  replace (_ <- (if negb (tracing env) then assert (1 =? 1) else Ok tt) ;; _)
    with (x <- transpose logits' (- Z.of_nat (S (S (length b)))) (-1) ;;
          Ok (squeeze_last x))
    by (now destruct (tracing env)).
  unfold transpose. rewrite Hd', norm_dim_neg by lia.
  change (-1)%Z with (- Z.of_nat 1)%Z. rewrite norm_dim_neg by lia.
  cbn [bind]. rewrite Nat.sub_diag.
  replace (S (S (length b)) - 1) with (S (length b)) by lia.
  unfold logits' at 1. cbn [shape]. rewrite Hsh, swap_ends.
  unfold support_log_prob. fold k b. do 2 f_equal.
  apply tabulate_ext. intros idx Hv.
  apply (valid_index_snoc_inv (k :: b) 1) in Hv as (kb & j & -> & Hkb & Hj).
  inversion Hkb as [|i d0 bi s0 Hi Hbi]; subst.
  assert (j = 0) by lia. subst j.
  rewrite <- (Forall2_length Hbi).
  cbn [app]. rewrite swap_ends. cbn [hd tl]. rewrite removelast_last.
  unfold get, logits'. cbn [shape data ravel]. reflexivity.
Qed.

Lemma squeeze_last_entries {A} `{Dflt A}
    (x : t A) (s : Shape) (g : Index -> A) :
  entries x (s ++ [1]) g ->
  entries (squeeze_last x) s (fun idx => g (idx ++ [0])).
Proof.
  intros (Hs & Hw & Hg). unfold squeeze_last.
  assert (Hne : shape x <> []) by (rewrite Hs; now destruct s).
  destruct (shape x) as [|d r] eqn:E; [congruence|].
  rewrite Hs, last_last, removelast_last. cbn [Nat.eqb].
  repeat split.
  - unfold wf in *. cbn [shape data]. rewrite Hw, E, Hs, numel_snoc. lia.
  - intros idx Hv. rewrite <- Hg by (apply valid_index_snoc; [exact Hv | lia]).
    unfold get. cbn [shape data]. rewrite E, Hs.
    rewrite ravel_snoc by (exact (valid_index_length Hv)).
    f_equal. lia.
Qed.

(** The table has shape (k, batch) and holds at [k :: b] the logit of
    category [k] in batch element [b]. *)
Lemma support_log_prob_entries (d : Categorical.obj) :
  entries (support_log_prob d)
          (Categorical_num_events d :: Categorical_batch_shape d)
          (logit_at d).
Proof.
  unfold support_log_prob.
  eapply entries_ext.
  - apply (squeeze_last_entries
             (Categorical_num_events d :: Categorical_batch_shape d)).
    apply entries_tabulate.
  - intros idx Hv. cbv beta. unfold logit_at.
    inversion Hv as [|i d0 bi s0 Hi Hbi]; subst.
    cbn [app hd tl]. now rewrite removelast_last.
Qed.

Lemma expand_spec_target (g : nat * Z -> nat) (b : Shape) (l : list nat) :
  length l = length b ->
  map (fun iz : nat * Z =>
         if (snd iz =? -1)%Z then g iz else Z.to_nat (snd iz))
      (combine l (map Z.of_nat b))
  = b.
Proof.
  revert l. induction b as [|x b IH]; intros [|i l] Hl;
    try discriminate; [reflexivity|].
  cbn [map combine fst snd]. rewrite IH by (simpl in Hl; lia).
  destruct (Z.eqb_spec (Z.of_nat x) (-1)); [lia|].
  now rewrite Nat2Z.id.
Qed.

Lemma expandable_support (k : nat) (b : Shape) :
  expandable (k :: repeat 1 (length b)) (k :: b) = true.
Proof.
  unfold expandable. cbn [length]. rewrite repeat_length, Nat.leb_refl.
  rewrite Nat.sub_diag. cbn [skipn combine forallb andb].
  unfold fits at 1. cbn [fst snd]. rewrite Nat.eqb_refl. cbn [orb andb].
  induction b as [|x b IH]; [reflexivity|].
  cbn [length repeat combine forallb]. rewrite IH.
  unfold fits. cbn [fst snd Nat.eqb]. now rewrite orb_true_r.
Qed.

(** [enumerate_support(expand=True)] returns an untagged value. *)
Lemma enumerate_support_expanded (d : Categorical.obj) :
  exists x,
    Categorical_enumerate_support d true = Ok (mkValue x None).
Proof.
  unfold Categorical_enumerate_support, torch_Categorical_enumerate_support,
    view, arange.
  cbn [shape numel]. rewrite Nat.mul_1_r, infer_shape_support.
  cbn [bind negb]. unfold expand_spec, dim. cbn [shape length].
  rewrite length_map, repeat_length, Nat.sub_diag.
  cbn [seq combine map fst snd Z.eqb Pos.eqb Nat.sub nth].
  rewrite expand_spec_target by apply length_seq.
  unfold expand. cbn [shape].
  rewrite expandable_support. cbn [bind]. eauto.
Qed.

(** C5: on a Categorical distribution (logits with a last axis over at
    least one category), [enumerate_support(expand=False)]
    returns a value tagged with the identity of the distribution;
    [log_prob] of that value, computed by reshape, transpose and squeeze of
    the logits, is the tensor that the gather-based [log_prob] computes on
    the same value, the table of the logits with the category axis moved
    to the front.  On a value that does not carry the tag of this
    distribution [log_prob] is the gather-based [log_prob], and so it is
    on the untagged result of [enumerate_support(expand=True)]. *)
Theorem Categorical_log_prob_paths (env : TorchEnv) (d : Categorical.obj) :
  Categorical_wf d ->
  (exists value out,
     Categorical_enumerate_support d false = Ok value /\
     _pyro_categorical_support value = Some (Categorical.id d) /\
     Categorical_log_prob env d value = Ok out /\
     torch_Categorical_log_prob d (tensor value) = Ok out /\
     entries out (Categorical_num_events d :: Categorical_batch_shape d)
             (logit_at d))
  /\
  (forall value,
     _pyro_categorical_support value <> Some (Categorical.id d) ->
     Categorical_log_prob env d value
     = torch_Categorical_log_prob d (tensor value))
  /\
  (exists value,
     Categorical_enumerate_support d true = Ok value /\
     _pyro_categorical_support value = None /\
     Categorical_log_prob env d value
     = torch_Categorical_log_prob d (tensor value)).
Proof.
  intros Wd. split; [|split].
  - eexists. exists (support_log_prob d).
    split; [apply enumerate_support_unexpanded|].
    split; [reflexivity|].
    split; [now apply fast_log_prob_on_support|].
    split; [now apply torch_log_prob_on_support|].
    apply support_log_prob_entries.
  - intros value Htag. unfold Categorical_log_prob.
    destruct (_pyro_categorical_support value) as [i|]; [|reflexivity].
    destruct (Nat.eqb_spec i (Categorical.id d)); [congruence | reflexivity].
  - destruct (enumerate_support_expanded d) as (x & Hx).
    exists (mkValue x None). split; [exact Hx|]. split; reflexivity.
Qed.

Lemma Categorical_log_prob_paths_witness :
  Categorical_wf categorical_sample /\
  exists value out,
    Categorical_enumerate_support categorical_sample false = Ok value /\
    Categorical_log_prob env_lenient categorical_sample value = Ok out /\
    torch_Categorical_log_prob categorical_sample (tensor value) = Ok out /\
    shape out = [3; 2] /\
    get out [2; 1] = 6%R.
Proof.
  assert (Wd : Categorical_wf categorical_sample).
  { split; [reflexivity|]. split; [discriminate|].
    unfold Categorical_num_events; simpl. lia. }
  split; [exact Wd|].
  destruct (Categorical_log_prob_paths env_lenient Wd)
    as ((value & out & He & _ & Hf & Hg & Eo) & _).
  exists value, out. split; [exact He|]. split; [exact Hf|].
  split; [exact Hg|].
  destruct Eo as (Hs & _ & Ho). split; [exact Hs|].
  rewrite Ho by (repeat constructor). reflexivity.
Defined.

(** ** What the constructor establishes *)

Lemma broadcast_tensors_wf {A B} `{Dflt A} `{Dflt B}
    (a : t A) (b : t B) (a' : t A) (b' : t B) :
  broadcast_tensors a b = Ok (a', b') ->
  wf a' /\ wf b' /\ shape a' = shape b'.
Proof.
  unfold broadcast_tensors.
  destruct (broadcast_shapes (shape a) (shape b)) as [s|]; [|discriminate].
  destruct (expand a s) as [x|] eqn:Ea; cbn [bind]; [|discriminate].
  destruct (expand b s) as [y|] eqn:Eb; cbn [bind]; [|discriminate].
  intros [= <- <-].
  destruct (expand_wf _ _ Ea) as (Wx & Sx).
  destruct (expand_wf _ _ Eb) as (Wy & Sy).
  repeat split; auto; congruence.
Qed.

(** An object that [Binomial.__init__] returns satisfies [Binomial_wf];
    in particular its threshold is a number that is not negative. *)
Lemma Binomial_init_wf (env : TorchEnv) (total_count : t R)
    (probs logits : option (t R)) (validate_args : option bool)
    (thresh : pyobj) (d : Binomial.obj) :
  Binomial_init env total_count probs logits validate_args thresh = Ok d ->
  Binomial_wf d.
Proof.
  unfold Binomial_init.
  destruct thresh as [x| |]; cbn [isinstance_Number assert bind];
    try discriminate.
  destruct (pyfloat_ge0 x) eqn:Hge; cbn [assert bind]; [|discriminate].
  destruct probs as [p|], logits as [l|]; try discriminate.
  - destruct (broadcast_tensors total_count p) as [[tc p']|] eqn:Hb;
      cbn [bind]; [|discriminate].
    destruct (broadcast_tensors_wf _ _ Hb) as (Wt & Wp & Hs).
    destruct (if resolve_validate env validate_args then _ else _);
      cbn [bind]; [|discriminate].
    intros [= <-]. unfold Binomial_wf; cbn.
    repeat split; auto. left; discriminate.
  - destruct (broadcast_tensors total_count l) as [[tc l']|] eqn:Hb;
      cbn [bind]; [|discriminate].
    destruct (broadcast_tensors_wf _ _ Hb) as (Wt & Wl & Hs).
    destruct (if resolve_validate env validate_args then _ else _);
      cbn [bind]; [|discriminate].
    intros [= <-]. unfold Binomial_wf; cbn.
    repeat split; auto. right; discriminate.
Qed.

(** * Further properties of the module *)

(** ** Expansion composes *)

Lemma mask_skipn (k : nat) (s : Shape) (l : Index) :
  skipn k (mask s l) = mask (skipn k s) (skipn k l).
Proof.
  revert s l. induction k as [|k IH]; intros s l; [reflexivity|].
  destruct s as [|d s]; [reflexivity|].
  destruct l as [|i l]; [simpl; unfold mask; now rewrite combine_nil|].
  cbn [skipn]. rewrite <- IH. reflexivity.
Qed.

Lemma length_mask (s : Shape) (l : Index) :
  length l = length s -> length (mask s l) = length s.
Proof.
  intros Hl. unfold mask. rewrite length_map, length_combine. lia.
Qed.

(** Masking by [a], after masking by a shape [a] fits in, is masking by
    [a]. *)
Lemma mask_mask (a s : Shape) (l : Index) :
  length a = length s ->
  forallb fits (combine a s) = true ->
  mask a (mask s l) = mask a l.
Proof.
  revert s l. induction a as [|x a IH]; intros [|d s] l Hl Hf;
    simpl in *; try discriminate; [reflexivity|].
  destruct l as [|i l]; [reflexivity|].
  apply andb_prop in Hf as [Hx Hf]. unfold mask in *. cbn [combine map fst snd].
  rewrite IH by (auto; lia). f_equal.
  unfold fits in Hx; cbn [fst snd] in Hx.
  destruct (Nat.eqb_spec x 1); [reflexivity|].
  rewrite orb_false_r in Hx. apply Nat.eqb_eq in Hx. subst d.
  destruct (Nat.eqb_spec x 1); [contradiction | reflexivity].
Qed.

Lemma skipn_skipn_plus {A} (j k : nat) (l : list A) :
  skipn j (skipn k l) = skipn (k + j) l.
Proof.
  revert l. induction k as [|k IH]; intros l; [reflexivity|].
  destruct l as [|a l]; [now rewrite !skipn_nil | apply IH].
Qed.

(** Reading through two expansions is reading through one. *)
Lemma bidx_compose (a s1 s2 : Shape) (idx : Index) :
  expandable a s1 = true -> expandable s1 s2 = true ->
  valid_index s2 idx ->
  bidx a (bidx s1 idx) = bidx a idx.
Proof.
  intros Ea E1 Hv. pose proof (valid_index_length Hv) as Hl.
  unfold expandable in Ea, E1.
  apply andb_prop in Ea as [La Fa]. apply andb_prop in E1 as [L1 _].
  apply Nat.leb_le in La, L1.
  unfold bidx at 1 3.
  assert (Lb : length (bidx s1 idx) = length s1).
  { unfold bidx. apply length_mask. rewrite length_skipn. lia. }
  rewrite Lb. unfold bidx. rewrite mask_skipn, skipn_skipn_plus, Hl.
  replace (length s2 - length s1 + (length s1 - length a))
    with (length s2 - length a) by lia.
  apply mask_mask; [|exact Fa].
  rewrite length_skipn. lia.
Qed.

Lemma fits_trans (x y z : nat) :
  fits (x, y) = true -> fits (y, z) = true -> fits (x, z) = true.
Proof.
  unfold fits; cbn [fst snd]. intros H1 H2.
  destruct (Nat.eqb_spec x 1); [apply orb_true_r|].
  rewrite orb_false_r in H1. apply Nat.eqb_eq in H1. subst y.
  destruct (Nat.eqb_spec x 1); [contradiction|].
  now rewrite orb_false_r in *.
Qed.

Lemma forallb_fits_trans (a b c : Shape) :
  length a = length b -> length b = length c ->
  forallb fits (combine a b) = true ->
  forallb fits (combine b c) = true ->
  forallb fits (combine a c) = true.
Proof.
  revert b c. induction a as [|x a IH]; intros [|y b] [|z c] L1 L2 H1 H2;
    simpl in *; try discriminate; [reflexivity|].
  apply andb_prop in H1 as [Hx H1]. apply andb_prop in H2 as [Hy H2].
  rewrite (fits_trans _ _ _ Hx Hy). simpl.
  apply (IH b c); auto; lia.
Qed.

Lemma combine_skipn {A B} (k : nat) (l1 : list A) (l2 : list B) :
  skipn k (combine l1 l2) = combine (skipn k l1) (skipn k l2).
Proof.
  revert l1 l2. induction k as [|k IH]; intros l1 l2; [reflexivity|].
  destruct l1 as [|a l1]; [reflexivity|].
  destruct l2 as [|b l2]; [simpl; now rewrite combine_nil|].
  apply IH.
Qed.

Lemma forallb_skipn {A} (f : A -> bool) (k : nat) (l : list A) :
  forallb f l = true -> forallb f (skipn k l) = true.
Proof.
  revert l. induction k as [|k IH]; intros l H; [exact H|].
  destruct l as [|a l]; [reflexivity|].
  simpl in H. apply andb_prop in H as [_ H]. now apply IH.
Qed.

Lemma expandable_trans (a s1 s2 : Shape) :
  expandable a s1 = true -> expandable s1 s2 = true ->
  expandable a s2 = true.
Proof.
  unfold expandable. intros Ea E1.
  apply andb_prop in Ea as [La Fa]. apply andb_prop in E1 as [L1 F1].
  apply Nat.leb_le in La, L1.
  apply andb_true_intro. split; [apply Nat.leb_le; lia|].
  apply (@forallb_fits_trans a (skipn (length s1 - length a) s1)).
  - rewrite length_skipn. lia.
  - rewrite !length_skipn. lia.
  - exact Fa.
  - apply (forallb_skipn _ (length s1 - length a)) in F1.
    rewrite combine_skipn, skipn_skipn_plus in F1.
    replace (length s2 - length s1 + (length s1 - length a))
      with (length s2 - length a) in F1 by lia.
    exact F1.
Qed.

Lemma expand_expand {A} `{Dflt A} (x y : t A) (s1 s2 : Shape) :
  expand x s1 = Ok y -> expandable s1 s2 = true ->
  expand y s2 = expand x s2.
Proof.
  unfold expand. destruct (expandable (shape x) s1) eqn:E1; [|discriminate].
  intros [= <-] E2. rewrite !shape_tabulate.
  rewrite E2, (expandable_trans _ _ _ E1 E2). f_equal.
  apply tabulate_ext. intros idx Hv.
  rewrite get_tabulate by (now apply bidx_valid with (s := s2)).
  now rewrite (bidx_compose _ _ E1 E2 Hv).
Qed.

Lemma expand_self {A} `{Dflt A} (x : t A) :
  wf x -> expand x (shape x) = Ok x.
Proof.
  intros Hw. unfold expand. rewrite expandable_refl. f_equal.
  transitivity (tabulate (shape x) (get x)); [|now apply tabulate_get].
  apply tabulate_ext. intros idx Hv. now rewrite (bidx_id Hv).
Qed.

Lemma expand_entry_compose (x y : option (t R)) (s1 s2 : Shape) :
  expand_entry x s1 = Ok y -> expandable s1 s2 = true ->
  expand_entry y s2 = expand_entry x s2.
Proof.
  destruct x as [p|]; simpl.
  - destruct (expand p s1) as [p'|] eqn:E; simpl; [|discriminate].
    intros [= <-] E2. simpl. now rewrite (@expand_expand _ _ _ _ _ s2 E E2).
  - now intros [= <-] _.
Qed.

Lemma expand_entry_self (x : option (t R)) (b : Shape) :
  entry_wf x b -> expand_entry x b = Ok x.
Proof.
  destruct x as [p|]; simpl; [|reflexivity].
  intros (Hw & <-). now rewrite (expand_self Hw).
Qed.

(** X1: expanding a Binomial or a Uniform in two steps gives the object
    that expanding to the final shape at once gives. *)
Theorem expand_composes :
  (forall d s1 s2 d1,
     Binomial_expand d s1 = Ok d1 -> expandable s1 s2 = true ->
     Binomial_expand d1 s2 = Binomial_expand d s2) /\
  (forall d s1 s2 d1,
     Uniform_expand d s1 = Ok d1 -> expandable s1 s2 = true ->
     Uniform_expand d1 s2 = Uniform_expand d s2).
Proof.
  split.
  - intros d s1 s2 d1. unfold Binomial_expand.
    destruct (expand (Binomial.total_count d) s1) as [tc|] eqn:Et;
      cbn [bind]; [|discriminate].
    destruct (expand_entry (Binomial.dict_probs d) s1) as [p|] eqn:Ep;
      cbn [bind]; [|discriminate].
    destruct (expand_entry (Binomial.dict_logits d) s1) as [l|] eqn:El;
      cbn [bind]; [|discriminate].
    intros [= <-] E2.
    cbn [Binomial.total_count Binomial.dict_probs Binomial.dict_logits
         Binomial.approx_sample_thresh Binomial._validate_args].
    now rewrite (@expand_expand _ _ _ _ _ s2 Et E2),
      (@expand_entry_compose _ _ _ s2 Ep E2),
      (@expand_entry_compose _ _ _ s2 El E2).
  - intros d s1 s2 d1. unfold Uniform_expand.
    destruct (expand (Uniform.low d) s1) as [l|] eqn:El;
      cbn [bind]; [|discriminate].
    destruct (expand (Uniform.high d) s1) as [h|] eqn:Eh;
      cbn [bind]; [|discriminate].
    intros [= <-] E2.
    cbn [Uniform.low Uniform.high Uniform._unbroadcasted_low
         Uniform._unbroadcasted_high Uniform._validate_args].
    now rewrite (@expand_expand _ _ _ _ _ s2 El E2),
      (@expand_expand _ _ _ _ _ s2 Eh E2).
Qed.

Lemma expand_composes_witness :
  exists d1 d2,
    Binomial_expand binomial_approx [3; 2] = Ok d1 /\
    Binomial_expand d1 [4; 3; 2] = Ok d2 /\
    Binomial_expand binomial_approx [4; 3; 2] = Ok d2.
Proof.
  destruct expand_composes as (HB & _).
  destruct (Binomial_expand binomial_approx [3; 2]) as [d1|] eqn:E1;
    [|discriminate E1].
  destruct (Binomial_expand binomial_approx [4; 3; 2]) as [d2|] eqn:E2;
    [|discriminate E2].
  exists d1, d2. split; [reflexivity|]. split; [|reflexivity].
  rewrite (HB binomial_approx [3; 2] [4; 3; 2] d1 E1 eq_refl). exact E2.
Defined.

(** X2: expanding a Binomial or a Uniform to the batch shape it has
    returns an object equal to it. *)
Theorem expand_to_own_shape :
  (forall d, Binomial_wf d ->
     Binomial_expand d (Binomial._batch_shape d) = Ok d) /\
  (forall d, Uniform_wf d ->
     Uniform_expand d (Uniform._batch_shape d) = Ok d).
Proof.
  split.
  - intros d (Wt & St & Wp & Wl & _). unfold Binomial_expand.
    rewrite <- St at 1. rewrite (expand_self Wt). cbn [bind].
    rewrite (@expand_entry_self _ _ Wp), (@expand_entry_self _ _ Wl).
    cbn [bind].
    now destruct d.
  - intros d (Wl & Wh & Sl & Sh). unfold Uniform_expand.
    rewrite <- Sl at 1. rewrite (expand_self Wl). cbn [bind].
    rewrite <- Sh at 1. rewrite (expand_self Wh). cbn [bind].
    now destruct d.
Qed.

Lemma expand_to_own_shape_witness :
  Binomial_wf binomial_approx /\ Uniform_wf uniform_sample /\
  Binomial_expand binomial_approx [2] = Ok binomial_approx /\
  Uniform_expand uniform_sample [2] = Ok uniform_sample.
Proof.
  destruct expand_to_own_shape as (HB & HU).
  pose proof binomial_approx_wf as WB.
  assert (WU : Uniform_wf uniform_sample) by (repeat split).
  split; [exact WB|]. split; [exact WU|].
  split; [exact (HB _ WB) | exact (HU _ WU)].
Defined.

(** ** Uniform *)

Lemma broadcast_tensors_inv {A B} `{Dflt A} `{Dflt B}
    (a : t A) (b : t B) (a' : t A) (b' : t B) :
  broadcast_tensors a b = Ok (a', b') ->
  exists s,
    broadcast_shapes (shape a) (shape b) = Some s /\
    a' = tabulate s (fun idx => get a (bidx (shape a) idx)) /\
    b' = tabulate s (fun idx => get b (bidx (shape b) idx)).
Proof.
  unfold broadcast_tensors.
  destruct (broadcast_shapes (shape a) (shape b)) as [s|] eqn:Hs;
    [|discriminate].
  destruct (broadcast_expandable _ _ Hs) as [Ea Eb].
  unfold expand. rewrite Ea, Eb. cbn [bind].
  intros [= <- <-]. now exists s.
Qed.

Lemma binop_inv {A B C} `{Dflt A} `{Dflt B}
    (f : A -> B -> C) (a : t A) (b : t B) (c : t C) :
  binop f a b = Ok c ->
  exists s,
    broadcast_shapes (shape a) (shape b) = Some s /\
    c = tabulate s (fun idx =>
          f (get a (bidx (shape a) idx)) (get b (bidx (shape b) idx))).
Proof.
  unfold binop.
  destruct (broadcast_shapes (shape a) (shape b)) as [s|]; [|discriminate].
  intros [= <-]. now exists s.
Qed.

(** X3: [Uniform.__init__] keeps the bounds as given and stores their
    broadcast, so that the bounds kept describe, element by element, the
    bounds stored; with validation on, low < high holds at every batch
    element of an object it returns.  [Uniform.expand] keeps this
    agreement: the interval that [support] builds from the bounds kept is
    the interval between the expanded bounds. *)
Theorem Uniform_bounds_agree :
  (forall env low high validate_args d,
     Uniform_init env low high validate_args = Ok d ->
     Uniform._unbroadcasted_low d = low /\
     Uniform._unbroadcasted_high d = high /\
     Uniform_wf d /\ Uniform_coherent d /\
     (resolve_validate env validate_args = true ->
      forall idx, valid_index (Uniform._batch_shape d) idx ->
        (get (Uniform.low d) idx < get (Uniform.high d) idx)%R)) /\
  (forall d batch_shape d',
     Uniform_coherent d ->
     Uniform_expand d batch_shape = Ok d' ->
     Uniform_coherent d' /\
     lower_bound (Uniform_support d') = Uniform._unbroadcasted_low d /\
     upper_bound (Uniform_support d') = Uniform._unbroadcasted_high d).
Proof.
  split.
  - intros env low high va d. unfold Uniform_init.
    destruct (broadcast_tensors low high) as [[l h]|] eqn:Hb;
      cbn [bind]; [|discriminate].
    apply broadcast_tensors_inv in Hb as (s & Hs & -> & ->).
    destruct (broadcast_expandable _ _ Hs) as [El Eh].
    set (l := tabulate s (fun idx => get low (bidx (shape low) idx))).
    set (h := tabulate s (fun idx => get high (bidx (shape high) idx))).
    assert (Hl : entries l s (fun idx => get low (bidx (shape low) idx)))
      by apply entries_tabulate.
    assert (Hh : entries h s (fun idx => get high (bidx (shape high) idx)))
      by apply entries_tabulate.
    destruct (resolve_validate env va) eqn:Hv.
    + destruct (binop_entries_same ltb_R Hl Hh) as (b & -> & Eb).
      cbn [bind].
      destruct (all_elements (fun x : bool => x) b) eqn:Hall;
        cbn [require bind]; [|discriminate].
      intros [= <-].
      split; [reflexivity|]. split; [reflexivity|].
      split; [repeat split; apply wf_tabulate|].
      split; [unfold Uniform_coherent; cbn; auto|].
      intros _ idx Hi.
      cbn [Uniform._batch_shape Uniform.low Uniform.high] in Hi |- *.
      pose proof (entries_all_elements _ Eb Hall Hi) as Hlt.
      apply ltb_R_true in Hlt.
      destruct Hl as (_ & _ & Gl), Hh as (_ & _ & Gh).
      now rewrite (Gl _ Hi), (Gh _ Hi).
    + cbn [bind]. intros [= <-].
      split; [reflexivity|]. split; [reflexivity|].
      split; [repeat split; apply wf_tabulate|].
      split; [unfold Uniform_coherent; cbn; auto | discriminate].
  - intros d bs d' (El & Eh & Hl & Hh). unfold Uniform_expand.
    destruct (expand (Uniform.low d) bs) as [l|] eqn:Xl;
      cbn [bind]; [|discriminate].
    destruct (expand (Uniform.high d) bs) as [h|] eqn:Xh;
      cbn [bind]; [|discriminate].
    intros [= <-]. split; [|split; reflexivity].
    unfold expand in Xl, Xh.
    pose proof Hl as (Sl & _). pose proof Hh as (Sh & _).
    rewrite Sl in Xl. rewrite Sh in Xh.
    destruct (expandable (Uniform._batch_shape d) bs) eqn:Eb;
      [|discriminate].
    injection Xl as <-. injection Xh as <-.
    unfold Uniform_coherent. cbn.
    split; [exact (expandable_trans _ _ _ El Eb)|].
    split; [exact (expandable_trans _ _ _ Eh Eb)|].
    split; (eapply entries_ext; [apply entries_tabulate|]);
      intros idx Hi; cbv beta.
    + destruct Hl as (_ & _ & Gl).
      rewrite Gl by (now apply bidx_valid with (s := bs)).
      now rewrite (bidx_compose _ _ El Eb Hi).
    + destruct Hh as (_ & _ & Gh).
      rewrite Gh by (now apply bidx_valid with (s := bs)).
      now rewrite (bidx_compose _ _ Eh Eb Hi).
Qed.

Lemma uniform_init_runs :
  exists d, Uniform_init env_validating (scalar 0%R) (of_list [1; 2]%R) None
            = Ok d /\ Uniform._batch_shape d = [2].
Proof.
  run. destruct (Rlt_dec 0 1) as [|H1]; [|exfalso; lra].
  destruct (Rlt_dec 0 2) as [|H2]; [|exfalso; lra].
  eexists. split; reflexivity.
Qed.

Lemma Uniform_bounds_agree_witness :
  exists d d',
    Uniform_init env_validating (scalar 0%R) (of_list [1; 2]%R) None = Ok d /\
    Uniform_coherent d /\
    (get (Uniform.low d) [1%nat] < get (Uniform.high d) [1%nat])%R /\
    Uniform_expand d [3; 2] = Ok d' /\
    Uniform_coherent d' /\
    lower_bound (Uniform_support d') = scalar 0%R.
Proof.
  destruct Uniform_bounds_agree as (HI & HE).
  destruct uniform_init_runs as (d & Hd & Hb).
  destruct (HI _ _ _ _ _ Hd) as (Hlow & _ & Wd & Cd & Hlt).
  destruct Wd as (_ & _ & Sl & Sh).
  destruct (@expand_ok _ _ (Uniform.low d) _ [3; 2] Sl) as (l' & Hl' & _);
    [now rewrite Hb|].
  destruct (@expand_ok _ _ (Uniform.high d) _ [3; 2] Sh) as (h' & Hh' & _);
    [now rewrite Hb|].
  destruct (Uniform_expand d [3; 2]) as [d'|] eqn:Hd'.
  - exists d, d'. split; [exact Hd|]. split; [exact Cd|].
    split; [apply Hlt; [reflexivity | rewrite Hb; repeat constructor]|].
    split; [exact Hd'|].
    destruct (HE _ _ _ Cd Hd') as (Cd' & Hs' & _).
    split; [exact Cd'|]. now rewrite Hs', Hlow.
  - exfalso. unfold Uniform_expand in Hd'. rewrite Hl', Hh' in Hd'.
    discriminate.
Defined.

(** ** Binomial.__init__ *)

(** X4: what [Binomial.__init__] returns and when.  An object it returns
    carries the threshold it was given, a real number that is not negative
    (infinity included), and has [total_count] and the one parameter
    broadcast to its batch shape.  Without argument validation it returns
    an object whenever the threshold is such a number, exactly one of
    [probs] and [logits] is given, and that one broadcasts against
    [total_count].  The threshold is examined first: a NaN threshold
    raises [AssertionError] and a complex one [TypeError] whatever the
    other arguments are, and with a good threshold giving both or neither
    of [probs] and [logits] raises [ValueError]. *)
Theorem Binomial_init_outcomes :
  (forall env total_count probs logits validate_args thresh d,
     Binomial_init env total_count probs logits validate_args thresh = Ok d ->
     exists x,
       thresh = PyReal x /\ pyfloat_ge0 x = true /\
       Binomial.approx_sample_thresh d = x /\
       Binomial._validate_args d = resolve_validate env validate_args /\
       Binomial_wf d) /\
  (forall env total_count param validate_args x s,
     resolve_validate env validate_args = false ->
     pyfloat_ge0 x = true ->
     broadcast_shapes (shape total_count) (shape param) = Some s ->
     (exists d,
        Binomial_init env total_count (Some param) None validate_args
          (PyReal x) = Ok d /\
        Binomial._batch_shape d = s /\
        Binomial.dict_logits d = None) /\
     (exists d,
        Binomial_init env total_count None (Some param) validate_args
          (PyReal x) = Ok d /\
        Binomial._batch_shape d = s /\
        Binomial.dict_probs d = None)) /\
  (forall env total_count probs logits validate_args,
     Binomial_init env total_count probs logits validate_args (PyReal NaN)
     = Err AssertionError /\
     forall re im,
       Binomial_init env total_count probs logits validate_args
         (PyComplex re im) = Err TypeError) /\
  (forall env total_count p l validate_args x,
     pyfloat_ge0 x = true ->
     Binomial_init env total_count None None validate_args (PyReal x)
     = Err ValueError /\
     Binomial_init env total_count (Some p) (Some l) validate_args (PyReal x)
     = Err ValueError).
Proof.
  split; [|split; [|split]].
  - intros env tc probs logits va thresh d Hd.
    pose proof (Binomial_init_wf _ _ _ _ _ _ Hd) as Wd.
    unfold Binomial_init in Hd.
    destruct thresh as [x| |]; cbn [isinstance_Number assert bind] in Hd;
      try discriminate.
    destruct (pyfloat_ge0 x) eqn:Hge; cbn [assert bind] in Hd;
      [|discriminate].
    exists x. split; [reflexivity|]. split; [exact Hge|].
    destruct probs as [p|], logits as [l|]; try discriminate.
    + destruct (broadcast_tensors tc p) as [[tc' p']|];
        cbn [bind] in Hd; [|discriminate].
      destruct (if resolve_validate env va then _ else _);
        cbn [bind] in Hd; [|discriminate].
      injection Hd as <-. auto.
    + destruct (broadcast_tensors tc l) as [[tc' l']|];
        cbn [bind] in Hd; [|discriminate].
      destruct (if resolve_validate env va then _ else _);
        cbn [bind] in Hd; [|discriminate].
      injection Hd as <-. auto.
  - intros env tc param va x s Hv Hge Hs.
    destruct (broadcast_expandable _ _ Hs) as [Et Ep].
    unfold Binomial_init, broadcast_tensors, expand.
    cbn [isinstance_Number assert bind]. rewrite Hge, Hv, Hs, Et, Ep.
    cbn [assert bind]. split; eexists; repeat split.
  - intros env tc probs logits va. split; [reflexivity|].
    intros re im. reflexivity.
  - intros env tc p l va x Hge. unfold Binomial_init.
    cbn [isinstance_Number assert bind]. rewrite Hge. cbn [assert bind].
    split; reflexivity.
Qed.

Lemma Binomial_init_outcomes_witness :
  exists d,
    Binomial_init env_lenient (of_list [10; 20]%R) (Some (scalar (1 / 4)%R))
      None None (PyReal PosInf) = Ok d /\
    Binomial._batch_shape d = [2] /\
    Binomial.approx_sample_thresh d = PosInf /\
    Binomial_wf d.
Proof.
  destruct Binomial_init_outcomes as (H1 & H2 & _ & _).
  destruct (H2 env_lenient (of_list [10; 20]%R) (scalar (1 / 4)%R) None
              PosInf [2] eq_refl eq_refl eq_refl) as ((d & Hd & Hs & _) & _).
  exists d. split; [exact Hd|]. split; [exact Hs|].
  destruct (H1 _ _ _ _ _ _ _ Hd) as (x & Hx & _ & Ht & _ & Wd).
  injection Hx as <-. split; [exact Ht | exact Wd].
Defined.

(** ** Binomial.sample, the approximate branch *)

Lemma round_integer (x : R) : exists z, round x = IZR z.
Proof.
  unfold round.
  destruct (Rlt_dec _ _); [eauto|].
  destruct (Rlt_dec _ _); [eauto|].
  destruct (Z.even _); eauto.
Qed.

Lemma approx_element_integer (prob : R) (n : Z) (j : nat) :
  exists z, approx_element prob (IZR n) (INR j) = IZR z.
Proof.
  unfold approx_element.
  destruct (round_integer (Rmin prob (1 - prob) * IZR n
                           - prob * (1 - prob) * IZR n)) as (s & ->).
  rewrite INR_IZR_INZ, <- plus_IZR.
  assert (Hr : exists z, Rmin (IZR (Z.of_nat j + s)) (IZR n) = IZR z).
  { unfold Rmin. destruct (Rle_dec _ _); eauto. }
  destruct Hr as (r & ->).
  destruct (ltb_R prob (1 - prob)); [eauto|].
  exists (n - r)%Z. now rewrite minus_IZR.
Qed.

(** X5: when [total_count] holds integers, every element of a sample
    returned by the approximate branch of [Binomial.sample] is an
    integer. *)
Theorem Binomial_approx_sample_integer (rng : Rng) (d : Binomial.obj)
    (sample_shape : Shape) (x : t R) :
  Binomial_wf d -> Rng_wf rng ->
  (forall i, valid_index (Binomial._batch_shape d) i ->
     exists z, get (Binomial.total_count d) i = IZR z) ->
  Binomial_sample rng d sample_shape = Ok (Approximate, x) ->
  forall idx,
    valid_index (sample_shape ++ Binomial._batch_shape d) idx ->
    exists z, get x idx = IZR z.
Proof.
  intros Wd Hrng Hn Hs idx Hv.
  apply Binomial_sample_approx_inv in Hs as (Hx & _).
  destruct (Binomial_sample_approx_result sample_shape Wd Hrng Hx)
    as (rates & Erates & Ex).
  destruct Ex as (_ & _ & Gx). rewrite (Gx _ Hv). cbv zeta.
  assert (Hi : valid_index (Binomial._batch_shape d)
                 (bidx (Binomial._batch_shape d) idx)).
  { apply bidx_valid with (s := sample_shape ++ Binomial._batch_shape d);
      [apply expandable_prefix | exact Hv]. }
  destruct (Hn _ Hi) as (n & ->).
  destruct Erates as (Sr & Wr & _).
  destruct (Hrng rates Wr) as (WX & SX & HX).
  rewrite Forall_forall in HX.
  destruct (HX (get (poisson rng rates) idx)) as (k & ->).
  { apply get_in_data; [exact WX | now rewrite SX, Sr]. }
  apply approx_element_integer.
Qed.

Lemma Binomial_approx_sample_integer_witness :
  exists x,
    Binomial_sample rng_const binomial_approx [3] = Ok (Approximate, x) /\
    exists z, get x [2; 1] = IZR z.
Proof.
  destruct binomial_approx_runs as (x & Hx).
  exists x. split; [exact Hx|].
  assert (Hint : forall i, valid_index (Binomial._batch_shape binomial_approx) i ->
            exists z, get (Binomial.total_count binomial_approx) i = IZR z).
  { intros i Hv. index_cases Hv; [exists 10%Z | exists 20%Z]; reflexivity. }
  apply (@Binomial_approx_sample_integer rng_const binomial_approx [3] x
           binomial_approx_wf Rng_wf_const Hint Hx).
  repeat constructor.
Defined.

(** ** Conjugate updates do not depend on the order of the two factors *)

Lemma bc_dim_comm (x y : nat) : bc_dim x y = bc_dim y x.
Proof.
  unfold bc_dim. rewrite (Nat.eqb_sym y x).
  destruct (Nat.eqb_spec x y) as [->|Hne]; [reflexivity|].
  destruct (Nat.eqb_spec x 1) as [->|], (Nat.eqb_spec y 1) as [->|];
    reflexivity.
Qed.

Lemma bc_aligned_comm (a b : Shape) : bc_aligned a b = bc_aligned b a.
Proof.
  revert b. induction a as [|x a IH]; intros [|y b]; simpl; try reflexivity.
  now rewrite bc_dim_comm, IH.
Qed.

Lemma broadcast_shapes_comm (a b : Shape) :
  broadcast_shapes a b = broadcast_shapes b a.
Proof.
  unfold broadcast_shapes. rewrite Nat.max_comm. apply bc_aligned_comm.
Qed.

Lemma binop_comm {A C} `{Dflt A} (f : A -> A -> C) (a b : t A) :
  (forall x y, f x y = f y x) -> binop f a b = binop f b a.
Proof.
  intros Hf. unfold binop. rewrite (broadcast_shapes_comm (shape b)).
  destruct (broadcast_shapes (shape a) (shape b)); [|reflexivity].
  f_equal. apply tabulate_ext. intros idx _. apply Hf.
Qed.

Lemma binop_err {A B C} `{Dflt A} `{Dflt B}
    (f : A -> B -> C) (a : t A) (b : t B) (e : exn) :
  binop f a b = Err e -> e = RuntimeError.
Proof.
  unfold binop. destruct (broadcast_shapes _ _); [discriminate|].
  now intros [= <-].
Qed.

(** The two log-normalizers can be computed in either order. *)
Lemma log_normalizers_comm {X} (ra rb : result (t R))
    (k : t R -> result X) :
  (forall e, ra = Err e -> e = RuntimeError) ->
  (forall e, rb = Err e -> e = RuntimeError) ->
  (a <- ra ;; b <- rb ;; ab <- binop Rplus a b ;; k ab)
  = (b <- rb ;; a <- ra ;; ab <- binop Rplus b a ;; k ab).
Proof.
  intros Ha Hb. destruct ra as [a|ea], rb as [b|eb]; cbn [bind].
  - now rewrite (binop_comm Rplus a b Rplus_comm).
  - reflexivity.
  - reflexivity.
  - now rewrite (Ha ea eq_refl), (Hb eb eq_refl).
Qed.

Section ConjugateUpdateSymmetry.

Variable lgamma : R -> R.
Variable env : TorchEnv.

Lemma Beta_log_normalizer_err (d : Beta.obj) (e : exn) :
  Beta_log_normalizer lgamma d = Err e -> e = RuntimeError.
Proof.
  unfold Beta_log_normalizer. cbv zeta.
  destruct (binop Rplus _ _) as [xy|e1] eqn:E1; cbn [bind].
  - destruct (binop Rminus (map1 lgamma xy) _) as [a|e2] eqn:E2; cbn [bind].
    + apply binop_err.
    + intros [= <-]. exact (binop_err _ _ _ E2).
  - intros [= <-]. exact (binop_err _ _ _ E1).
Qed.

Lemma Gamma_log_normalizer_err (d : Gamma.obj) (e : exn) :
  Gamma_log_normalizer lgamma d = Err e -> e = RuntimeError.
Proof.
  unfold Gamma_log_normalizer. cbv zeta.
  destruct (binop Rmult _ _) as [a|e1] eqn:E1; cbn [bind].
  - apply binop_err.
  - intros [= <-]. exact (binop_err _ _ _ E1).
Qed.

Lemma Dirichlet_log_normalizer_err (d : Dirichlet.obj) (e : exn) :
  Dirichlet_log_normalizer lgamma d = Err e -> e = RuntimeError.
Proof. unfold Dirichlet_log_normalizer. cbv zeta. apply binop_err. Qed.

Lemma Beta_conjugate_update_comm (d1 d2 : Beta.obj) :
  Beta_conjugate_update lgamma env d1 (DBeta d2)
  = Beta_conjugate_update lgamma env d2 (DBeta d1).
Proof.
  unfold Beta_conjugate_update.
  rewrite (binop_comm Rplus (Beta.concentration1 d1) _ Rplus_comm).
  destruct (binop Rplus (Beta.concentration1 d2) _); [|reflexivity].
  cbn [bind].
  rewrite (binop_comm Rplus (Beta.concentration0 d1) _ Rplus_comm).
  destruct (binop Rplus (Beta.concentration0 d2) _); [|reflexivity].
  cbn [bind]. cbv zeta.
  destruct (Beta_init env _ _ None) as [updated|]; [|reflexivity].
  cbn [bind].
  apply log_normalizers_comm; apply Beta_log_normalizer_err.
Qed.

Lemma Gamma_conjugate_update_comm (d1 d2 : Gamma.obj) :
  Gamma_conjugate_update lgamma env d1 (DGamma d2)
  = Gamma_conjugate_update lgamma env d2 (DGamma d1).
Proof.
  unfold Gamma_conjugate_update.
  rewrite (binop_comm Rplus (Gamma.concentration d1) _ Rplus_comm).
  destruct (binop Rplus (Gamma.concentration d2) _); [|reflexivity].
  cbn [bind].
  rewrite (binop_comm Rplus (Gamma.rate d1) _ Rplus_comm).
  destruct (binop Rplus (Gamma.rate d2) _); [|reflexivity].
  cbn [bind]. cbv zeta.
  destruct (Gamma_init env _ _ None) as [updated|]; [|reflexivity].
  cbn [bind].
  apply log_normalizers_comm; apply Gamma_log_normalizer_err.
Qed.

Lemma Dirichlet_conjugate_update_comm (d1 d2 : Dirichlet.obj) :
  Dirichlet_conjugate_update lgamma env d1 (DDirichlet d2)
  = Dirichlet_conjugate_update lgamma env d2 (DDirichlet d1).
Proof.
  unfold Dirichlet_conjugate_update.
  rewrite (binop_comm Rplus (Dirichlet.concentration d1) _ Rplus_comm).
  destruct (binop Rplus (Dirichlet.concentration d2) _); [|reflexivity].
  cbn [bind]. cbv zeta.
  destruct (Dirichlet_init env _ None) as [updated|]; [|reflexivity].
  cbn [bind].
  apply log_normalizers_comm; apply Dirichlet_log_normalizer_err.
Qed.

End ConjugateUpdateSymmetry.

(** X8: [conjugate_update] of Beta, Gamma and Dirichlet does not depend
    on which of the two distributions is [self] and which is [other]:
    exchanging them gives the same posterior and the same log-normalizer,
    or the same exception. *)
Theorem conjugate_update_symmetric (lgamma : R -> R) (env : TorchEnv) :
  (forall d1 d2 : Beta.obj,
     Beta_conjugate_update lgamma env d1 (DBeta d2)
     = Beta_conjugate_update lgamma env d2 (DBeta d1)) /\
  (forall d1 d2 : Gamma.obj,
     Gamma_conjugate_update lgamma env d1 (DGamma d2)
     = Gamma_conjugate_update lgamma env d2 (DGamma d1)) /\
  (forall d1 d2 : Dirichlet.obj,
     Dirichlet_conjugate_update lgamma env d1 (DDirichlet d2)
     = Dirichlet_conjugate_update lgamma env d2 (DDirichlet d1)).
Proof.
  split; [|split].
  - apply Beta_conjugate_update_comm.
  - apply Gamma_conjugate_update_comm.
  - apply Dirichlet_conjugate_update_comm.
Qed.

(** ** Conjugate updates fuse densities *)

Section ConjugateUpdateDensities.

Variable lgamma : R -> R.
Variable env : TorchEnv.

Lemma Beta_init_inv (c1 c0 : t R) (s : Shape) (g1 g0 : Index -> R)
    (d : Beta.obj) :
  entries c1 s g1 -> entries c0 s g0 ->
  Beta_init env c1 c0 None = Ok d ->
  default_validate_args env = true ->
  forall idx, valid_index s idx -> (0 < g1 idx /\ 0 < g0 idx)%R.
Proof.
  intros E1 E0 Hd Hv idx Hi. unfold Beta_init in Hd.
  destruct (broadcast_tensors_same E1 E0) as (a & b & Hab & Ea & Eb).
  rewrite Hab in Hd. cbn [bind resolve_validate] in Hd. rewrite Hv in Hd.
  destruct (all_elements positive a) eqn:Ha; [|discriminate].
  destruct (all_elements positive b) eqn:Hb; [|discriminate].
  split; apply ltb_R_true.
  - exact (entries_all_elements positive Ea Ha Hi).
  - exact (entries_all_elements positive Eb Hb Hi).
Qed.

Lemma Gamma_init_inv (c r : t R) (s : Shape) (gc gr : Index -> R)
    (d : Gamma.obj) :
  entries c s gc -> entries r s gr ->
  Gamma_init env c r None = Ok d ->
  default_validate_args env = true ->
  forall idx, valid_index s idx -> (0 < gc idx /\ 0 < gr idx)%R.
Proof.
  intros Ec Er Hd Hv idx Hi. unfold Gamma_init in Hd.
  destruct (broadcast_tensors_same Ec Er) as (a & b & Hab & Ea & Eb).
  rewrite Hab in Hd. cbn [bind resolve_validate] in Hd. rewrite Hv in Hd.
  destruct (all_elements positive a) eqn:Ha; [|discriminate].
  destruct (all_elements positive b) eqn:Hb; [|discriminate].
  split; apply ltb_R_true.
  - exact (entries_all_elements positive Ea Ha Hi).
  - exact (entries_all_elements positive Eb Hb Hi).
Qed.

Lemma Dirichlet_init_inv (c : t R) (s : Shape) (g : Index -> R)
    (d : Dirichlet.obj) :
  entries c s g ->
  Dirichlet_init env c None = Ok d ->
  default_validate_args env = true ->
  forall idx, valid_index s idx -> (0 < g idx)%R.
Proof.
  intros Ec Hd Hv idx Hi. unfold Dirichlet_init in Hd.
  destruct (negb (dim c <? 1)); [|discriminate].
  cbn [bind require resolve_validate] in Hd. rewrite Hv in Hd.
  destruct (all_elements positive c) eqn:Ha; [|discriminate].
  apply ltb_R_true.
  exact (entries_all_elements positive Ec Ha Hi).
Qed.

(** What [Beta.conjugate_update] has computed when it returns. *)
Lemma Beta_conjugate_update_inv (prior likelihood posterior : Beta.obj)
    (log_normalizer : t R) :
  Beta_wf prior -> Beta_wf likelihood ->
  Beta_conjugate_update lgamma env prior (DBeta likelihood)
    = Ok (posterior, log_normalizer) ->
  exists s,
    broadcast_shapes (Beta_batch_shape prior) (Beta_batch_shape likelihood)
      = Some s /\
    shape log_normalizer = s /\
    forall idx, valid_index s idx ->
      let i := bidx (Beta_batch_shape prior) idx in
      let j := bidx (Beta_batch_shape likelihood) idx in
      (get (Beta.concentration1 posterior) idx
         = get (Beta.concentration1 prior) i
           + get (Beta.concentration1 likelihood) j - 1 /\
       get (Beta.concentration0 posterior) idx
         = get (Beta.concentration0 prior) i
           + get (Beta.concentration0 likelihood) j - 1 /\
       get log_normalizer idx
         = Beta_logNorm lgamma (get (Beta.concentration1 prior) i)
                               (get (Beta.concentration0 prior) i)
           + Beta_logNorm lgamma (get (Beta.concentration1 likelihood) j)
                                 (get (Beta.concentration0 likelihood) j)
           - Beta_logNorm lgamma (get (Beta.concentration1 posterior) idx)
                                 (get (Beta.concentration0 posterior) idx))%R.
Proof.
  intros Wp Wl H. pose proof H as H0.
  pose proof Wp as (P1 & P0 & Ps). pose proof Wl as (L1 & L0 & Ls).
  pose proof (entries_self P1) as EP1. fold (Beta_batch_shape prior) in EP1.
  pose proof (entries_self P0) as EP0. rewrite Ps in EP0.
  pose proof (entries_self L1) as EL1.
  fold (Beta_batch_shape likelihood) in EL1.
  pose proof (entries_self L0) as EL0. rewrite Ls in EL0.
  unfold Beta_conjugate_update in H.
  destruct (binop Rplus (Beta.concentration1 prior) _) as [s1|] eqn:E1;
    [|discriminate].
  destruct (binop_inv _ _ _ E1) as (s & Hbc & _).
  fold (Beta_batch_shape prior) (Beta_batch_shape likelihood) in Hbc.
  exists s. split; [exact Hbc|].
  destruct (binop_entries Rplus EP1 EL1 Hbc) as (s1' & Hs1 & Es1).
  rewrite E1 in Hs1. injection Hs1 as <-.
  destruct (binop_entries Rplus EP0 EL0 Hbc) as (s0 & Hs0 & Es0).
  cbn [bind] in H. rewrite Hs0 in H. cbn [bind] in H. cbv zeta in H.
  destruct (Beta_init env _ _ None) as [u|] eqn:Hu; [|discriminate].
  pose proof (Beta_init_inv (map1_entries (fun x => x - 1)%R Es1)
                (map1_entries (fun x => x - 1)%R Es0) Hu) as Hpos.
  destruct (@Beta_conjugate_update_entries lgamma env prior likelihood s
              Wp Wl Hbc) as (p' & ln' & Hcu & _ & _ & Hsh & Hget).
  { intros Hv idx Hi. exact (Hpos Hv idx Hi). }
  rewrite H0 in Hcu. injection Hcu as <- <-.
  split; [exact Hsh | exact Hget].
Qed.

(** The same for [Gamma.conjugate_update], on matching batch shapes. *)
Lemma Gamma_conjugate_update_inv (prior likelihood posterior : Gamma.obj)
    (log_normalizer : t R) :
  Gamma_wf prior -> Gamma_wf likelihood ->
  Gamma_batch_shape prior = Gamma_batch_shape likelihood ->
  Gamma_conjugate_update lgamma env prior (DGamma likelihood)
    = Ok (posterior, log_normalizer) ->
  shape log_normalizer = Gamma_batch_shape prior /\
  forall idx, valid_index (Gamma_batch_shape prior) idx ->
    (get (Gamma.concentration posterior) idx
       = get (Gamma.concentration prior) idx
         + get (Gamma.concentration likelihood) idx - 1 /\
     get (Gamma.rate posterior) idx
       = get (Gamma.rate prior) idx + get (Gamma.rate likelihood) idx /\
     get log_normalizer idx
       = Gamma_logNorm lgamma (get (Gamma.concentration prior) idx)
                              (get (Gamma.rate prior) idx)
         + Gamma_logNorm lgamma (get (Gamma.concentration likelihood) idx)
                                (get (Gamma.rate likelihood) idx)
         - Gamma_logNorm lgamma (get (Gamma.concentration posterior) idx)
                                (get (Gamma.rate posterior) idx))%R.
Proof.
  intros Wp Wl Hsame H. pose proof H as H0.
  pose proof Wp as (Pc & Pr & Ps). pose proof Wl as (Lc & Lr & Ls).
  pose proof (entries_self Pc) as EPc. fold (Gamma_batch_shape prior) in EPc.
  pose proof (entries_self Pr) as EPr. rewrite Ps in EPr.
  pose proof (entries_self Lc) as ELc.
  fold (Gamma_batch_shape likelihood) in ELc.
  pose proof (entries_self Lr) as ELr. rewrite Ls in ELr.
  rewrite <- Hsame in ELc, ELr.
  unfold Gamma_conjugate_update in H.
  destruct (binop_entries_same Rplus EPc ELc) as (sc & Hsc & Esc).
  destruct (binop_entries_same Rplus EPr ELr) as (rt & Hrt & Ert).
  rewrite Hsc in H. cbn [bind] in H. rewrite Hrt in H. cbn [bind] in H.
  cbv zeta in H.
  destruct (Gamma_init env _ _ None) as [u|] eqn:Hu; [|discriminate].
  pose proof (Gamma_init_inv (map1_entries (fun x => x - 1)%R Esc) Ert Hu)
    as Hpos.
  destruct (@Gamma_conjugate_update_matching lgamma env prior likelihood
              Wp Wl Hsame) as (p' & ln' & Hcu & _ & _ & Hsh & Hget).
  { intros Hv idx Hi. exact (Hpos Hv idx Hi). }
  rewrite H0 in Hcu. injection Hcu as <- <-.
  split; [exact Hsh | exact Hget].
Qed.

(** The same for [Dirichlet.conjugate_update], on concentrations of one
    shape. *)
Lemma Dirichlet_conjugate_update_inv
    (prior likelihood posterior : Dirichlet.obj) (log_normalizer : t R) :
  Dirichlet_wf prior -> Dirichlet_wf likelihood ->
  shape (Dirichlet.concentration prior)
    = shape (Dirichlet.concentration likelihood) ->
  Dirichlet_conjugate_update lgamma env prior (DDirichlet likelihood)
    = Ok (posterior, log_normalizer) ->
  shape (Dirichlet.concentration posterior)
    = shape (Dirichlet.concentration prior) /\
  (forall idx, valid_index (shape (Dirichlet.concentration prior)) idx ->
     get (Dirichlet.concentration posterior) idx
     = get (Dirichlet.concentration prior) idx
       + get (Dirichlet.concentration likelihood) idx - 1)%R /\
  shape log_normalizer = Dirichlet_batch_shape prior /\
  forall idx, valid_index (Dirichlet_batch_shape prior) idx ->
    (get log_normalizer idx
     = Dirichlet_logNorm lgamma (Dirichlet_vector prior idx)
       + Dirichlet_logNorm lgamma (Dirichlet_vector likelihood idx)
       - Dirichlet_logNorm lgamma (Dirichlet_vector posterior idx))%R.
Proof.
  intros Wp Wl Hsame H. pose proof H as H0.
  pose proof Wp as (Pc & Pne). pose proof Wl as (Lc & Lne).
  pose proof (entries_self Pc) as EP. pose proof (entries_self Lc) as EL.
  assert (Hbc : broadcast_shapes (shape (Dirichlet.concentration prior))
                  (shape (Dirichlet.concentration likelihood))
                = Some (shape (Dirichlet.concentration prior))).
  { rewrite <- Hsame. apply broadcast_shapes_refl. }
  unfold Dirichlet_conjugate_update in H.
  destruct (binop_entries Rplus EP EL Hbc) as (sm & Hsm & Esm).
  rewrite Hsm in H. cbn [bind] in H. cbv zeta in H.
  destruct (Dirichlet_init env _ None) as [u|] eqn:Hu; [|discriminate].
  pose proof (Dirichlet_init_inv (map1_entries (fun x => x - 1)%R Esm) Hu)
    as Hpos.
  destruct (@Dirichlet_conjugate_update_broadcast lgamma env prior likelihood
              _ Wp Wl Hbc)
    as (p' & ln' & Hcu & _ & Hsh & Hc & Hsl & Hget).
  { intros Hv idx Hi. exact (Hpos Hv idx Hi). }
  rewrite H0 in Hcu. injection Hcu as <- <-.
  assert (Hb : Dirichlet_batch_shape posterior = Dirichlet_batch_shape prior)
    by (unfold Dirichlet_batch_shape; now rewrite Hsh).
  assert (Hbl : Dirichlet_batch_shape likelihood
                = Dirichlet_batch_shape prior)
    by (unfold Dirichlet_batch_shape; now rewrite Hsame).
  split; [exact Hsh|]. split.
  - intros idx Hi. rewrite (Hc idx Hi).
    rewrite <- Hsame, (bidx_id Hi). reflexivity.
  - rewrite Hb in Hsl, Hget. split; [exact Hsl|].
    intros idx Hi. rewrite (Hget idx Hi), Hbl, (bidx_id Hi). reflexivity.
Qed.

End ConjugateUpdateDensities.

Lemma Rsum_kernel_fuse (g1 g2 g3 : nat -> R) (l : list nat) (x : list R) :
  (forall j, In j l -> g3 j = g1 j + g2 j - 1)%R ->
  (Rsum (map (fun cx => (fst cx - 1) * ln (snd cx)) (combine (map g1 l) x))
   + Rsum (map (fun cx => (fst cx - 1) * ln (snd cx)) (combine (map g2 l) x))
   = Rsum (map (fun cx => (fst cx - 1) * ln (snd cx))
             (combine (map g3 l) x)))%R.
Proof.
  revert x. induction l as [|j l IH]; intros x Hg.
  - simpl. lra.
  - destruct x as [|y x]; [simpl; lra|].
    cbn [map combine Rsum fold_right fst snd].
    specialize (IH x (fun k Hk => Hg k (or_intror Hk))).
    unfold Rsum in IH. rewrite <- IH, (Hg j (or_introl eq_refl)). ring.
Qed.

(** X9: what the pair returned by [conjugate_update] is for.  Whenever
    the update of two Betas, of two Gammas of one batch shape, or of two
    Dirichlets of one shape returns, then at every batch element and
    every point x the log-densities of the two distributions add up to
    the log-density of the returned posterior plus the returned
    log-normalizer. *)
Theorem conjugate_update_fuses_densities (lgamma : R -> R) (env : TorchEnv) :
  (forall prior likelihood posterior log_normalizer,
     Beta_wf prior -> Beta_wf likelihood ->
     Beta_conjugate_update lgamma env prior (DBeta likelihood)
       = Ok (posterior, log_normalizer) ->
     forall idx x, valid_index (shape log_normalizer) idx ->
       let i := bidx (Beta_batch_shape prior) idx in
       let j := bidx (Beta_batch_shape likelihood) idx in
       (Beta_log_density lgamma (get (Beta.concentration1 prior) i)
                                (get (Beta.concentration0 prior) i) x
        + Beta_log_density lgamma (get (Beta.concentration1 likelihood) j)
                                  (get (Beta.concentration0 likelihood) j) x
        = Beta_log_density lgamma (get (Beta.concentration1 posterior) idx)
                                  (get (Beta.concentration0 posterior) idx) x
          + get log_normalizer idx)%R) /\
  (forall prior likelihood posterior log_normalizer,
     Gamma_wf prior -> Gamma_wf likelihood ->
     Gamma_batch_shape prior = Gamma_batch_shape likelihood ->
     Gamma_conjugate_update lgamma env prior (DGamma likelihood)
       = Ok (posterior, log_normalizer) ->
     forall idx x, valid_index (shape log_normalizer) idx ->
       (Gamma_log_density lgamma (get (Gamma.concentration prior) idx)
                                 (get (Gamma.rate prior) idx) x
        + Gamma_log_density lgamma (get (Gamma.concentration likelihood) idx)
                                   (get (Gamma.rate likelihood) idx) x
        = Gamma_log_density lgamma (get (Gamma.concentration posterior) idx)
                                   (get (Gamma.rate posterior) idx) x
          + get log_normalizer idx)%R) /\
  (forall prior likelihood posterior log_normalizer,
     Dirichlet_wf prior -> Dirichlet_wf likelihood ->
     shape (Dirichlet.concentration prior)
       = shape (Dirichlet.concentration likelihood) ->
     Dirichlet_conjugate_update lgamma env prior (DDirichlet likelihood)
       = Ok (posterior, log_normalizer) ->
     forall idx x, valid_index (shape log_normalizer) idx ->
       (Dirichlet_log_density lgamma (Dirichlet_vector prior idx) x
        + Dirichlet_log_density lgamma (Dirichlet_vector likelihood idx) x
        = Dirichlet_log_density lgamma (Dirichlet_vector posterior idx) x
          + get log_normalizer idx)%R).
Proof.
  split; [|split].
  - intros prior likelihood posterior lnorm Wp Wl H idx x Hi. cbv zeta.
    destruct (@Beta_conjugate_update_inv lgamma env _ _ _ _ Wp Wl H)
      as (s & _ & Hs & Hget).
    rewrite Hs in Hi. destruct (Hget idx Hi) as (H1 & H0 & Hln).
    cbv zeta in H1, H0, Hln. rewrite Hln. unfold Beta_log_density, Beta_logNorm.
    rewrite H1, H0. ring.
  - intros prior likelihood posterior lnorm Wp Wl Hsame H idx x Hi.
    destruct (@Gamma_conjugate_update_inv lgamma env _ _ _ _ Wp Wl Hsame H)
      as (Hs & Hget).
    rewrite Hs in Hi. destruct (Hget idx Hi) as (Hc & Hr & Hln).
    rewrite Hln. unfold Gamma_log_density, Gamma_logNorm.
    rewrite Hc, Hr. ring.
  - intros prior likelihood posterior lnorm Wp Wl Hsame H idx x Hi.
    destruct (@Dirichlet_conjugate_update_inv lgamma env _ _ _ _
                Wp Wl Hsame H) as (Hsh & Hc & Hs & Hget).
    rewrite Hs in Hi. rewrite (Hget idx Hi).
    unfold Dirichlet_log_density, Dirichlet_logNorm.
    assert (Hk : (Rsum (map (fun cx => (fst cx - 1) * ln (snd cx))
                     (combine (Dirichlet_vector prior idx) x))
                  + Rsum (map (fun cx => (fst cx - 1) * ln (snd cx))
                       (combine (Dirichlet_vector likelihood idx) x))
                  = Rsum (map (fun cx => (fst cx - 1) * ln (snd cx))
                       (combine (Dirichlet_vector posterior idx) x)))%R).
    { unfold Dirichlet_vector, Dirichlet_event_size.
      rewrite Hsh, <- Hsame.
      apply Rsum_kernel_fuse. intros j Hj. apply in_seq in Hj.
      apply Hc. destruct Wp as (_ & Pne).
      rewrite (shape_snoc Pne). apply valid_index_snoc; [exact Hi | lia]. }
    rewrite <- Hk. ring.
Qed.

Lemma conjugate_update_fuses_densities_witness :
  exists posterior log_normalizer,
    Beta_conjugate_update lgamma_int env_validating
      beta_batch (DBeta beta_scalar) = Ok (posterior, log_normalizer) /\
    forall x,
      (Beta_log_density lgamma_int 3 2 x + Beta_log_density lgamma_int 2 3 x
       = Beta_log_density lgamma_int
           (get (Beta.concentration1 posterior) [1%nat])
           (get (Beta.concentration0 posterior) [1%nat]) x
         + get log_normalizer [1%nat])%R.
Proof.
  assert (W1 : Beta_wf beta_batch) by (repeat split).
  assert (W2 : Beta_wf beta_scalar) by (repeat split).
  destruct (Beta_conjugate_update lgamma_int env_validating
              beta_batch (DBeta beta_scalar)) as [[p ln]|e] eqn:Hcu.
  - exists p, ln. split; [reflexivity|]. intros x.
    destruct (@Beta_conjugate_update_inv lgamma_int env_validating
                beta_batch beta_scalar p ln W1 W2 Hcu) as (s & Hs & Hsh & _).
    injection Hs as <-.
    assert (Hv : valid_index (shape ln) [1]) by (rewrite Hsh; repeat constructor).
    exact (proj1 (conjugate_update_fuses_densities lgamma_int env_validating)
             beta_batch beta_scalar p ln W1 W2 Hcu [1] x Hv).
  - exfalso.
    destruct (@Beta_conjugate_update_entries lgamma_int env_validating
                beta_batch beta_scalar [2] W1 W2 eq_refl)
      as (p & ln & Hcu' & _).
    + intros _ idx Hv. index_cases Hv; run; lra.
    + rewrite Hcu in Hcu'. discriminate.
Defined.

(** ** Expansion and the choice of the sampling branch *)

Lemma numel_pos (s : Shape) : 0 < numel s -> Forall (lt 0) s.
Proof.
  induction s as [|d s IH]; simpl; intros H; constructor.
  - destruct d; [simpl in H; lia | lia].
  - apply IH. destruct (numel s); [lia | lia].
Qed.

Lemma valid_index_zeros (s : Shape) :
  Forall (lt 0) s -> valid_index s (repeat 0 (length s)).
Proof.
  unfold valid_index. induction 1; simpl; constructor; auto.
Qed.

Lemma valid_index_fits (a s : Shape) (i : Index) :
  length a = length s -> forallb fits (combine a s) = true ->
  Forall (lt 0) s -> valid_index a i -> valid_index s i.
Proof.
  unfold valid_index. intros Hl Hf Hp Hv. revert s Hl Hf Hp.
  induction Hv as [|x d i a Hx Hv IH]; intros [|e s] Hl Hf Hp;
    simpl in *; try discriminate; constructor.
  - apply andb_prop in Hf as [Hd _]. unfold fits in Hd; simpl in Hd.
    inversion Hp; subst.
    destruct (Nat.eqb_spec d e); [lia|].
    destruct (Nat.eqb_spec d 1); [lia | discriminate].
  - apply andb_prop in Hf as [_ Hf]. inversion Hp; subst.
    apply IH; [lia | exact Hf | assumption].
Qed.

(** Every index of a tensor is read by some index of its expansion to a
    shape without an empty dimension. *)
Lemma bidx_onto (a s : Shape) (i : Index) :
  expandable a s = true -> 0 < numel s -> valid_index a i ->
  exists idx, valid_index s idx /\ bidx a idx = i.
Proof.
  unfold expandable. intros He Hn Hv.
  apply andb_prop in He as [Hl Hf]. apply Nat.leb_le in Hl.
  apply numel_pos in Hn.
  set (k := length s - length a) in *.
  assert (Es : firstn k s ++ skipn k s = s) by apply firstn_skipn.
  assert (Hp : Forall (lt 0) (firstn k s) /\ Forall (lt 0) (skipn k s))
    by (apply Forall_app; now rewrite Es).
  destruct Hp as [Hp1 Hp2].
  assert (Lk : length (firstn k s) = k)
    by (rewrite length_firstn; unfold k; lia).
  assert (La : length a = length (skipn k s))
    by (rewrite length_skipn; unfold k; lia).
  exists (repeat 0 (length (firstn k s)) ++ i). split.
  - rewrite <- Es at 1. unfold valid_index. apply Forall2_app.
    + now apply valid_index_zeros.
    + now apply (@valid_index_fits a).
  - unfold bidx. rewrite length_app, repeat_length, Lk.
    rewrite (valid_index_length Hv).
    replace (k + length a - length a) with (length (repeat 0 k)) at 1
      by (rewrite repeat_length; lia).
    rewrite skipn_app, skipn_all, Nat.sub_diag. cbn [app skipn].
    now apply mask_id.
Qed.

Lemma in_data_get {A} `{Dflt A} (x : t A) (v : A) :
  wf x -> In v (data x) ->
  exists idx, valid_index (shape x) idx /\ get x idx = v.
Proof.
  intros Hw Hin. apply (In_nth _ _ dflt) in Hin as (k & Hk & Hv).
  unfold wf in Hw. rewrite Hw in Hk.
  exists (unravel (shape x) k). split; [now apply unravel_valid|].
  unfold get. now rewrite ravel_unravel.
Qed.

(** An expansion to a shape without an empty dimension holds the elements
    of the original, and so has the same minimum. *)
Lemma expand_in_data {A} `{Dflt A} (x y : t A) (s : Shape) (v : A) :
  wf x -> expand x s = Ok y -> 0 < numel s ->
  (In v (data y) <-> In v (data x)).
Proof.
  intros Wx Hy Hn. pose proof (expand_wf _ _ Hy) as (Wy & Sy).
  unfold expand in Hy.
  destruct (expandable (shape x) s) eqn:He; [|discriminate].
  injection Hy as <-. split; intros Hin.
  - apply (@in_data_get _ _ _ _ Wy) in Hin as (idx & Hv & <-).
    rewrite shape_tabulate in Hv. rewrite (get_tabulate _ Hv).
    apply get_in_data; [exact Wx | now apply bidx_valid with (s := s)].
  - apply (@in_data_get _ _ _ _ Wx) in Hin as (i & Hv & <-).
    destruct (bidx_onto _ He Hn Hv) as (idx & Hidx & <-).
    rewrite <- (get_tabulate (fun idx => get x (bidx (shape x) idx)) Hidx).
    apply get_in_data; [exact Wy | now rewrite shape_tabulate].
Qed.

Lemma tmin_expand (x y : t R) (s : Shape) :
  wf x -> expand x s = Ok y -> 0 < numel s ->
  exists m, tmin x = Ok m /\ tmin y = Ok m.
Proof.
  intros Wx Hy Hn. pose proof (expand_wf _ _ Hy) as (Wy & Sy).
  assert (Hne : data y <> []).
  { unfold wf in Wy. rewrite Sy in Wy. destruct (data y); [simpl in Wy; lia|].
    discriminate. }
  destruct (tmin y) as [m|e] eqn:Hm.
  - exists m. split; [|reflexivity].
    apply tmin_spec in Hm as (Hin & Hall). apply tmin_spec. split.
    + now apply (@expand_in_data _ _ x y s m Wx Hy Hn).
    + apply Forall_forall. intros v Hv. rewrite Forall_forall in Hall.
      apply Hall. now apply (@expand_in_data _ _ x y s v Wx Hy Hn).
  - unfold tmin in Hm. destruct (data y); [congruence | discriminate].
Qed.

Lemma Binomial_expand_wf (d d' : Binomial.obj) (s : Shape) :
  Binomial_wf d -> Binomial_expand d s = Ok d' -> Binomial_wf d'.
Proof.
  intros (Wt & St & Wp & Wl & Hone & Hge). unfold Binomial_expand.
  destruct (expand (Binomial.total_count d) s) as [tc|] eqn:Et;
    [|discriminate].
  cbn [bind].
  destruct (expand_entry (Binomial.dict_probs d) s) as [p|] eqn:Ep;
    [|discriminate].
  cbn [bind].
  destruct (expand_entry (Binomial.dict_logits d) s) as [l|] eqn:El;
    [|discriminate].
  cbn [bind]. intros [= <-].
  destruct (expand_wf _ _ Et) as (Wtc & Stc).
  destruct (expand_entry_wf _ _ Ep) as (Wp' & Np).
  destruct (expand_entry_wf _ _ El) as (Wl' & Nl).
  unfold Binomial_wf. cbn.
  repeat split; auto.
  destruct Hone as [Hp | Hl]; [left | right]; auto.
Qed.

(** X10: expanding a Binomial does not change the branch that [sample]
    takes.  For a Binomial expanded to a shape without an empty
    dimension, the result of [sample] is that of the clamped-Poisson
    steps on the original and on the expansion, or that of the exact
    sampler on both, or, with a threshold that cannot be compared with a
    tensor, [TypeError] on both. *)
Theorem Binomial_expand_keeps_sample_path (rng : Rng) (d d' : Binomial.obj)
    (s sample_shape sample_shape' : Shape) :
  Binomial_wf d ->
  Binomial_expand d s = Ok d' -> 0 < numel s ->
  (Binomial_sample rng d sample_shape
   = (x <- Binomial_sample_approx rng d sample_shape ;; Ok (Approximate, x))
   /\
   Binomial_sample rng d' sample_shape'
   = (x <- Binomial_sample_approx rng d' sample_shape' ;;
      Ok (Approximate, x)))
  \/
  (Binomial_sample rng d sample_shape
   = (x <- binomial rng d sample_shape ;; Ok (Exact, x))
   /\
   Binomial_sample rng d' sample_shape'
   = (x <- binomial rng d' sample_shape' ;; Ok (Exact, x)))
  \/
  (Binomial_sample rng d sample_shape = Err TypeError /\
   Binomial_sample rng d' sample_shape' = Err TypeError).
Proof.
  intros Wd Hd' Hn.
  assert (Hm : exists m, tmin (Binomial.total_count d) = Ok m /\
                         tmin (Binomial.total_count d') = Ok m /\
                         Binomial.approx_sample_thresh d'
                         = Binomial.approx_sample_thresh d).
  { destruct Wd as (Wt & _). unfold Binomial_expand in Hd'.
    destruct (expand (Binomial.total_count d) s) as [tc|] eqn:Et;
      [|discriminate].
    cbn [bind] in Hd'.
    destruct (expand_entry (Binomial.dict_probs d) s); [|discriminate].
    cbn [bind] in Hd'.
    destruct (expand_entry (Binomial.dict_logits d) s); [|discriminate].
    cbn [bind] in Hd'. injection Hd' as <-. cbn.
    destruct (@tmin_expand _ _ _ Wt Et Hn) as (m & H1 & H2). exists m. auto. }
  destruct Hm as (m & Hm & Hm' & Ht).
  unfold Binomial_sample. rewrite Ht, Hm, Hm'. cbn [bind].
  destruct (pyfloat_lt_inf (Binomial.approx_sample_thresh d)); [|auto].
  destruct (pyfloat_lt (Binomial.approx_sample_thresh d) m) as [[|]|e] eqn:E;
    cbn [bind]; auto.
  destruct (Binomial.approx_sample_thresh d); try discriminate.
  injection E as <-. auto.
Qed.

Lemma Binomial_expand_keeps_sample_path_witness :
  exists d' x x',
    Binomial_expand binomial_approx [3; 2] = Ok d' /\
    Binomial_sample rng_const binomial_approx [] = Ok (Approximate, x) /\
    Binomial_sample rng_const d' [] = Ok (Approximate, x').
Proof.
  destruct (Binomial_expand binomial_approx [3; 2]) as [d'|] eqn:Hd';
    [|discriminate].
  assert (Hn : 0 < numel [3; 2]) by (simpl; lia).
  pose proof (@Binomial_expand_wf _ _ _ binomial_approx_wf Hd') as Wd'.
  assert (Hnn : forall dd, dd = binomial_approx \/ dd = d' ->
            forall i, valid_index (Binomial._batch_shape dd) i ->
              (0 <= get (Binomial_probs dd) i
                    * (1 - get (Binomial_probs dd) i)
                    * get (Binomial.total_count dd) i)%R).
  { intros dd [-> | ->] i Hv.
    - index_cases Hv; run; lra.
    - injection Hd' as <-. index_cases Hv; run; lra. }
  destruct (Binomial_sample_approx_entries []
              binomial_approx_wf Rng_wf_const (Hnn _ (or_introl eq_refl)))
    as (x & _ & Hx & _).
  destruct (Binomial_sample_approx_entries []
              Wd' Rng_wf_const (Hnn _ (or_intror eq_refl)))
    as (x' & _ & Hx' & _).
  exists d', x, x'. split; [reflexivity|].
  destruct (@Binomial_expand_keeps_sample_path rng_const binomial_approx d'
              [3; 2] [] [] binomial_approx_wf Hd' Hn)
    as [(H1 & H2) | [(H1 & H2) | (H1 & H2)]].
  - rewrite H1, H2, Hx, Hx'. split; reflexivity.
  - exfalso. revert H1. unfold Binomial_sample. rewrite Hx.
    rewrite (proj2 (tmin_spec _ _) binomial_sample_min). cbn.
    unfold ltb_R. destruct (Rlt_dec 5 10); [discriminate | lra].
  - exfalso. revert H1. unfold Binomial_sample. rewrite Hx.
    rewrite (proj2 (tmin_spec _ _) binomial_sample_min). cbn.
    unfold ltb_R. destruct (Rlt_dec 5 10); [discriminate | lra].
Defined.

(** ** Loading the distributions of torch *)

Lemma lookup_assign_eq {V} (ns : list (string * V)) (name : string) (v : V) :
  lookup (assign ns name v) name = Some v.
Proof.
  induction ns as [|[k w] ns IH]; simpl.
  - now rewrite String.eqb_refl.
  - destruct (String.eqb k name) eqn:E; simpl; rewrite E; auto.
Qed.

Lemma lookup_assign_neq {V} (ns : list (string * V)) (name n : string)
    (v : V) :
  n <> name -> lookup (assign ns name v) n = lookup ns n.
Proof.
  intros Hne. induction ns as [|[k w] ns IH]; simpl.
  - destruct (String.eqb_spec name n); [congruence | reflexivity].
  - destruct (String.eqb_spec k name) as [->|]; simpl.
    + destruct (String.eqb_spec name n); [congruence | reflexivity].
    + now rewrite IH.
Qed.

Lemma not_loop_variable (n : string) :
  ~ In n loop_variables ->
  n <> "_name"%string /\ n <> "_Dist"%string /\
  n <> "_PyroDist"%string /\ n <> "__all__"%string.
Proof.
  unfold loop_variables. cbn [In]. intros H.
  repeat split; intros ->; apply H; auto.
Qed.

(** Reads a name through the assignments made before. *)
Ltac lookups :=
  repeat first
    [ rewrite lookup_assign_eq
    | rewrite lookup_assign_neq by (first [assumption | discriminate
                                          | congruence]) ].

Lemma set_doc_wrapped_binding (v v' : module_value) (name : string)
    (D : torch_class) :
  set_doc v (wrap_doc D) = Ok v' -> v' = wrapped_binding (Some v) name D.
Proof.
  destruct v as [c|s|l|[c|[|]]|[|]]; cbn; intros [= <-]; reflexivity.
Qed.

Lemma set_doc_any (v : module_value) (doc doc' : string) :
  (exists v', set_doc v doc = Ok v') -> exists v', set_doc v doc' = Ok v'.
Proof.
  destruct v as [c|s|l|[c|[|]]|[|]]; cbn; intros (v' & H);
    try discriminate; eauto.
Qed.

(** A turn on an entry that is not wrapped binds [_name] and [_Dist]
    and nothing else. *)
Lemma load_item_skips (locals : namespace) (item : string * torch_value) :
  wrapped item = false ->
  load_item locals item
  = Ok (assign (assign locals "_name" (Str (fst item)))
               "_Dist" (FromTorch (snd item))).
Proof.
  destruct item as [name [D|w]]; unfold wrapped; cbn [fst snd load_item];
    [|reflexivity].
  destruct (subclass_of_Distribution D); [|reflexivity].
  destruct (is_Distribution D); [reflexivity | discriminate].
Qed.

(** A turn on an entry that is wrapped. *)
Lemma load_item_wraps (locals locals' : namespace) (all : list string)
    (name : string) (D : torch_class) :
  wrapped (name, TorchType D) = true ->
  ~ In name loop_variables ->
  lookup locals "__all__" = Some (ListOf all) ->
  load_item locals (name, TorchType D) = Ok locals' ->
  lookup locals' "__all__" = Some (ListOf (all ++ [name])) /\
  lookup locals' name
  = Some (wrapped_binding (lookup locals name) name D) /\
  lookup locals' "_PyroDist" = lookup locals' name /\
  lookup locals' "_name" = Some (Str name) /\
  lookup locals' "_Dist" = Some (FromTorch (TorchType D)) /\
  forall n, n <> name -> ~ In n loop_variables ->
            lookup locals' n = lookup locals n.
Proof.
  unfold wrapped. cbn [snd load_item]. intros Hw Hn Hall.
  apply andb_prop in Hw as [Hs Hb]. rewrite Hs.
  destruct (is_Distribution D); [discriminate|]. cbn [negb].
  destruct (not_loop_variable Hn) as (N1 & N2 & N3 & N4).
  assert (Hl : lookup (assign (assign locals "_name" (Str name)) "_Dist"
                         (FromTorch (TorchType D))) name
               = lookup locals name) by (now lookups).
  rewrite Hl.
  destruct (lookup locals name) as [v|] eqn:Hv.
  - destruct (set_doc v (wrap_doc D)) as [v'|] eqn:Hd; [|discriminate].
    cbn [bind]. unfold append_all. lookups. rewrite Hall.
    intros [= <-].
    rewrite (@set_doc_wrapped_binding v v' name D Hd).
    repeat split; try (now lookups).
    intros n Hne Hnl. destruct (not_loop_variable Hnl) as (M1 & M2 & M3 & M4).
    now lookups.
  - cbn [set_doc bind]. unfold append_all. lookups. rewrite Hall.
    intros [= <-].
    repeat split; try (now lookups).
    intros n Hne Hnl. destruct (not_loop_variable Hnl) as (M1 & M2 & M3 & M4).
    now lookups.
Qed.

Lemma load_item_binds (locals locals' : namespace)
    (item : string * torch_value) :
  (wrapped item = true -> ~ In (fst item) loop_variables) ->
  load_item locals item = Ok locals' ->
  lookup locals' "_name" = Some (Str (fst item)) /\
  lookup locals' "_Dist" = Some (FromTorch (snd item)).
Proof.
  intros Hn' H. destruct (wrapped item) eqn:Hw.
  - assert (Hn : ~ In (fst item) loop_variables)
      by (apply Hn'; first [exact Hw | reflexivity]).
    clear Hn'.
    destruct item as [name [D|w]]; [|discriminate].
    cbn [fst snd] in *.
    destruct (not_loop_variable Hn) as (N1 & N2 & N3 & N4).
    revert H. pose proof Hw as Hw'. unfold wrapped in Hw'. cbn [snd] in Hw'.
    apply andb_prop in Hw' as [Hs Hb]. cbn [load_item]. rewrite Hs.
    destruct (is_Distribution D); [discriminate|]. cbn [negb].
    destruct (match lookup _ name with Some v => _ | None => _ end)
      as [P l0] eqn:E.
    destruct (set_doc P (wrap_doc D)) as [P'|]; [|discriminate].
    cbn [bind]. unfold append_all.
    destruct (lookup _ "__all__") as [[| |l| |]|]; try discriminate.
    intros [= <-].
    assert (El : lookup l0 "_name" = Some (Str name) /\
                 lookup l0 "_Dist" = Some (FromTorch (TorchType D))).
    { destruct (lookup _ name) in E; injection E as <- <-; split;
        now lookups. }
    destruct El as (E1 & E2). split; now lookups.
  - rewrite (@load_item_skips _ _ Hw) in H. injection H as <-.
    split; now lookups.
Qed.

Lemma load_items_spec (items : list (string * torch_value)) :
  forall locals all locals',
    NoDup (map fst items) ->
    (forall item, In item items -> wrapped item = true ->
                  ~ In (fst item) loop_variables) ->
    lookup locals "__all__" = Some (ListOf all) ->
    load_items items locals = Ok locals' ->
    lookup locals' "__all__"
    = Some (ListOf (all ++ map fst (filter wrapped items))) /\
    (forall name D,
       In (name, TorchType D) items -> wrapped (name, TorchType D) = true ->
       lookup locals' name
       = Some (wrapped_binding (lookup locals name) name D)) /\
    (forall n, ~ In n (map fst (filter wrapped items)) ->
               ~ In n loop_variables ->
               lookup locals' n = lookup locals n).
Proof.
  induction items as [|[k v] items IH]; intros locals all locals' Hnd Hlv Hall H.
  - simpl in H. injection H as <-. simpl.
    rewrite app_nil_r. split; [exact Hall|]. split; [intros ? ? []|auto].
  - cbn [map fst] in Hnd. inversion Hnd as [|? ? Hk Hnd']; subst.
    assert (Hlv' : forall item, In item items -> wrapped item = true ->
                                ~ In (fst item) loop_variables)
      by (intros it Hin; apply Hlv; now right).
    cbn [load_items] in H.
    destruct (load_item locals (k, v)) as [locals1|] eqn:H1; [|discriminate].
    cbn [bind] in H.
    destruct (wrapped (k, v)) eqn:Hw.
    + assert (Hkl : ~ In k loop_variables)
        by (apply (Hlv (k, v)); [now left | exact Hw]).
      destruct v as [D|w]; [|discriminate].
      destruct (@load_item_wraps _ _ _ _ _ Hw Hkl Hall H1)
        as (Ha & Hb & _ & _ & _ & Hc).
      destruct (IH _ _ _ Hnd' Hlv' Ha H) as (Ia & Ib & Ic).
      assert (Hk' : ~ In k (map fst (filter wrapped items))).
      { intros Hin. apply Hk. apply in_map_iff in Hin as ([k' v'] & <- & Hf).
        apply filter_In in Hf as [Hf _]. now apply (in_map fst) in Hf. }
      cbn [filter]. rewrite Hw. cbn [map fst].
      split; [rewrite Ia, <- app_assoc; reflexivity|]. split.
      * intros name D' [[= <- <-] | Hin] Hw'.
        -- now rewrite (Ic _ Hk' Hkl).
        -- assert (Hne : name <> k).
           { intros ->. apply Hk. now apply (in_map fst) in Hin. }
           assert (Hnl : ~ In name loop_variables)
             by (apply (Hlv' (name, TorchType D') Hin Hw')).
           rewrite (Ib _ _ Hin Hw'). now rewrite (Hc _ Hne Hnl).
      * intros n Hn Hnl. cbn [In] in Hn.
        assert (Hne : n <> k) by (intros ->; apply Hn; now left).
        rewrite (Ic n) by (auto; intros Hin; apply Hn; now right).
        now apply Hc.
    + rewrite (@load_item_skips _ _ Hw) in H1. injection H1 as <-.
      cbn [fst snd] in H.
      assert (Ha : lookup (assign (assign locals "_name" (Str k)) "_Dist"
                             (FromTorch v)) "__all__" = Some (ListOf all))
        by (now lookups).
      destruct (IH _ _ _ Hnd' Hlv' Ha H) as (Ia & Ib & Ic).
      cbn [filter]. rewrite Hw.
      split; [exact Ia|]. split.
      * intros name D' [[= <- <-] | Hin] Hw'; [congruence|].
        assert (Hnl : ~ In name loop_variables)
          by (apply (Hlv' (name, TorchType D') Hin Hw')).
        destruct (not_loop_variable Hnl) as (N1 & N2 & N3 & N4).
        rewrite (Ib _ _ Hin Hw'). now lookups.
      * intros n Hn Hnl.
        destruct (not_loop_variable Hnl) as (N1 & N2 & N3 & N4).
        rewrite (Ic n Hn Hnl). now lookups.
Qed.

(** The loop runs to its end when the docstring of whatever is bound to
    a wrapped name can be assigned. *)
Lemma load_items_returns (items : list (string * torch_value)) :
  forall locals all,
    NoDup (map fst items) ->
    (forall item, In item items -> wrapped item = true ->
                  ~ In (fst item) loop_variables) ->
    lookup locals "__all__" = Some (ListOf all) ->
    (forall name D,
       In (name, TorchType D) items -> wrapped (name, TorchType D) = true ->
       doc_assignable (lookup locals name)) ->
    exists locals', load_items items locals = Ok locals'.
Proof.
  induction items as [|[k v] items IH]; intros locals all Hnd Hlv Hall Hok.
  - simpl. eauto.
  - cbn [map fst] in Hnd. inversion Hnd as [|? ? Hk Hnd']; subst.
    assert (Hlv' : forall item, In item items -> wrapped item = true ->
                                ~ In (fst item) loop_variables)
      by (intros it Hin; apply Hlv; now right).
    cbn [load_items].
    destruct (wrapped (k, v)) eqn:Hw.
    + assert (Hkl : ~ In k loop_variables)
        by (apply (Hlv (k, v)); [now left | exact Hw]).
      destruct (not_loop_variable Hkl) as (N1 & N2 & N3 & N4).
      destruct v as [D|w]; [|discriminate].
      assert (H1 : exists locals1,
                 load_item locals (k, TorchType D) = Ok locals1).
      { pose proof Hw as Hw'. unfold wrapped in Hw'. cbn [snd] in Hw'.
        apply andb_prop in Hw' as [Hs Hb]. cbn [load_item]. rewrite Hs.
        destruct (is_Distribution D); [discriminate|]. cbn [negb].
        assert (Hl : lookup (assign (assign locals "_name" (Str k)) "_Dist"
                               (FromTorch (TorchType D))) k
                     = lookup locals k) by (now lookups).
        rewrite Hl.
        pose proof (Hok k D (or_introl eq_refl) Hw) as Hd.
        destruct (lookup locals k) as [x|].
        - destruct (@set_doc_any x _ (wrap_doc D) Hd) as (x' & ->).
          cbn [bind]. unfold append_all. lookups. rewrite Hall. eauto.
        - cbn [set_doc bind]. unfold append_all. lookups. rewrite Hall.
          eauto. }
      destruct H1 as (locals1 & H1). rewrite H1. cbn [bind].
      destruct (@load_item_wraps _ _ _ _ _ Hw Hkl Hall H1)
        as (Ha & _ & _ & _ & _ & Hc).
      apply (IH locals1 (all ++ [k]) Hnd' Hlv' Ha).
      intros name D' Hin Hw'.
      assert (Hne : name <> k).
      { intros ->. apply Hk. now apply (in_map fst) in Hin. }
      assert (Hnl : ~ In name loop_variables)
        by (apply (Hlv' (name, TorchType D') Hin Hw')).
      rewrite (Hc _ Hne Hnl). apply (Hok name D'); [now right | exact Hw'].
    + rewrite (@load_item_skips _ _ Hw). cbn [bind fst snd].
      apply (IH _ all Hnd' Hlv'); [now lookups|].
      intros name D' Hin Hw'.
      assert (Hnl : ~ In name loop_variables)
        by (apply (Hlv' (name, TorchType D') Hin Hw')).
      destruct (not_loop_variable Hnl) as (M1 & M2 & M3 & M4).
      lookups. apply (Hok name D'); [now right | exact Hw'].
Qed.

(** After the loop [_name] and [_Dist] hold the last entry of torch. *)
Lemma load_items_last (items : list (string * torch_value)) :
  forall locals locals' item,
    (forall item, In item items -> wrapped item = true ->
                  ~ In (fst item) loop_variables) ->
    load_items items locals = Ok locals' ->
    last (map Some items) None = Some item ->
    lookup locals' "_name" = Some (Str (fst item)) /\
    lookup locals' "_Dist" = Some (FromTorch (snd item)).
Proof.
  induction items as [|it items IH]; intros locals locals' item Hlv H Hlast.
  - discriminate.
  - cbn [load_items] in H.
    destruct (load_item locals it) as [locals1|] eqn:H1; [|discriminate].
    cbn [bind] in H.
    destruct items as [|it' items].
    + cbn in H, Hlast. injection H as <-. injection Hlast as <-.
      eapply load_item_binds; [|exact H1].
      apply Hlv. now left.
    + apply (IH locals1); [|exact H|exact Hlast].
      intros it0 Hin. apply Hlv. now right.
Qed.

(** Turns that wrap nothing leave all but [_name] and [_Dist] alone. *)
Lemma load_items_unwrapped (items : list (string * torch_value)) :
  forall locals locals',
    filter wrapped items = [] ->
    load_items items locals = Ok locals' ->
    forall n, n <> "_name"%string -> n <> "_Dist"%string ->
              lookup locals' n = lookup locals n.
Proof.
  induction items as [|it items IH]; intros locals locals' Hf H n N1 N2.
  - cbn in H. now injection H as <-.
  - cbn [filter] in Hf. destruct (wrapped it) eqn:Hw; [discriminate|].
    cbn [load_items] in H. rewrite (@load_item_skips _ _ Hw) in H.
    cbn [bind] in H. rewrite (IH _ _ Hf H n N1 N2). now lookups.
Qed.

(** After the loop [_PyroDist] holds the class wrapped last. *)
Lemma load_items_last_wrapped (items : list (string * torch_value)) :
  forall locals all locals' name v,
    (forall item, In item items -> wrapped item = true ->
                  ~ In (fst item) loop_variables) ->
    lookup locals "__all__" = Some (ListOf all) ->
    load_items items locals = Ok locals' ->
    last_wrapped items = Some (name, v) ->
    lookup locals' "_PyroDist" = lookup locals' name.
Proof.
  induction items as [|[k w] items IH];
    intros locals all locals' name v Hlv Hall H Hlast.
  - discriminate.
  - assert (Hlv' : forall item, In item items -> wrapped item = true ->
                                ~ In (fst item) loop_variables)
      by (intros it Hin; apply Hlv; now right).
    cbn [load_items] in H.
    destruct (load_item locals (k, w)) as [locals1|] eqn:H1; [|discriminate].
    cbn [bind] in H.
    unfold last_wrapped in Hlast. cbn [filter] in Hlast.
    destruct (wrapped (k, w)) eqn:Hw.
    + assert (Hkl : ~ In k loop_variables)
        by (apply (Hlv (k, w)); [now left | exact Hw]).
      destruct w as [D|w]; [|discriminate].
      destruct (@load_item_wraps _ _ _ _ _ Hw Hkl Hall H1)
        as (Ha & _ & Hp & _ & _ & _).
      destruct (filter wrapped items) as [|it' rest] eqn:Hf.
      * cbn in Hlast. injection Hlast as <- <-.
        destruct (not_loop_variable Hkl) as (N1 & N2 & N3 & N4).
        rewrite (@load_items_unwrapped _ _ _ Hf H) by discriminate.
        rewrite (@load_items_unwrapped _ _ _ Hf H) by assumption.
        exact Hp.
      * apply (IH locals1 (all ++ [k]) locals' name v Hlv' Ha H).
        unfold last_wrapped. rewrite Hf. exact Hlast.
    + rewrite (@load_item_skips _ _ Hw) in H1. injection H1 as <-.
      eapply (IH _ all locals' name v Hlv'); [|exact H|exact Hlast].
      now lookups.
Qed.

(** X11: the loop that loads the distributions of torch, over the
    entries of a dict (no name twice), when no class that it wraps is
    named like one of its own variables ([_name], [_Dist], [_PyroDist],
    [__all__]).  It returns when the docstring of whatever the module has
    bound to a name it wraps can be assigned.  When it returns,
    [__all__] lists, in the order of [torch.distributions.__dict__], the
    names of the classes below [Distribution], that class left out; each
    of these names is bound in the module, to the class the module had
    defined under that name, with its docstring replaced, or else to a
    new class with the bases [(_Dist, TorchDistributionMixin)]; the loop
    leaves its variables in the module, [_name] and [_Dist] with the last
    entry of torch and [_PyroDist] with the class wrapped last; and no
    other name of the module has changed. *)
Theorem load_distributions_wraps
    (torch_distributions : list (string * torch_value)) (locals : namespace) :
  NoDup (map fst torch_distributions) ->
  (forall item, In item torch_distributions -> wrapped item = true ->
                ~ In (fst item) loop_variables) ->
  ((forall name D,
      In (name, TorchType D) torch_distributions ->
      wrapped (name, TorchType D) = true ->
      doc_assignable (lookup locals name)) ->
   exists locals', load_distributions torch_distributions locals = Ok locals')
  /\
  (forall locals',
     load_distributions torch_distributions locals = Ok locals' ->
     lookup locals' "__all__"
     = Some (ListOf (map fst (filter wrapped torch_distributions))) /\
     (forall name D,
        In (name, TorchType D) torch_distributions ->
        wrapped (name, TorchType D) = true ->
        lookup locals' name
        = Some (wrapped_binding (lookup locals name) name D)) /\
     (forall item,
        last (map Some torch_distributions) None = Some item ->
        lookup locals' "_name" = Some (Str (fst item)) /\
        lookup locals' "_Dist" = Some (FromTorch (snd item))) /\
     (forall name v,
        last_wrapped torch_distributions = Some (name, v) ->
        lookup locals' "_PyroDist" = lookup locals' name) /\
     (forall n,
        ~ In n (map fst (filter wrapped torch_distributions)) ->
        ~ In n loop_variables ->
        lookup locals' n = lookup locals n)).
Proof.
  intros Hnd Hlv.
  assert (Hall : lookup (assign locals "__all__" (ListOf [])) "__all__"
                 = Some (ListOf [])) by apply lookup_assign_eq.
  assert (Hsame : forall n, ~ In n loop_variables ->
            lookup (assign locals "__all__" (ListOf [])) n = lookup locals n).
  { intros n Hn. destruct (not_loop_variable Hn) as (_ & _ & _ & N4).
    now lookups. }
  unfold load_distributions. split.
  - intros Hok. apply (@load_items_returns _ _ _ Hnd Hlv Hall).
    intros name D Hin Hw. rewrite Hsame; [now apply (Hok name D)|].
    exact (Hlv (name, TorchType D) Hin Hw).
  - intros locals' H.
    destruct (@load_items_spec _ _ _ _ Hnd Hlv Hall H) as (Ha & Hb & Hc).
    split; [exact Ha|]. split; [|split; [|split]].
    + intros name D Hin Hw. rewrite (Hb name D Hin Hw), Hsame; [reflexivity|].
      exact (Hlv (name, TorchType D) Hin Hw).
    + intros item Hlast. exact (@load_items_last _ _ _ _ Hlv H Hlast).
    + intros name v Hlast.
      exact (@load_items_last_wrapped _ _ _ _ _ _ Hlv Hall H Hlast).
    + intros n Hn Hnl. rewrite (Hc n Hn Hnl). now apply Hsame.
Qed.

Lemma load_distributions_wraps_witness :
  exists locals',
    load_distributions torch_sample locals_sample = Ok locals' /\
    lookup locals' "__all__"%string
      = Some (ListOf ["Beta"; "Poisson"]%string) /\
    lookup locals' "Beta"%string
      = Some (Class (mkPyroClass "Beta"
                       [BaseTorch torch_Beta; TorchDistributionMixin]
                       this_module (Some (wrap_doc torch_Beta)))) /\
    lookup locals' "Poisson"%string
      = Some (Class (generated_class "Poisson" torch_Poisson)) /\
    lookup locals' "_PyroDist"%string
      = Some (Class (generated_class "Poisson" torch_Poisson)) /\
    lookup locals' "_name"%string = Some (Str "Poisson") /\
    lookup locals' "__name__"%string = Some (Str this_module) /\
    lookup locals' "math"%string = Some (Object true).
Proof.
  assert (Hnd : NoDup (map fst torch_sample)).
  { cbn. repeat constructor; cbn; intuition discriminate. }
  assert (Hlv : forall item, In item torch_sample -> wrapped item = true ->
                             ~ In (fst item) loop_variables).
  { intros item Hin Hw Hl. cbn in Hin.
    repeat (destruct Hin as [<- | Hin];
            [first [discriminate Hw
                   | cbn in Hl;
                     repeat (destruct Hl as [Hl | Hl]; [discriminate|]);
                     contradiction]|]).
    contradiction. }
  destruct (@load_distributions_wraps torch_sample locals_sample Hnd Hlv)
    as (Hret & Hspec).
  destruct Hret as (locals' & H).
  { intros name D Hin Hw. cbn in Hin.
    repeat (destruct Hin as [Hin | Hin];
            [first [discriminate Hin | injection Hin as <- <-];
             first [discriminate Hw | cbn; eauto; exact I]|]).
    contradiction. }
  destruct (Hspec locals' H) as (Ha & Hb & Hl & Hp & Hc).
  assert (HP : lookup locals' "Poisson"%string
               = Some (Class (generated_class "Poisson" torch_Poisson))).
  { apply (Hb "Poisson"%string torch_Poisson);
      [right; right; right; right; right; now left | reflexivity]. }
  exists locals'. split; [exact H|]. split; [exact Ha|].
  split; [|split; [exact HP|split; [|split; [|split]]]].
  - apply (Hb "Beta"%string torch_Beta); [now left | reflexivity].
  - rewrite (Hp "Poisson"%string (TorchType torch_Poisson) eq_refl).
    exact HP.
  - exact (proj1 (Hl _ eq_refl)).
  - apply (Hc "__name__"%string); cbn; intuition discriminate.
  - apply (Hc "math"%string); cbn; intuition discriminate.
Defined.

(** ** Independent and the validation flag *)

Lemma nth_error_set_nth {A} (l : list A) (i j : nat) (a : A) :
  i < length l ->
  nth_error (set_nth i a l) j = if j =? i then Some a else nth_error l j.
Proof.
  revert i j. induction l as [|x l IH]; intros i j Hi; simpl in Hi; [lia|].
  destruct i as [|i]; simpl.
  - destruct j; reflexivity.
  - destruct j as [|j]; simpl; [reflexivity|]. apply IH. lia.
Qed.

Lemma flag_holder_plain (depth : nat) (h : store) (self l : nat) :
  flag_holder depth h self = Some l ->
  l < length h /\ exists b, nth_error h l = Some (Plain b).
Proof.
  revert self. induction depth as [|depth IH]; intros self; simpl;
    [discriminate|].
  destruct (nth_error h self) as [[b|base n]|] eqn:E; try discriminate.
  - intros [= <-]. split; [|eauto].
    apply nth_error_Some. congruence.
  - apply IH.
Qed.

(** In a store without cycles a depth above the address is enough. *)
Lemma flag_holder_total (h : store) (depth self : nat) :
  store_wf h -> self < length h -> self < depth ->
  exists l, flag_holder depth h self = Some l.
Proof.
  intros Hwf. revert self. induction depth as [|depth IH];
    intros self Hs Hd; [lia|]. simpl.
  destruct (nth_error h self) as [[b|base n]|] eqn:E.
  - eauto.
  - pose proof (Hwf _ _ _ E). apply IH; lia.
  - apply nth_error_None in E. lia.
Qed.

Lemma get_validate_args_holder (depth : nat) (h : store) (self l : nat) :
  flag_holder depth h self = Some l ->
  exists b, nth_error h l = Some (Plain b) /\
            get_validate_args depth h self = Ok b.
Proof.
  revert self. induction depth as [|depth IH]; intros self; simpl;
    [discriminate|].
  destruct (nth_error h self) as [[b|base n]|] eqn:E; try discriminate.
  - intros [= <-]. eauto.
  - apply IH.
Qed.

Lemma set_validate_args_holder (depth : nat) (h : store) (self l : nat)
    (value : bool) :
  flag_holder depth h self = Some l ->
  set_validate_args depth h self value = Ok (set_nth l (Plain value) h).
Proof.
  revert self. induction depth as [|depth IH]; intros self; simpl;
    [discriminate|].
  destruct (nth_error h self) as [[b|base n]|] eqn:E; try discriminate.
  - now intros [= <-].
  - apply IH.
Qed.

(** Writing the flag of one object leaves the shape of the store as it
    was: every object reads its flag at the holder it had. *)
Lemma flag_holder_set_nth (depth : nat) (h : store) (l a : nat)
    (value b : bool) :
  nth_error h l = Some (Plain b) ->
  flag_holder depth (set_nth l (Plain value) h) a = flag_holder depth h a.
Proof.
  intros Hl. assert (Hlt : l < length h) by (apply nth_error_Some; congruence).
  revert a. induction depth as [|depth IH]; intros a; simpl; [reflexivity|].
  rewrite (nth_error_set_nth _ a _ Hlt).
  destruct (Nat.eqb_spec a l) as [->|Hne].
  - now rewrite Hl.
  - destruct (nth_error h a) as [[c|base n]|]; auto.
Qed.

(** X12: [Independent] keeps no validation flag of its own.  In a store
    without cycles, assigning [_validate_args] on an object writes the
    flag of the innermost base distribution and nothing else: afterwards
    every object that reads its flag there, the object itself, each of
    its bases and every other wrapper of them, reads the value assigned,
    and every other object reads what it read before. *)
Theorem Independent_validate_args_shared (h : store) (depth self : nat)
    (value : bool) :
  store_wf h -> self < length h -> length h <= depth ->
  exists h' l,
    flag_holder depth h self = Some l /\
    set_validate_args depth h self value = Ok h' /\
    length h' = length h /\
    get_validate_args depth h' self = Ok value /\
    forall a, a < length h ->
      get_validate_args depth h' a
      = if match flag_holder depth h a with
           | Some l' => l' =? l
           | None => false
           end
        then Ok value
        else get_validate_args depth h a.
Proof.
  intros Hwf Hs Hd.
  assert (Hsd : self < depth) by lia.
  destruct (@flag_holder_total h depth self Hwf Hs Hsd) as (l & Hl).
  destruct (flag_holder_plain _ _ _ Hl) as (Hlt & b & Hb).
  exists (set_nth l (Plain value) h), l.
  assert (Hlen : length (set_nth l (Plain value) h) = length h).
  { clear. revert l. induction h as [|x h IH]; intros [|l]; simpl; auto. }
  assert (Hall : forall a, a < length h ->
            get_validate_args depth (set_nth l (Plain value) h) a
            = if match flag_holder depth h a with
                 | Some l' => l' =? l
                 | None => false
                 end
              then Ok value
              else get_validate_args depth h a).
  { intros a Ha.
    assert (Had : a < depth) by lia.
    destruct (@flag_holder_total h depth a Hwf Ha Had) as (la & Hla).
    rewrite Hla.
    pose proof Hla as Hla'.
    rewrite <- (@flag_holder_set_nth depth h l a value b Hb) in Hla'.
    destruct (get_validate_args_holder _ _ _ Hla') as (c & Hc & ->).
    rewrite (nth_error_set_nth _ la _ Hlt) in Hc.
    destruct (Nat.eqb_spec la l) as [->|Hne].
    - now injection Hc as <-.
    - destruct (get_validate_args_holder _ _ _ Hla) as (c' & Hc' & ->).
      congruence. }
  split; [exact Hl|].
  split; [now apply set_validate_args_holder|].
  split; [exact Hlen|].
  split; [|exact Hall].
  rewrite (Hall self Hs), Hl, Nat.eqb_refl. reflexivity.
Qed.

Lemma Independent_validate_args_shared_witness :
  exists h',
    set_validate_args 5 store_sample 3 false = Ok h' /\
    get_validate_args 5 h' 0 = Ok false /\
    get_validate_args 5 h' 2 = Ok false /\
    get_validate_args 5 h' 4 = Ok true.
Proof.
  assert (Hwf : store_wf store_sample).
  { intros [|[|[|[|[|[|a]]]]]] base n E; simpl in E; try discriminate;
      injection E as <- _; lia. }
  assert (Hs : 3 < length store_sample) by (simpl; lia).
  assert (Hd : length store_sample <= 5) by (simpl; lia).
  destruct (@Independent_validate_args_shared store_sample 5 3 false
              Hwf Hs Hd) as (h' & l & Hl & Hset & _ & _ & Hall).
  cbn in Hl. injection Hl as <-.
  exists h'. split; [exact Hset|].
  split; [|split].
  - now rewrite (Hall 0) by (simpl; lia).
  - now rewrite (Hall 2) by (simpl; lia).
  - now rewrite (Hall 4) by (simpl; lia).
Defined.

(** ** Categorical.log_prob on a reshaped support *)

Lemma set_nth_app_r {A} (l1 l2 : list A) (i : nat) (a : A) :
  set_nth (length l1 + i) a (l1 ++ l2) = l1 ++ set_nth i a l2.
Proof.
  induction l1 as [|x l1 IH]; simpl; [reflexivity|].
  now rewrite IH.
Qed.

Lemma swap_middle (pre mid : list nat) (x y : nat) :
  swap (length pre) (length pre + S (length mid)) (pre ++ x :: mid ++ [y])
  = pre ++ y :: mid ++ [x].
Proof.
  unfold swap.
  rewrite nth_middle.
  rewrite app_nth2_plus. cbn [nth].
  change (mid ++ [y]) with (mid ++ y :: []). rewrite nth_middle.
  rewrite set_nth_app_r. cbn [set_nth]. rewrite set_nth_last.
  rewrite <- (Nat.add_0_r (length pre)) at 1.
  rewrite set_nth_app_r. reflexivity.
Qed.

Lemma valid_index_middle (pre mid : Shape) (K : nat) (idx : Index) :
  valid_index (pre ++ K :: mid) idx ->
  exists ip k im,
    idx = ip ++ k :: im /\ valid_index pre ip /\ k < K /\ valid_index mid im.
Proof.
  intros Hv. apply Forall2_app_inv_r in Hv as (ip & r & Hp & Hr & ->).
  inversion Hr as [|k d im s Hk Hm]; subst.
  now exists ip, k, im.
Qed.

Lemma enum_index_middle (ip im : Index) (k : nat) :
  enum_index (length ip) (ip ++ k :: im) = ip ++ 0 :: im ++ [k].
Proof.
  unfold enum_index.
  rewrite firstn_app, firstn_all, Nat.sub_diag. cbn [firstn].
  rewrite app_nil_r, nth_middle.
  replace (S (length ip)) with (1 + length ip) by lia.
  rewrite <- skipn_skipn.
  rewrite skipn_app, skipn_all, Nat.sub_diag. cbn [skipn app].
  reflexivity.
Qed.

(** The reshape-free part of the fast path: the axis of size 1 that
    stands [dim value] places before the last one is exchanged with the
    last axis, which is then squeezed away. *)
Lemma fast_core (check : bool) (lg : t R) (pre mid : Shape) (K : nat) :
  shape lg = pre ++ 1 :: mid ++ [K] ->
  exists out,
    (_ <- (if check
           then s <- size lg (-1 - Z.of_nat (S (length mid))) ;;
                assert (s =? 1)
           else Ok tt) ;;
     x <- transpose lg (-1 - Z.of_nat (S (length mid))) (-1) ;;
     Ok (squeeze_last x)) = Ok out /\
    entries out (pre ++ K :: mid)
      (fun idx => get lg (enum_index (length pre) idx)).
Proof.
  intros Hs.
  assert (Hd : dim lg = length pre + S (S (length mid))).
  { unfold dim. rewrite Hs, length_app. cbn [length].
    rewrite length_app. cbn [length]. lia. }
  replace (-1 - Z.of_nat (S (length mid)))%Z
    with (- Z.of_nat (S (S (length mid))))%Z by lia.
  assert (Hn : norm_dim (dim lg) (- Z.of_nat (S (S (length mid))))
               = Ok (length pre)).
  { rewrite norm_dim_neg by lia. f_equal. lia. }
  assert (Hl : norm_dim (dim lg) (-1) = Ok (length pre + S (length mid))).
  { change (-1)%Z with (- Z.of_nat 1)%Z. rewrite norm_dim_neg by lia.
    f_equal. lia. }
  assert (Hsz : size lg (- Z.of_nat (S (S (length mid)))) = Ok 1).
  { unfold size. rewrite Hn. cbn [bind]. now rewrite Hs, nth_middle. }
  eexists. split.
  - rewrite Hsz. cbn [bind]. unfold transpose. rewrite Hn, Hl. cbn [bind].
    rewrite Hs, swap_middle.
    now destruct check.
  - eapply entries_ext.
    + apply (squeeze_last_entries (pre ++ K :: mid)).
      rewrite <- app_assoc. cbn [app]. apply entries_tabulate.
    + intros idx Hv. cbv beta.
      apply valid_index_middle in Hv as (ip & k & im & -> & Hp & Hk & Hm).
      rewrite <- (valid_index_length Hp), <- (valid_index_length Hm).
      rewrite <- app_assoc. cbn [app].
      now rewrite swap_middle, enum_index_middle.
Qed.

Lemma mask_app (a b : Shape) (i j : Index) :
  length a = length i -> mask (a ++ b) (i ++ j) = mask a i ++ mask b j.
Proof.
  revert i. induction a as [|x a IH]; intros [|y i] Hl; simpl in Hl;
    try discriminate; [reflexivity|].
  unfold mask in *. cbn [app combine map]. rewrite IH by lia. reflexivity.
Qed.

Lemma bc_aligned_enum (pre mid : Shape) (K : nat) :
  bc_aligned (repeat 1 (length pre) ++ K :: repeat 1 (length mid))
             (pre ++ 1 :: mid)
  = Some (pre ++ K :: mid).
Proof.
  induction pre as [|x pre IH]; cbn [length repeat app bc_aligned].
  - now rewrite bc_dim_1_r, bc_aligned_ones_any.
  - now rewrite bc_dim_1_l, IH.
Qed.

(** The unsqueezed support against logits that keep an axis of size 1
    for the categories. *)
Lemma broadcast_enum (pre mid : Shape) (K : nat) :
  broadcast_shapes (K :: repeat 1 (S (length mid))) (pre ++ 1 :: mid ++ [K])
  = Some (pre ++ K :: mid ++ [K]).
Proof.
  rewrite <- repeat_snoc.
  change (K :: repeat 1 (length mid) ++ [1])
    with ((K :: repeat 1 (length mid)) ++ [1]).
  change (pre ++ 1 :: mid ++ [K]) with (pre ++ (1 :: mid) ++ [K]).
  rewrite (app_assoc pre).
  rewrite broadcast_shapes_snoc_eq, bc_dim_1_l.
  replace (broadcast_shapes (K :: repeat 1 (length mid)) (pre ++ 1 :: mid))
    with (Some (pre ++ K :: mid)).
  - now rewrite <- app_assoc.
  - symmetry. unfold broadcast_shapes, pad.
    rewrite length_app. cbn [length]. rewrite repeat_length.
    replace (Nat.max (S (length mid)) (length pre + S (length mid)))
      with (length pre + S (length mid)) by lia.
    rewrite Nat.sub_diag.
    replace (length pre + S (length mid) - S (length mid))
      with (length pre) by lia.
    cbn [repeat app]. apply bc_aligned_enum.
Qed.

Lemma hd_bidx_enum (K k : nat) (ones : Shape) (ip rest : Index) :
  length rest = length ones -> k < K ->
  hd 0 (bidx (K :: ones) (ip ++ k :: rest)) = k.
Proof.
  intros Hl Hk. unfold bidx. rewrite length_app. cbn [length].
  rewrite Hl.
  replace (length ip + S (length ones) - S (length ones))
    with (length ip) by lia.
  rewrite skipn_app, skipn_all, Nat.sub_diag. cbn [skipn app].
  unfold mask. cbn [combine map fst snd hd].
  destruct (Nat.eqb_spec K 1); [lia | reflexivity].
Qed.

Lemma bidx_enum (pre mid : Shape) (K : nat) (ip im : Index) (k j : nat) :
  valid_index pre ip -> valid_index mid im -> j < K ->
  bidx (pre ++ 1 :: mid ++ [K]) (ip ++ k :: im ++ [j])
  = ip ++ 0 :: im ++ [j].
Proof.
  intros Hp Hm Hj. unfold bidx.
  rewrite !length_app. cbn [length]. rewrite !length_app. cbn [length].
  rewrite (valid_index_length Hp), (valid_index_length Hm), Nat.sub_diag.
  cbn [skipn].
  rewrite mask_app by (symmetry; exact (valid_index_length Hp)).
  rewrite (mask_id Hp). f_equal.
  change (1 :: mid ++ [K]) with ([1] ++ mid ++ [K]).
  change (k :: im ++ [j]) with ([k] ++ im ++ [j]).
  rewrite mask_app by reflexivity. cbn [mask combine map fst snd Nat.eqb app].
  f_equal. apply mask_id. apply valid_index_snoc; assumption.
Qed.

(** The gather-based computation on the support in shape (K, 1, ..., 1),
    against the same logits. *)
Lemma generic_core (lg : t R) (pre mid : Shape) (K : nat) :
  wf lg -> shape lg = pre ++ 1 :: mid ++ [K] -> 0 < K ->
  exists out,
    (' (value, log_pmf) <-
       broadcast_tensors (support_tensor K (S (length mid))) lg ;;
     value <- narrow_last_1 value ;;
     g <- gather_last log_pmf value ;;
     Ok (squeeze_last g)) = Ok out /\
    entries out (pre ++ K :: mid)
      (fun idx => get lg (enum_index (length pre) idx)).
Proof.
  intros Wl Hs HK.
  pose proof (entries_self Wl) as El. rewrite Hs in El at 1.
  destruct (broadcast_tensors_entries
              (support_tensor_entries K (S (length mid))) El
              (broadcast_enum pre mid K))
    as (v & pmf & Hbt & Ev & Epmf).
  rewrite Hbt. cbn [bind].
  assert (Eshape : pre ++ K :: mid ++ [K] = (pre ++ K :: mid) ++ [K])
    by (now rewrite <- app_assoc).
  rewrite Eshape in Ev, Epmf.
  destruct (narrow_last_1_entries (pre ++ K :: mid) Ev HK)
    as (ix & Hix & Eix).
  rewrite Hix. cbn [bind].
  assert (Hgx : forall idx, valid_index ((pre ++ K :: mid) ++ [1]) idx ->
            exists ip k im j,
              idx = (ip ++ k :: im) ++ [j] /\ valid_index pre ip /\
              k < K /\ valid_index mid im /\ j < 1 /\
              hd 0 (bidx (K :: repeat 1 (S (length mid))) idx) = k).
  { intros idx Hv.
    apply valid_index_snoc_inv in Hv as (i & j & -> & Hi & Hj).
    apply valid_index_middle in Hi as (ip & k & im & -> & Hp & Hk & Hm).
    exists ip, k, im, j. repeat split; auto.
    rewrite <- app_assoc. cbn [app].
    apply hd_bidx_enum; [|exact Hk].
    rewrite length_app, repeat_length. cbn [length].
    rewrite (valid_index_length Hm). lia. }
  rewrite (gather_last_entries pmf (pre ++ K :: mid) K 1 (proj1 Epmf) Eix).
  - cbn [bind]. eexists. split; [reflexivity|].
    eapply entries_ext.
    + apply (squeeze_last_entries (pre ++ K :: mid)). apply entries_tabulate.
    + intros idx Hv. cbv beta.
      assert (Hv1 : valid_index ((pre ++ K :: mid) ++ [1]) (idx ++ [0]))
        by (apply valid_index_snoc; [exact Hv | lia]).
      destruct Eix as (_ & _ & Gix). rewrite (Gix _ Hv1).
      destruct (Hgx _ Hv1) as (ip & k & im & j & E & Hp & Hk & Hm & Hj & ->).
      apply app_inj_tail in E as [-> <-].
      rewrite removelast_last, Nat2Z.id.
      destruct Epmf as (_ & _ & Gpmf).
      rewrite Gpmf
        by (apply valid_index_snoc;
            [apply Forall2_app; [exact Hp | now constructor] | exact Hk]).
      rewrite <- app_assoc. cbn [app].
      rewrite (@bidx_enum pre mid K ip im k k Hp Hm Hk).
      now rewrite <- (valid_index_length Hp), enum_index_middle.
  - intros idx Hv.
    destruct (Hgx _ Hv) as (ip & k & im & j & _ & _ & Hk & _ & _ & ->). lia.
Qed.

Lemma compat_enum (K : nat) (l1 b1 rest : list nat) :
  Forall (eq 1) l1 -> length l1 = length b1 ->
  forallb compat (combine (l1 ++ [K]) ((b1 ++ [1]) ++ rest)) = true.
Proof.
  intros H. revert b1. induction H as [|x l1 Hx Hl1 IH]; intros [|y b1] Hl;
    simpl in Hl; try discriminate.
  - cbn. unfold compat; cbn [fst snd]. cbn. now rewrite orb_true_r.
  - subst x. cbn [app combine forallb]. rewrite IH by lia. reflexivity.
Qed.

(** The support in shape (K, 1, ..., 1) passes validation whenever its
    shape is compatible with the batch shape. *)
Lemma validate_support_general (d : Categorical.obj) (B : Shape) (K m : nat) :
  shape (Categorical.logits d) = B ++ [K] ->
  forallb compat (combine (rev (repeat 1 m) ++ [K]) (rev B)) = true ->
  Categorical_validate_sample d (support_tensor K m) = Ok tt.
Proof.
  intros Hs Hc.
  unfold Categorical_validate_sample, validate_sample, support_tensor,
    Categorical_batch_shape, Categorical_num_events.
  rewrite Hs, removelast_last, last_last.
  cbn [shape]. change (length (@nil nat)) with 0.
  rewrite Nat.sub_0_r, skipn_all. cbn [bind require].
  rewrite app_nil_r. cbn [rev]. rewrite Hc. cbn [bind require].
  unfold all_elements; cbn [data].
  replace (forallb _ _) with true; [reflexivity|].
  symmetry. apply forallb_forall. intros z Hz.
  apply in_map_iff in Hz as (k & <- & Hk). apply in_seq in Hk.
  unfold integer_interval. apply andb_true_intro.
  split; [apply Z.leb_le | apply Z.leb_le]; lia.
Qed.

Lemma dim_support_tensor (K m : nat) : dim (support_tensor K m) = S m.
Proof.
  unfold dim, support_tensor. cbn [shape length]. now rewrite repeat_length.
Qed.

Lemma unsqueeze_support_tensor (K m : nat) :
  unsqueeze_last (support_tensor K m) = support_tensor K (S m).
Proof.
  unfold unsqueeze_last, support_tensor. cbn [shape data].
  now rewrite <- app_comm_cons, repeat_snoc.
Qed.

(** The first guard of the fast path holds on the support. *)
Lemma fast_guard (env : TorchEnv) (d : Categorical.obj) (B : Shape)
    (K m : nat) :
  shape (Categorical.logits d) = B ++ [K] ->
  forallb compat (combine (rev (repeat 1 m) ++ [K]) (rev B)) = true ->
  (if negb (tracing env) then
     _ <- (if Categorical._validate_args d
           then Categorical_validate_sample d (support_tensor K m)
           else Ok tt) ;;
     n <- size (support_tensor K m) 0 ;;
     k <- size (Categorical.logits d) (-1) ;;
     assert (n =? k)
   else Ok tt) = Ok tt.
Proof.
  intros Hs Hc.
  rewrite (@validate_support_general d B K m Hs Hc), size_support_first.
  rewrite (@size_snoc_last _ _ _ _ Hs).
  destruct (tracing env), (Categorical._validate_args d); cbn [negb bind];
    rewrite ?Nat.eqb_refl; reflexivity.
Qed.

(** Logits that keep an axis of size 1 where the value enumerates the
    categories. *)
Lemma log_prob_enum_axis (env : TorchEnv) (d : Categorical.obj)
    (pre mid : Shape) (K : nat) :
  wf (Categorical.logits d) ->
  shape (Categorical.logits d) = pre ++ 1 :: mid ++ [K] -> 0 < K ->
  exists out,
    Categorical_log_prob env d
      (mkValue (support_tensor K (length mid)) (Some (Categorical.id d)))
      = Ok out /\
    torch_Categorical_log_prob d (support_tensor K (length mid)) = Ok out /\
    entries out (pre ++ K :: mid)
      (fun idx => get (Categorical.logits d) (enum_index (length pre) idx)).
Proof.
  intros Wl Hs HK.
  assert (Hs' : shape (Categorical.logits d) = (pre ++ 1 :: mid) ++ [K])
    by (now rewrite <- app_assoc).
  assert (Hc : forallb compat
                 (combine (rev (repeat 1 (length mid)) ++ [K])
                          (rev (pre ++ 1 :: mid))) = true).
  { rewrite rev_app_distr. cbn [rev].
    apply compat_enum; [apply Forall_rev_ones|].
    now rewrite !length_rev, repeat_length. }
  destruct (@fast_core (negb (tracing env)) _ pre mid K Hs)
    as (out & Hfast & Eout).
  destruct (@generic_core _ pre mid K Wl Hs HK) as (out' & Hgen & Eout').
  assert (out' = out) by (exact (entries_eq Eout' Eout)). subst out'.
  exists out. split; [|split; [|exact Eout]].
  - unfold Categorical_log_prob.
    cbn [_pyro_categorical_support tensor]. rewrite Nat.eqb_refl.
    rewrite (@fast_guard env d (pre ++ 1 :: mid) K (length mid) Hs' Hc).
    cbn [bind]. rewrite dim_support_tensor.
    assert (Hdl : (dim (Categorical.logits d) <=? S (length mid)) = false).
    { apply Nat.leb_gt. unfold dim. rewrite Hs, length_app. cbn [length].
      rewrite length_app. cbn [length]. lia. }
    rewrite Hdl. cbn [bind]. exact Hfast.
  - unfold torch_Categorical_log_prob.
    rewrite (@validate_support_general d (pre ++ 1 :: mid) K (length mid)
               Hs' Hc).
    rewrite unsqueeze_support_tensor.
    destruct (Categorical._validate_args d); cbn [bind]; exact Hgen.
Qed.

(** *** Leading axes of size 1 *)

Lemma numel_ones_app (j : nat) (s : Shape) :
  numel (repeat 1 j ++ s) = numel s.
Proof. induction j as [|j IH]; simpl; [reflexivity | lia]. Qed.

Lemma ravel_zeros_app (j : nat) (s : Shape) (i : Index) :
  ravel (repeat 1 j ++ s) (repeat 0 j ++ i) = ravel s i.
Proof. induction j as [|j IH]; simpl; [reflexivity | now rewrite IH]. Qed.

Lemma get_padded {A} `{Dflt A} (x : t A) (j : nat) (i : Index) :
  get (mk (repeat 1 j ++ shape x) (data x)) (repeat 0 j ++ i) = get x i.
Proof. unfold get. cbn [shape data]. now rewrite ravel_zeros_app. Qed.

Lemma valid_index_ones (j : nat) (io : Index) :
  valid_index (repeat 1 j) io -> io = repeat 0 j.
Proof.
  revert io. induction j as [|j IH]; intros io Hv; simpl in *.
  - now inversion Hv.
  - inversion Hv as [|i d r s Hi Hr]; subst.
    rewrite (IH _ Hr). f_equal. lia.
Qed.

Lemma mask_ones (j : nat) (w : Index) :
  length w = j -> mask (repeat 1 j) w = repeat 0 j.
Proof.
  revert w. induction j as [|j IH]; intros [|x w] Hl; simpl in Hl;
    try discriminate; [reflexivity|].
  unfold mask in *. cbn [repeat combine map fst Nat.eqb].
  rewrite IH by lia. reflexivity.
Qed.

Lemma combine_app_eq {A B} (l1 l2 : list A) (r1 r2 : list B) :
  length l1 = length r1 ->
  combine (l1 ++ l2) (r1 ++ r2) = combine l1 r1 ++ combine l2 r2.
Proof.
  revert r1. induction l1 as [|x l1 IH]; intros [|y r1] Hl; simpl in Hl;
    try discriminate; [reflexivity|].
  cbn [app combine]. rewrite IH by lia. reflexivity.
Qed.

Lemma fits_ones (j : nat) (r : Shape) :
  forallb fits (combine (repeat 1 j) r) = true.
Proof.
  revert r. induction j as [|j IH]; intros [|y r]; simpl; try reflexivity.
  rewrite IH. unfold fits. cbn [fst snd]. now rewrite orb_true_r.
Qed.

Lemma expandable_padded (j : nat) (sx s : Shape) :
  j + length sx <= length s ->
  expandable (repeat 1 j ++ sx) s = expandable sx s.
Proof.
  intros Hl. unfold expandable. rewrite length_app, repeat_length.
  replace (j + length sx <=? length s) with true
    by (symmetry; apply Nat.leb_le; lia).
  replace (length sx <=? length s) with true
    by (symmetry; apply Nat.leb_le; lia).
  cbn [andb].
  set (u := skipn (length s - (j + length sx)) s).
  assert (Lu : length u = j + length sx)
    by (unfold u; rewrite length_skipn; lia).
  assert (Eu : skipn (length s - length sx) s = skipn j u).
  { unfold u. rewrite skipn_skipn. f_equal. lia. }
  rewrite Eu. rewrite <- (firstn_skipn j u) at 1.
  rewrite combine_app_eq
    by (rewrite repeat_length, length_firstn; lia).
  rewrite forallb_app, fits_ones. reflexivity.
Qed.

Lemma bidx_padded (j : nat) (sx : Shape) (idx : Index) :
  j + length sx <= length idx ->
  bidx (repeat 1 j ++ sx) idx = repeat 0 j ++ bidx sx idx.
Proof.
  intros Hl. unfold bidx. rewrite length_app, repeat_length.
  set (u := skipn (length idx - (j + length sx)) idx).
  assert (Lu : length u = j + length sx)
    by (unfold u; rewrite length_skipn; lia).
  assert (Eu : skipn (length idx - length sx) idx = skipn j u).
  { unfold u. rewrite skipn_skipn. f_equal. lia. }
  rewrite Eu. rewrite <- (firstn_skipn j u) at 1.
  rewrite mask_app by (rewrite repeat_length, length_firstn; lia).
  rewrite mask_ones by (rewrite length_firstn; lia).
  reflexivity.
Qed.

(** Leading axes of size 1 make no difference to an expansion. *)
Lemma expand_padded {A} `{Dflt A} (x : t A) (j : nat) (s : Shape) :
  j + dim x <= length s ->
  expand (mk (repeat 1 j ++ shape x) (data x)) s = expand x s.
Proof.
  intros Hl. unfold dim in Hl. unfold expand. cbn [shape].
  rewrite expandable_padded by exact Hl.
  destruct (expandable (shape x) s); [|reflexivity].
  f_equal. apply tabulate_ext. intros idx Hv.
  rewrite bidx_padded by (rewrite (valid_index_length Hv); exact Hl).
  apply get_padded.
Qed.

Lemma broadcast_shapes_padded (sa sx : Shape) (j : nat) :
  j + length sx <= length sa ->
  broadcast_shapes sa (repeat 1 j ++ sx) = broadcast_shapes sa sx.
Proof.
  intros Hl. unfold broadcast_shapes, pad.
  rewrite length_app, repeat_length.
  replace (Nat.max (length sa) (j + length sx)) with (length sa) by lia.
  replace (Nat.max (length sa) (length sx)) with (length sa) by lia.
  rewrite app_assoc, <- repeat_app.
  do 3 f_equal. lia.
Qed.

Lemma broadcast_tensors_padded {A B} `{Dflt A} `{Dflt B}
    (a : t A) (x : t B) (j : nat) :
  j + dim x <= dim a ->
  broadcast_tensors a (mk (repeat 1 j ++ shape x) (data x))
  = broadcast_tensors a x.
Proof.
  intros Hl. unfold dim in Hl. unfold broadcast_tensors. cbn [shape].
  rewrite broadcast_shapes_padded by exact Hl.
  destruct (broadcast_shapes (shape a) (shape x)) as [s|] eqn:Hs;
    [|reflexivity].
  destruct (broadcast_expandable _ _ Hs) as [Ea _].
  unfold expandable in Ea. apply andb_prop in Ea as [Ea _].
  apply Nat.leb_le in Ea.
  rewrite expand_padded by (unfold dim; lia). reflexivity.
Qed.

(** Logits with no more batch axes than the value has axes of size 1:
    the fast path reshapes them first. *)
Lemma log_prob_enum_padded (env : TorchEnv) (d : Categorical.obj)
    (b : Shape) (K m : nat) :
  wf (Categorical.logits d) ->
  shape (Categorical.logits d) = b ++ [K] -> 0 < K -> length b <= m ->
  exists out,
    Categorical_log_prob env d
      (mkValue (support_tensor K m) (Some (Categorical.id d))) = Ok out /\
    torch_Categorical_log_prob d (support_tensor K m) = Ok out /\
    entries out (K :: repeat 1 (m - length b) ++ b)
      (fun idx => get (Categorical.logits d)
                      (skipn (S (m - length b)) idx ++ [hd 0 idx])).
Proof.
  intros Wl Hs HK Hm.
  set (j := m - length b).
  remember (repeat 1 j ++ b) as mid eqn:Emid.
  set (lg := mk (repeat 1 (S j) ++ shape (Categorical.logits d))
                (data (Categorical.logits d))).
  assert (Lmid : length mid = m)
    by (rewrite Emid; unfold j; rewrite length_app, repeat_length; lia).
  assert (Hlg : shape lg = [] ++ 1 :: mid ++ [K]).
  { unfold lg. rewrite Emid. cbn [shape repeat app]. rewrite Hs.
    now rewrite <- app_assoc. }
  assert (Wlg : wf lg).
  { unfold wf, lg in *. cbn [shape data]. now rewrite numel_ones_app. }
  assert (Hc : forallb compat
                 (combine (rev (repeat 1 m) ++ [K]) (rev b)) = true).
  { apply compat_ones; [apply Forall_rev_ones|].
    rewrite !length_rev, repeat_length. exact Hm. }
  destruct (@fast_core (negb (tracing env)) lg [] mid K Hlg)
    as (out & Hfast & Eout).
  destruct (@generic_core lg [] mid K Wlg Hlg HK) as (out' & Hgen & Eout').
  assert (out' = out) by (exact (entries_eq Eout' Eout)). subst out'.
  rewrite Lmid in Hfast, Hgen.
  exists out. split; [|split].
  - unfold Categorical_log_prob.
    cbn [_pyro_categorical_support tensor]. rewrite Nat.eqb_refl.
    rewrite (@fast_guard env d b K m Hs Hc).
    cbn [bind]. rewrite dim_support_tensor.
    assert (Hd : dim (Categorical.logits d) = S (length b))
      by (unfold dim; rewrite Hs, length_app; cbn [length]; lia).
    rewrite Hd.
    replace (S (length b) <=? S m) with true
      by (symmetry; apply Nat.leb_le; lia).
    replace (1 + S m - S (length b)) with (S j) by (unfold j; lia).
    unfold reshape. rewrite numel_ones_app, Nat.eqb_refl. cbn [bind].
    fold lg. exact Hfast.
  - unfold torch_Categorical_log_prob.
    rewrite (@validate_support_general d b K m Hs Hc).
    rewrite unsqueeze_support_tensor.
    rewrite <- (broadcast_tensors_padded (support_tensor K (S m))
                  (Categorical.logits d) (S j)).
    + fold lg. destruct (Categorical._validate_args d); cbn [bind];
        exact Hgen.
    + rewrite dim_support_tensor. unfold dim. rewrite Hs, length_app.
      cbn [length]. unfold j. lia.
  - cbn [app] in Eout. eapply entries_ext; [exact Eout|].
    intros idx Hv. cbv beta. rewrite Emid in Hv.
    destruct idx as [|k r]; [inversion Hv|].
    apply Forall2_cons_iff in Hv as [Hk Hr].
    apply Forall2_app_inv_r in Hr as (io & ib & Ho & Hb & ->).
    apply valid_index_ones in Ho. rewrite Ho.
    change (enum_index (length (@nil nat)) (k :: repeat 0 j ++ ib))
      with (enum_index (length (@nil nat)) ([] ++ k :: repeat 0 j ++ ib)).
    rewrite enum_index_middle. cbn [app hd].
    change (0 :: (repeat 0 j ++ ib) ++ [k])
      with ((0 :: repeat 0 j ++ ib) ++ [k]).
    change (0 :: repeat 0 j ++ ib) with (repeat 0 (S j) ++ ib).
    rewrite <- app_assoc. unfold lg. rewrite get_padded.
    cbn [skipn].
    rewrite skipn_app, skipn_all2 by (rewrite repeat_length; lia).
    rewrite repeat_length, Nat.sub_diag. reflexivity.
Qed.

(** The second guard of the fast path: logits whose axis at the place of
    the categories is not of size 1 are refused. *)
Lemma log_prob_enum_refused (env : TorchEnv) (d : Categorical.obj)
    (pre mid : Shape) (x K : nat) :
  shape (Categorical.logits d) = pre ++ x :: mid ++ [K] -> x <> 1 ->
  tracing env = false -> Categorical._validate_args d = false ->
  Categorical_log_prob env d
    (mkValue (support_tensor K (length mid)) (Some (Categorical.id d)))
  = Err AssertionError.
Proof.
  intros Hs Hx Ht Hva.
  assert (Hs' : shape (Categorical.logits d) = (pre ++ x :: mid) ++ [K])
    by (now rewrite <- app_assoc).
  assert (Hd : dim (Categorical.logits d) = length pre + S (S (length mid))).
  { unfold dim. rewrite Hs, length_app. cbn [length].
    rewrite length_app. cbn [length]. lia. }
  unfold Categorical_log_prob.
  cbn [_pyro_categorical_support tensor]. rewrite Nat.eqb_refl, Ht, Hva.
  cbn [negb bind].
  rewrite size_support_first, (@size_snoc_last _ _ _ _ Hs').
  cbn [bind]. rewrite Nat.eqb_refl. cbn [assert bind].
  rewrite dim_support_tensor, Hd.
  replace (length pre + S (S (length mid)) <=? S (length mid)) with false
    by (symmetry; apply Nat.leb_gt; lia).
  cbn [bind].
  replace (-1 - Z.of_nat (S (length mid)))%Z
    with (- Z.of_nat (S (S (length mid))))%Z by lia.
  unfold size at 1. rewrite Hd, norm_dim_neg by lia. cbn [bind].
  replace (length pre + S (S (length mid)) - S (S (length mid)))
    with (length pre) by lia.
  rewrite Hs, nth_middle.
  destruct (Nat.eqb_spec x 1); [contradiction | reflexivity].
Qed.

(** X13: the fast path of [Categorical.log_prob] on the support in any
    shape (K, 1, ..., 1), tagged with the distribution.  If the logits
    keep an axis of size 1 at the place where the value has its K
    categories, or have no more batch axes than the value has axes of
    size 1, then the reshape, transpose and squeeze of the logits return
    the tensor that the gather-based [log_prob] returns on the same
    value: the logits with the axis of the categories moved to that
    place.  If instead the logits have an axis of another size there,
    the fast path raises [AssertionError] and returns nothing. *)
Theorem Categorical_log_prob_reshaped_support (env : TorchEnv)
    (d : Categorical.obj) (K : nat) :
  wf (Categorical.logits d) -> 0 < K ->
  (forall pre mid,
     shape (Categorical.logits d) = pre ++ 1 :: mid ++ [K] ->
     exists out,
       Categorical_log_prob env d
         (mkValue (support_tensor K (length mid)) (Some (Categorical.id d)))
         = Ok out /\
       torch_Categorical_log_prob d (support_tensor K (length mid))
         = Ok out /\
       entries out (pre ++ K :: mid)
         (fun idx => get (Categorical.logits d)
                         (enum_index (length pre) idx))) /\
  (forall b m,
     shape (Categorical.logits d) = b ++ [K] -> length b <= m ->
     exists out,
       Categorical_log_prob env d
         (mkValue (support_tensor K m) (Some (Categorical.id d))) = Ok out /\
       torch_Categorical_log_prob d (support_tensor K m) = Ok out /\
       entries out (K :: repeat 1 (m - length b) ++ b)
         (fun idx => get (Categorical.logits d)
                         (skipn (S (m - length b)) idx ++ [hd 0 idx]))) /\
  (forall pre x mid,
     shape (Categorical.logits d) = pre ++ x :: mid ++ [K] -> x <> 1 ->
     tracing env = false -> Categorical._validate_args d = false ->
     Categorical_log_prob env d
       (mkValue (support_tensor K (length mid)) (Some (Categorical.id d)))
     = Err AssertionError).
Proof.
  intros Wl HK. split; [|split].
  - intros pre mid Hs. now apply log_prob_enum_axis.
  - intros b m Hs Hm. now apply log_prob_enum_padded.
  - intros pre x mid Hs Hx Ht Hva.
    exact (@log_prob_enum_refused env d pre mid x K Hs Hx Ht Hva).
Qed.

Lemma Categorical_log_prob_reshaped_support_witness :
  exists out,
    Categorical_log_prob env_lenient categorical_sample
      (mkValue (support_tensor 3 2) (Some 7)) = Ok out /\
    torch_Categorical_log_prob categorical_sample (support_tensor 3 2)
      = Ok out /\
    shape out = [3; 1; 2] /\
    get out [2; 0; 1] = 6%R.
Proof.
  assert (Wl : wf (Categorical.logits categorical_sample)) by reflexivity.
  assert (HK : 0 < 3) by lia.
  destruct (@Categorical_log_prob_reshaped_support env_lenient
              categorical_sample 3 Wl HK) as (_ & HB & _).
  destruct (HB [2] 2 eq_refl) as (out & Hf & Hg & Eo); [simpl; lia|].
  exists out. split; [exact Hf|]. split; [exact Hg|].
  destruct Eo as (Hs & _ & Ho). split; [exact Hs|].
  rewrite Ho by (repeat constructor). reflexivity.
Defined.

(** ** Categorical.log_prob on the expanded support *)

Lemma enumerate_support_expanded_entries (d : Categorical.obj) :
  exists x,
    Categorical_enumerate_support d true = Ok (mkValue x None) /\
    entries x (Categorical_num_events d :: Categorical_batch_shape d)
      (fun idx => Z.of_nat (hd 0 idx)).
Proof.
  set (k := Categorical_num_events d).
  set (b := Categorical_batch_shape d).
  destruct (expand_entries (k :: b) (support_tensor_entries k (length b))
              (expandable_support k b)) as (x & Hx & Ex).
  exists x. split.
  - unfold Categorical_enumerate_support,
      torch_Categorical_enumerate_support, view, arange.
    cbn [shape numel]. rewrite Nat.mul_1_r, infer_shape_support.
    cbn [bind negb]. unfold expand_spec, dim. cbn [shape length].
    rewrite length_map, repeat_length, Nat.sub_diag.
    cbn [seq combine map fst snd Z.eqb Pos.eqb Nat.sub nth].
    rewrite expand_spec_target by apply length_seq.
    cbn [data]. unfold k, b, support_tensor in Hx.
    rewrite Hx. reflexivity.
  - eapply entries_ext; [exact Ex|].
    intros idx Hv. cbv beta. f_equal.
    apply (@hd_bidx_support k (repeat 1 (length b)) b);
      [apply repeat_length | exact Hv].
Qed.

Lemma unsqueeze_last_entries {A} `{Dflt A}
    (x : t A) (s : Shape) (g : Index -> A) :
  entries x s g ->
  entries (unsqueeze_last x) (s ++ [1]) (fun idx => g (removelast idx)).
Proof.
  intros (Hs & Hw & Hg). unfold unsqueeze_last. repeat split.
  - cbn [shape]. now rewrite Hs.
  - unfold wf in *. cbn [shape data]. rewrite Hw, numel_snoc. lia.
  - intros idx Hv.
    apply valid_index_snoc_inv in Hv as (i & j & -> & Hi & Hj).
    rewrite removelast_last, <- (Hg _ Hi).
    unfold get. cbn [shape data]. rewrite Hs.
    rewrite ravel_snoc by (exact (valid_index_length Hi)).
    f_equal. lia.
Qed.

Lemma compat_same (l : list nat) (rest : list nat) :
  forallb compat (combine (l ++ rest) l) = true.
Proof.
  induction l as [|x l IH]; [now destruct rest|].
  cbn [app combine forallb]. rewrite IH.
  unfold compat. cbn [fst snd]. now rewrite Nat.eqb_refl, orb_true_r.
Qed.

(** The gather-based [log_prob] on a value of shape (K, batch) that holds
    the category k all along its row k. *)
Lemma torch_log_prob_on_expanded_support (d : Categorical.obj) (x : t Z) :
  Categorical_wf d ->
  entries x (Categorical_num_events d :: Categorical_batch_shape d)
    (fun idx => Z.of_nat (hd 0 idx)) ->
  exists out,
    torch_Categorical_log_prob d x = Ok out /\
    entries out (Categorical_num_events d :: Categorical_batch_shape d)
            (logit_at d).
Proof.
  intros Wd Ex. pose proof (shape_logits Wd) as Hsh.
  destruct Wd as (Wl & _ & HK).
  set (k := Categorical_num_events d) in *.
  set (b := Categorical_batch_shape d) in *.
  assert (Hval : Categorical_validate_sample d x = Ok tt).
  { unfold Categorical_validate_sample, validate_sample. fold k b.
    destruct Ex as (Sx & Wx & Gx). rewrite Sx.
    change (length (@nil nat)) with 0.
    rewrite Nat.sub_0_r, skipn_all. cbn [bind require].
    rewrite app_nil_r. cbn [rev]. rewrite compat_same. cbn [bind require].
    rewrite (all_elements_entries _ (conj Sx (conj Wx Gx))); [reflexivity|].
    intros idx Hv. inversion Hv as [|i dK r s Hi Hr]; subst. cbn [hd].
    unfold integer_interval. apply andb_true_intro.
    split; apply Z.leb_le; lia. }
  pose proof (unsqueeze_last_entries Ex) as Eu.
  pose proof (entries_self Wl) as El. rewrite Hsh in El at 1.
  assert (Hbc : broadcast_shapes ((k :: b) ++ [1]) (b ++ [k])
                = Some ((k :: b) ++ [k])).
  { rewrite broadcast_shapes_snoc_eq, bc_dim_1_l.
    change (k :: b) with ([k] ++ b).
    now rewrite (broadcast_shapes_prefix_l [k] b). }
  destruct (broadcast_tensors_entries Eu El Hbc)
    as (v & pmf & Hbt & Ev & Epmf).
  destruct (narrow_last_1_entries (k :: b) Ev HK) as (ix & Hix & Eix).
  assert (Hgx : forall idx, valid_index ((k :: b) ++ [1]) idx ->
            removelast (bidx ((k :: b) ++ [1]) idx) = removelast idx).
  { intros idx Hv.
    apply valid_index_snoc_inv in Hv as (i & j & -> & Hi & Hj).
    unfold bidx. rewrite !length_app. cbn [length].
    rewrite (valid_index_length Hi), Nat.sub_diag. cbn [skipn].
    rewrite mask_app by (symmetry; exact (valid_index_length Hi)).
    rewrite (mask_id Hi). cbn [mask combine map fst snd Nat.eqb].
    now rewrite !removelast_last. }
  assert (Hrange : forall idx, valid_index ((k :: b) ++ [1]) idx ->
            (0 <= Z.of_nat
                    (hd 0%nat (removelast (bidx ((k :: b) ++ [1%nat]) idx)))
             < Z.of_nat k)%Z).
  { intros idx Hv. rewrite (Hgx _ Hv).
    apply valid_index_snoc_inv in Hv as (i & j & -> & Hi & Hj).
    rewrite removelast_last.
    inversion Hi as [|i0 dK r s Hi0 Hr]; subst. cbn [hd]. lia. }
  eexists. split.
  - unfold torch_Categorical_log_prob. rewrite Hval.
    replace (_ <- (if Categorical._validate_args d then Ok tt else Ok tt) ;; _)
      with (let value := unsqueeze_last x in
            ' (value, log_pmf) <-
               broadcast_tensors value (Categorical.logits d) ;;
            value <- narrow_last_1 value ;;
            g <- gather_last log_pmf value ;; Ok (squeeze_last g))
      by (now destruct (Categorical._validate_args d)).
    cbv zeta. rewrite Hbt. cbn [bind]. rewrite Hix. cbn [bind].
    rewrite (gather_last_entries pmf (k :: b) k 1 (proj1 Epmf) Eix Hrange).
    cbn [bind]. reflexivity.
  - eapply entries_ext.
    + apply (squeeze_last_entries (k :: b)). apply entries_tabulate.
    + intros idx Hv. cbv beta.
      assert (Hv1 : valid_index ((k :: b) ++ [1]) (idx ++ [0]))
        by (apply valid_index_snoc; [exact Hv | lia]).
      destruct Eix as (_ & _ & Gix). rewrite (Gix _ Hv1), (Hgx _ Hv1).
      rewrite !removelast_last, Nat2Z.id.
      inversion Hv as [|i dK ib s Hi Hb]; subst. cbn [hd].
      destruct Epmf as (_ & _ & Gpmf).
      assert (Hvb : valid_index (b ++ [k]) (ib ++ [i]))
        by (now apply valid_index_snoc).
      rewrite Gpmf
        by (apply (valid_index_snoc (s := k :: b));
            [now constructor | exact Hi]).
      cbn [app]. rewrite (bidx_drop_head i Hvb).
      unfold logit_at. reflexivity.
Qed.

(** X14: the table of log-probabilities does not depend on whether the
    support was enumerated with or without expansion.  On a Categorical
    distribution, [log_prob] of [enumerate_support(expand=True)], which
    gathers, and [log_prob] of [enumerate_support(expand=False)], which
    takes the fast path, return the same tensor: at (k, batch element)
    the logit of category k in that batch element. *)
Theorem Categorical_log_prob_expanded_support (env : TorchEnv)
    (d : Categorical.obj) :
  Categorical_wf d ->
  exists expanded unexpanded out,
    Categorical_enumerate_support d true = Ok expanded /\
    Categorical_enumerate_support d false = Ok unexpanded /\
    Categorical_log_prob env d expanded = Ok out /\
    Categorical_log_prob env d unexpanded = Ok out /\
    shape (tensor expanded)
      = Categorical_num_events d :: Categorical_batch_shape d /\
    entries out (Categorical_num_events d :: Categorical_batch_shape d)
            (logit_at d).
Proof.
  intros Wd.
  destruct (enumerate_support_expanded_entries d) as (x & Hx & Ex).
  destruct (torch_log_prob_on_expanded_support Wd Ex) as (out & Hout & Eout).
  exists (mkValue x None),
         (mkValue (support_tensor (Categorical_num_events d)
                     (length (Categorical_batch_shape d)))
                  (Some (Categorical.id d))), out.
  split; [exact Hx|].
  split; [apply enumerate_support_unexpanded|].
  split; [exact Hout|].
  split.
  - rewrite (fast_log_prob_on_support env Wd). f_equal.
    exact (entries_eq (support_log_prob_entries d) Eout).
  - split; [exact (proj1 Ex) | exact Eout].
Qed.

Lemma Categorical_log_prob_expanded_support_witness :
  exists expanded unexpanded out,
    Categorical_enumerate_support categorical_sample true = Ok expanded /\
    Categorical_enumerate_support categorical_sample false = Ok unexpanded /\
    Categorical_log_prob env_lenient categorical_sample expanded = Ok out /\
    Categorical_log_prob env_lenient categorical_sample unexpanded = Ok out /\
    shape (tensor expanded) = [3; 2] /\
    get out [2; 1] = 6%R.
Proof.
  assert (Wd : Categorical_wf categorical_sample).
  { split; [reflexivity|]. split; [discriminate|].
    unfold Categorical_num_events; simpl. lia. }
  destruct (Categorical_log_prob_expanded_support env_lenient Wd)
    as (e & u & out & He & Hu & Hoe & Hou & Hs & Eo).
  exists e, u, out.
  split; [exact He|]. split; [exact Hu|]. split; [exact Hoe|].
  split; [exact Hou|]. split; [exact Hs|].
  destruct Eo as (_ & _ & Ho).
  rewrite Ho by (repeat constructor). reflexivity.
Defined.
